(** * Image-to-checkbox pipeline: a shallow embedding of the JavaScript sources

    The development follows [utils/imageProcessor.js], [utils/gifProcessor.js],
    [utils/gifFrameExtractor.js] and [hooks/useAnimatedGIF.js].

    JavaScript numbers are IEEE 754 binary64 values; they are modelled by
    Rocq's primitive floats, whose operations are the same correctly rounded
    binary64 operations.  Quantities that the code keeps integral (array
    indices, byte values, pixel counts, histogram sums) are modelled in [Z]
    or [nat]; they stay far below 2^53, where binary64 integer arithmetic is
    exact. *)

From Stdlib Require Import ZArith Bool Lia Floats QArith Qround.
From stdpp Require Import base list strings.

#[local] Set Warnings "-inexact-float".
Local Open Scope Z_scope.

(** ** JavaScript numbers *)

Module JS.

(** [ToNumber] of an integral value below 2^53. *)
Definition ofZ (z : Z) : float :=
  if z <? 0 then PrimFloat.opp (PrimFloat.of_uint63 (Uint63.of_Z (- z)))
  else PrimFloat.of_uint63 (Uint63.of_Z z).

(** Reading a typed array: an index out of range gives [undefined], which
    arithmetic converts to NaN. *)
Definition get (data : list Z) (i : nat) : float :=
  match data !! i with
  | Some v => ofZ v
  | None => PrimFloat.nan
  end.

(** [Math.round]: the integer closest to [x], ties towards +infinity;
    NaN, the infinities and the zeros are returned unchanged. *)
Definition Math_round (x : float) : float :=
  match Prim2SF x with
  | S754_finite s m e =>
      if 0 <=? e then x
      else
        let k := - e in
        if s then
          let n := (2 ^ k - 2 * Z.pos m) / 2 ^ (k + 1) in
          if n =? 0 then PrimFloat.neg_zero else ofZ n
        else ofZ (Z.shiftr (Z.pos m + 2 ^ (k - 1)) k)
  | _ => x
  end.

(** Storing a number into a [Uint8ClampedArray] ([ToUint8Clamp]): NaN
    becomes 0, the value is clamped to [0, 255] and rounded to the nearest
    integer, ties to even. *)
Definition ToUint8Clamp (x : float) : Z :=
  match Prim2SF x with
  | S754_nan => 0
  | S754_zero _ => 0
  | S754_infinity s => if s then 0 else 255
  | S754_finite s m e =>
      if s then 0
      else if 0 <=? e then Z.min 255 (Z.pos m * 2 ^ e)
      else
        let k := - e in
        let q := Z.shiftr (Z.pos m) k in
        let r := Z.pos m mod 2 ^ k in
        let h := 2 ^ (k - 1) in
        let n := if r <? h then q
                 else if h <? r then q + 1
                 else if Z.even q then q else q + 1 in
        Z.min 255 n
  end.

End JS.

(** ** Image data

    An [ImageData] object: dimensions and the flat RGBA byte array
    ([Uint8ClampedArray]) of length [4 * width * height]. *)

Record ImageData := mkImageData {
  width : nat;
  height : nat;
  data : list Z
}.

Definition wf_ImageData (img : ImageData) : Prop :=
  length (data img) = (4 * (width img * height img))%nat ∧
  Forall (λ v, 0 <= v <= 255) (data img).

(** [new ImageData(w, h)]: transparent black. *)
Definition new_ImageData (w h : nat) : ImageData :=
  mkImageData w h (replicate (4 * (w * h)) 0).

(** ** PROCESSING_CONFIG *)

Module PROCESSING_CONFIG.
Definition SUPPORTED_FORMATS : list string :=
  ["image/jpeg"; "image/png"; "image/gif"; "image/webp"]%string.
Definition MAX_FILE_SIZE : Z := 10 * 1024 * 1024.
Definition MIN_DIMENSION : Z := 10.
Definition MAX_DIMENSION : Z := 1000.
Definition DEFAULT_THRESHOLD : Z := 128.
Definition red : float := 0.299%float.
Definition green : float := 0.587%float.
Definition blue : float := 0.114%float.
End PROCESSING_CONFIG.

(** ** Grayscale conversion *)

(** The luminance expression of the source, evaluated left to right in
    binary64. *)
Definition luminance (r g b : float) : float :=
  (r * PROCESSING_CONFIG.red + g * PROCESSING_CONFIG.green
   + b * PROCESSING_CONFIG.blue)%float.

(** One iteration of the loop body of [convertImageDataToGrayscale] at
    index [i]: reads from [src], writes four entries of [dst]. *)
Definition grayscale_step (src dst : list Z) (i : nat) : list Z :=
  let r := JS.get src i in
  let g := JS.get src (i + 1) in
  let b := JS.get src (i + 2) in
  let gray := JS.Math_round (luminance r g b) in
  let dst := <[i := JS.ToUint8Clamp gray]> dst in
  let dst := <[(i + 1)%nat := JS.ToUint8Clamp gray]> dst in
  let dst := <[(i + 2)%nat := JS.ToUint8Clamp gray]> dst in
  <[(i + 3)%nat := JS.ToUint8Clamp (JS.get src (i + 3))]> dst.

(** [for (let i = 0; i < data.length; i += 4)], with the number of
    iterations left as fuel. *)
Fixpoint grayscale_loop (fuel : nat) (src dst : list Z) (i : nat) : list Z :=
  match fuel with
  | O => dst
  | S fuel' =>
      if (i <? length src)%nat
      then grayscale_loop fuel' src (grayscale_step src dst i) (i + 4)
      else dst
  end.

Definition convertImageDataToGrayscale (imageData : ImageData) : ImageData :=
  let grayscaleData := new_ImageData (width imageData) (height imageData) in
  mkImageData (width imageData) (height imageData)
    (grayscale_loop (length (data imageData)) (data imageData)
       (data grayscaleData) 0).

(** [convertToGrayscale] overwrites the canvas pixels in place and leaves
    the alpha entries alone. *)
Definition grayscale_step_inplace (data : list Z) (i : nat) : list Z :=
  let r := JS.get data i in
  let g := JS.get data (i + 1) in
  let b := JS.get data (i + 2) in
  let gray := JS.Math_round (luminance r g b) in
  let data := <[i := JS.ToUint8Clamp gray]> data in
  let data := <[(i + 1)%nat := JS.ToUint8Clamp gray]> data in
  <[(i + 2)%nat := JS.ToUint8Clamp gray]> data.

Fixpoint grayscale_loop_inplace (fuel : nat) (data : list Z) (i : nat) : list Z :=
  match fuel with
  | O => data
  | S fuel' =>
      if (i <? length data)%nat
      then grayscale_loop_inplace fuel' (grayscale_step_inplace data i) (i + 4)
      else data
  end.

(** ** Errors *)

Inductive ErrorCode :=
  | NO_FILE | UNSUPPORTED_FORMAT | FILE_TOO_LARGE
  | IMAGE_TOO_SMALL | IMAGE_TOO_LARGE | LOAD_ERROR
  | GRAYSCALE_ERROR | THRESHOLD_ERROR | OTSU_ERROR | EXPORT_ERROR
  | GIF_EXTRACTION_ERROR | GIF_LOAD_ERROR.

(** What a rejected promise or a [throw] carries: an
    [ImageProcessingError] with its code, a [TypeError] or [DOMException]
    raised by the browser, a plain [Error] with a message, or a plain
    [Error] whose message is [prefix] followed by the message of the
    browser's exception that a [catch] wrapped (that text is the browser's
    own). *)
Inductive Exn :=
  | ImageProcessingError (code : ErrorCode)
  | TypeError
  | DOMException
  | PlainError (message : string)
  | WrappedError (prefix : string).

Definition result (A : Type) : Type := Exn + A.

#[global] Instance result_ret : MRet result := λ A a, inr a.
#[global] Instance result_bind : MBind result := λ A B k r,
  match r with
  | inl e => inl e
  | inr a => k a
  end.

(** ** The canvas

    Scaling is done by the browser: [ctx.drawImage(source, 0, 0, w, h)] on a
    fresh [w] x [h] canvas, read back with [ctx.getImageData(0, 0, w, h)].
    The resampling filter is not part of the sources, so it is an interface;
    what comes back is always a well-formed [w] x [h] raster. *)

Class Canvas := {
  drawScaled : ImageData → nat → nat → ImageData;
  drawScaled_width : ∀ src w h, width (drawScaled src w h) = w;
  drawScaled_height : ∀ src w h, height (drawScaled src w h) = h;
  drawScaled_wf : ∀ src w h, wf_ImageData (drawScaled src w h)
}.

(** ** Files *)

(** A [File] as the pipeline sees it: its declared MIME type, its size in
    bytes and what the browser decodes from it ([None] when the image
    element fires [onerror]). *)
Record File := mkFile {
  type : string;
  size : Z;
  decoded : option ImageData
}.

Definition includes (l : list string) (s : string) : bool :=
  bool_decide (s ∈ l).

Section ImageProcessor.
Context `{Canvas}.

Definition validateImageFile (file : option File) : result unit :=
  match file with
  | None => inl (ImageProcessingError NO_FILE)
  | Some f =>
      if negb (includes PROCESSING_CONFIG.SUPPORTED_FORMATS (type f))
      then inl (ImageProcessingError UNSUPPORTED_FORMAT)
      else if PROCESSING_CONFIG.MAX_FILE_SIZE <? size f
      then inl (ImageProcessingError FILE_TOO_LARGE)
      else inr ()
  end.

Definition loadImage (file : File) : result ImageData :=
  match decoded file with
  | None => inl (ImageProcessingError LOAD_ERROR)
  | Some img =>
      if (Z.of_nat (width img) <? PROCESSING_CONFIG.MIN_DIMENSION)
         || (Z.of_nat (height img) <? PROCESSING_CONFIG.MIN_DIMENSION)
      then inl (ImageProcessingError IMAGE_TOO_SMALL)
      else if (PROCESSING_CONFIG.MAX_DIMENSION <? Z.of_nat (width img))
              || (PROCESSING_CONFIG.MAX_DIMENSION <? Z.of_nat (height img))
      then inl (ImageProcessingError IMAGE_TOO_LARGE)
      else inr img
  end.

(** [getImageData] throws on an empty rectangle; the [catch] turns that into
    [GRAYSCALE_ERROR]. *)
Definition convertToGrayscale (img : ImageData) (targetWidth targetHeight : nat)
  : result ImageData :=
  if (targetWidth =? 0)%nat || (targetHeight =? 0)%nat
  then inl (ImageProcessingError GRAYSCALE_ERROR)
  else
    let imageData := drawScaled img targetWidth targetHeight in
    inr (mkImageData (width imageData) (height imageData)
           (grayscale_loop_inplace (length (data imageData)) (data imageData) 0)).

(** The loop of [applyThreshold] over the scaled pixels: one boolean per
    pixel, from its red entry. *)
Fixpoint threshold_loop (fuel : nat) (data : list Z) (threshold : Z) (i : nat)
  (result : list bool) : list bool :=
  match fuel with
  | O => result
  | S fuel' =>
      match data !! i with
      | Some gray =>
          threshold_loop fuel' data threshold (i + 4) (result ++ [gray <? threshold])
      | None => result
      end
  end.

Definition applyThreshold (imageData : ImageData) (threshold : Z) (gridSize : nat)
  : result (list bool) :=
  if (gridSize =? 0)%nat
  then inl (ImageProcessingError THRESHOLD_ERROR)
  else
    let scaledData := drawScaled imageData gridSize gridSize in
    inr (threshold_loop (length (data scaledData)) (data scaledData) threshold 0 []).

(** *** Otsu's method *)

(** [histogram[gray]++] for the red entry of every pixel.  The entries of a
    [Uint8ClampedArray] are bytes, so the index is one of the 256 bins. *)
Fixpoint histogram_loop (fuel : nat) (data : list Z) (histogram : list Z) (i : nat)
  : list Z :=
  match fuel with
  | O => histogram
  | S fuel' =>
      match data !! i with
      | Some gray =>
          histogram_loop fuel' data (alter Z.succ (Z.to_nat gray) histogram) (i + 4)
      | None => histogram
      end
  end.

Definition build_histogram (imageData : ImageData) : list Z :=
  histogram_loop (length (data imageData)) (data imageData) (replicate 256 0) 0.

(** [histogram.reduce((sum, count) => sum + count, 0)] *)
Definition histogram_total (histogram : list Z) : Z :=
  foldl Z.add 0 histogram.

(** [for (i = 0; i < 256; i++) sum += i * histogram[i]], from bin [i] on. *)
Fixpoint weighted_sum (i : Z) (histogram : list Z) : Z :=
  match histogram with
  | [] => 0
  | h :: rest => i * h + weighted_sum (i + 1) rest
  end.

(** [wB * wF * (mB - mF) * (mB - mF)] with [mB = sumB / wB] and
    [mF = (sum - sumB) / wF], every operation in binary64. *)
Definition between_class_variance (wB wF sumB sum : Z) : float :=
  let mB := (JS.ofZ sumB / JS.ofZ wB)%float in
  let mF := (JS.ofZ (sum - sumB) / JS.ofZ wF)%float in
  (JS.ofZ wB * JS.ofZ wF * (mB - mF) * (mB - mF))%float.

Record otsu_state := mkOtsu {
  sumB : Z;
  wB : Z;
  maxVariance : float;
  threshold : Z
}.

(** The search loop over the bins that are left, [i] being the index of the
    first of them; [continue] while the background is empty, [break] once
    the foreground is. *)
Fixpoint otsu_loop (total sum : Z) (i : Z) (bins : list Z) (st : otsu_state) : Z :=
  match bins with
  | [] => threshold st
  | h :: rest =>
      let wB' := wB st + h in
      if wB' =? 0
      then otsu_loop total sum (i + 1) rest
             (mkOtsu (sumB st) wB' (maxVariance st) (threshold st))
      else
        let wF := total - wB' in
        if wF =? 0 then threshold st
        else
          let sumB' := sumB st + i * h in
          let variance := between_class_variance wB' wF sumB' sum in
          if PrimFloat.ltb (maxVariance st) variance
          then otsu_loop total sum (i + 1) rest (mkOtsu sumB' wB' variance i)
          else otsu_loop total sum (i + 1) rest
                 (mkOtsu sumB' wB' (maxVariance st) (threshold st))
  end.

Definition otsu_of_histogram (histogram : list Z) : Z :=
  let total := histogram_total histogram in
  let sum := weighted_sum 0 histogram in
  otsu_loop total sum 0 histogram
    (mkOtsu 0 0 0%float PROCESSING_CONFIG.DEFAULT_THRESHOLD).

Definition calculateOtsuThreshold (imageData : ImageData) : Z :=
  otsu_of_histogram (build_histogram imageData).

(** *** The single-image pipeline *)

Record ProcessResult := mkProcessResult {
  checkboxStates : list bool;
  result_threshold : Z;
  imageData : ImageData
}.

Definition processImage (file : option File) (gridSize : nat) (threshold : option Z)
  : result ProcessResult :=
  _ ← validateImageFile file;
  match file with
  | None => inl TypeError
  | Some f =>
      img ← loadImage f;
      grayscaleData ← convertToGrayscale img gridSize gridSize;
      let finalThreshold :=
        match threshold with
        | None => calculateOtsuThreshold grayscaleData
        | Some t => t
        end in
      checkboxStates ← applyThreshold grayscaleData finalThreshold gridSize;
      mret (mkProcessResult checkboxStates finalThreshold grayscaleData)
  end.

End ImageProcessor.

(** *** Text export *)

(** A JavaScript string is a sequence of UTF-16 code units. *)
Definition js_string := list Z.

Definition glyph_on : Z := 9746.   (* U+2612, ballot box with X *)
Definition glyph_off : Z := 9744.  (* U+2610, ballot box *)
Definition line_feed : Z := 10.

(** [(i + 1) % gridSize === 0]; the remainder by zero is NaN, which is not
    equal to 0. *)
Definition row_ends (i gridSize : nat) : bool :=
  if (gridSize =? 0)%nat then false else ((i + 1) mod gridSize =? 0)%nat.

(** The loop of [exportAsText] from index [i] on. *)
Fixpoint exportAsText_from (i : nat) (checkboxStates : list bool) (gridSize : nat)
  : js_string :=
  match checkboxStates with
  | [] => []
  | b :: rest =>
      ((if b then glyph_on else glyph_off)
       :: (if row_ends i gridSize then [line_feed] else []))
      ++ exportAsText_from (S i) rest gridSize
  end.

Definition exportAsText (checkboxStates : list bool) (gridSize : nat) : js_string :=
  exportAsText_from 0 checkboxStates gridSize.

(** *** Image export *)

(** What the export functions ask of the 2D context of their canvas, call
    by call.  A [fillRect] with an argument that is NaN or infinite is
    ignored by the context. *)
Inductive CanvasCall :=
  | SetFillStyle (colour : string)
  | FillRect (x y w h : Z)
  | FillRectNonFinite.

(** A canvas and the calls made on its context. *)
Record Drawing := mkDrawing {
  canvas_width : Z;
  canvas_height : Z;
  calls : list CanvasCall
}.

(** [exportSize === 'Small' ? 4 : exportSize === 'Medium' ? 8 : 12] *)
Definition pixelSize (exportSize : string) : Z :=
  if String.eqb exportSize "Small" then 4
  else if String.eqb exportSize "Medium" then 8
  else 12.

(** The drawing loop from index [i] on: a black square for every checked
    cell, at column [i % gridSize] and row [Math.floor(i / gridSize)]
    (array indices are below 2^32, where the floor of the binary64 quotient
    is the integer quotient).  With [gridSize] 0 the row is NaN or infinite
    and the column NaN. *)
Fixpoint draw_pixels (i : nat) (checkboxStates : list bool) (gridSize : nat)
  (pixelSize : Z) : list CanvasCall :=
  match checkboxStates with
  | [] => []
  | b :: rest =>
      (if b then
         if (gridSize =? 0)%nat then [FillRectNonFinite]
         else
           let row := Z.of_nat (i / gridSize) in
           let col := Z.of_nat (i mod gridSize) in
           [FillRect (col * pixelSize) (row * pixelSize) pixelSize pixelSize]
       else [])
      ++ draw_pixels (S i) rest gridSize pixelSize
  end.

(** The canvas of one grid: white background, then the black squares. *)
Definition draw_grid (checkboxStates : list bool) (gridSize : nat) (pixelSize : Z)
  : Drawing :=
  let canvasSize := Z.of_nat gridSize * pixelSize in
  mkDrawing canvasSize canvasSize
    ([SetFillStyle "white"; FillRect 0 0 canvasSize canvasSize; SetFillStyle "black"]
     ++ draw_pixels 0 checkboxStates gridSize pixelSize).


(** ** Animated GIFs *)

Module GIF_CONFIG.
Definition MAX_FRAMES : nat := 100.
Definition MIN_DELAY : Z := 50.
Definition MAX_DELAY : Z := 5000.
Definition DEFAULT_DELAY : Z := 100.
Definition SUPPORTED_FORMATS : list string := ["image/gif"]%string.
End GIF_CONFIG.

(** [class GIFFrame]; [delay] is a number when it is there. *)
Record GIFFrame := mkGIFFrame {
  frame_imageData : ImageData;
  frame_delay : option Z;
  disposalMethod : Z;
  frame_checkboxStates : option (list bool)
}.

(** The object [{...frame, checkboxStates, delay}] that the hook stores. *)
Record ProcessedFrame := mkProcessedFrame {
  pf_imageData : ImageData;
  delay : Z;
  pf_disposalMethod : Z;
  pf_checkboxStates : list bool
}.

(** *** utils/gifProcessor.js *)

Module GifProcessor.

Definition validateGIF (file : option File) : result unit :=
  match file with
  | None => inl (ImageProcessingError NO_FILE)
  | Some f =>
      if negb (includes GIF_CONFIG.SUPPORTED_FORMATS (type f))
      then inl (ImageProcessingError UNSUPPORTED_FORMAT)
      else if 50 * 1024 * 1024 <? size f
      then inl (ImageProcessingError FILE_TOO_LARGE)
      else inr ()
  end.

(** The module's own [convertToGrayscale]: the loop of
    [convertImageDataToGrayscale] with the weights written as literals, in
    front of the channel values. *)
Definition luminance (r g b : float) : float :=
  (0.299 * r + 0.587 * g + 0.114 * b)%float.

Definition grayscale_step (src dst : list Z) (i : nat) : list Z :=
  let r := JS.get src i in
  let g := JS.get src (i + 1) in
  let b := JS.get src (i + 2) in
  let gray := JS.Math_round (luminance r g b) in
  let dst := <[i := JS.ToUint8Clamp gray]> dst in
  let dst := <[(i + 1)%nat := JS.ToUint8Clamp gray]> dst in
  let dst := <[(i + 2)%nat := JS.ToUint8Clamp gray]> dst in
  <[(i + 3)%nat := JS.ToUint8Clamp (JS.get src (i + 3))]> dst.

Fixpoint grayscale_loop (fuel : nat) (src dst : list Z) (i : nat) : list Z :=
  match fuel with
  | O => dst
  | S fuel' =>
      if (i <? length src)%nat
      then grayscale_loop fuel' src (grayscale_step src dst i) (i + 4)
      else dst
  end.

Definition convertToGrayscale (imageData : ImageData) : ImageData :=
  let grayscaleData := new_ImageData (width imageData) (height imageData) in
  mkImageData (width imageData) (height imageData)
    (grayscale_loop (length (data imageData)) (data imageData)
       (data grayscaleData) 0).

Section Pipeline.
Context `{Canvas}.

(** The frame extraction of this module is driven by animation-frame
    callbacks; how many frames it collects depends on their timestamps, so
    it is taken as given. *)
Variable extractGIFrames : File → result (list GIFFrame).

(** [applyThresholdToGrid] has no [try]: the exception of [getImageData] on
    an empty rectangle escapes as it is. *)
Definition applyThresholdToGrid (imageData : ImageData) (threshold : Z) (gridSize : nat)
  : result (list bool) :=
  if (gridSize =? 0)%nat then inl DOMException
  else
    let scaledData := drawScaled imageData gridSize gridSize in
    inr (threshold_loop (length (data scaledData)) (data scaledData) threshold 0 []).

(** [processGIFrames] computes the grid of every frame and then builds the
    returned [GIFFrame] from the first three fields only. *)
Definition processGIFrames (frames : list GIFFrame) (gridSize : nat) (threshold : Z)
  : result (list GIFFrame) :=
  mapM (λ frame,
          let grayscaleData := convertImageDataToGrayscale (frame_imageData frame) in
          _ ← applyThresholdToGrid grayscaleData threshold gridSize;
          mret (mkGIFFrame (frame_imageData frame) (frame_delay frame)
                  (disposalMethod frame) None))
       frames.

Definition processGIF (gifFile : option File) (gridSize : nat) (threshold : Z)
  : result (list GIFFrame) :=
  _ ← validateGIF gifFile;
  match gifFile with
  | None => inl TypeError
  | Some f =>
      frames ← extractGIFrames f;
      processGIFrames frames gridSize threshold
  end.

End Pipeline.
(** [extractGIFrames] of this module.  [drawFrame] runs once per
    animation-frame callback, with the timestamp that the scheduler passes;
    [timestamps] are those of the callbacks that have run so far, and [None]
    means that the promise is still pending.  Drawing an animated image on
    a canvas draws its first frame.  An image without pixels makes
    [getImageData] throw inside the callback, where nothing catches it. *)
Section Extraction.
Context `{Canvas}.

Fixpoint drawFrame (img : ImageData) (frames : list GIFFrame) (timestamps : list float)
  : option (list GIFFrame) :=
  match timestamps with
  | [] => None
  | timestamp :: rest =>
      let imageData := drawScaled img (width img) (height img) in
      let frames :=
        frames ++ [mkGIFFrame imageData (Some GIF_CONFIG.DEFAULT_DELAY) 2 None] in
      if (GIF_CONFIG.MAX_FRAMES <=? length frames)%nat then Some frames
      else if PrimFloat.ltb timestamp 10000 then drawFrame img frames rest
      else Some frames
  end.

Definition extractGIFrames (gifFile : File) (timestamps : list float)
  : option (result (list GIFFrame)) :=
  match decoded gifFile with
  | None => Some (inl (ImageProcessingError GIF_LOAD_ERROR))
  | Some img =>
      if (width img =? 0)%nat || (height img =? 0)%nat then None
      else inr <$> drawFrame img [] timestamps
  end.

End Extraction.

(** [exportAnimatedGIF]: one canvas per frame, of which the first one is
    handed to [toBlob].  Reading [length] of a frame's missing
    [checkboxStates], or [toBlob] of a missing first canvas, throws; the
    [catch] rejects with [EXPORT_ERROR]. *)
Definition exportAnimatedGIF (frames : list GIFFrame) (gridSize : nat)
  (exportSize : string) : result Drawing :=
  let canvases :=
    mapM (λ frame,
            match frame_checkboxStates frame with
            | None => inl (ImageProcessingError EXPORT_ERROR)
            | Some checkboxStates =>
                inr (draw_grid checkboxStates gridSize (pixelSize exportSize))
            end)
         frames in
  canvases ← canvases;
  match canvases with
  | [] => inl (ImageProcessingError EXPORT_ERROR)
  | first :: _ => inr first
  end.

End GifProcessor.

(** *** utils/gifFrameExtractor.js *)

Module GifFrameExtractor.
Section Extractor.
Context `{Canvas}.

(** The synthetic variation of frame [i > 0]: the drawn pixels shifted
    vertically along a sine wave.  [Math.sin] is implementation-approximated,
    so the shifted raster is taken as given. *)
Variable waveEffect : ImageData → nat → ImageData.

Definition frameCount : nat := 15.
Definition baseDelay : Z := 100.

Definition extractFrame (img : ImageData) (i : nat) : GIFFrame :=
  let imageData := drawScaled img (width img) (height img) in
  mkGIFFrame
    (if (0 <? i)%nat then waveEffect imageData i else imageData)
    (Some (baseDelay + Z.of_nat i * 5))
    2
    None.

(** [URL.createObjectURL] throws a [TypeError] when there is no file; the
    image element's [onerror] rejects with a plain [Error]; [getImageData]
    throws on an empty rectangle, and the [catch] of [onload] wraps that
    exception's message. *)
Definition extractGIFrames (gifFile : option File) : result (list GIFFrame) :=
  match gifFile with
  | None => inl TypeError
  | Some f =>
      match decoded f with
      | None => inl (PlainError "Failed to load GIF")
      | Some img =>
          if (width img =? 0)%nat || (height img =? 0)%nat
          then inl (WrappedError "GIF frame extraction failed: ")
          else inr (map (extractFrame img) (seq 0 frameCount))
      end
  end.

End Extractor.
End GifFrameExtractor.

(** *** hooks/useAnimatedGIF.js

    The hook's state variables and refs, as one record passed from
    operation to operation. *)

Module UseAnimatedGIF.

Record HookState := mkHookState {
  isProcessing : bool;
  isPlaying : bool;
  currentFrame : nat;
  frames : list ProcessedFrame;
  error : option Exn;
  processingProgress : Z;
  frameCount : nat;
  playbackSpeed : float;
  animationRef : option nat;
  lastFrameTimeRef : float;
  currentFrameRef : nat
}.

(** [useState] and [useRef] initial values. *)
Definition initial : HookState :=
  mkHookState false false 0 [] None 0 0 1%float None 0%float 0.

(** [frame.delay || 100]: [undefined] and [0] are falsy. *)
Definition delay_or_default (d : option Z) : Z :=
  match d with
  | None => 100
  | Some v => if v =? 0 then 100 else v
  end.

Section Hook.
Context `{Canvas}.
Variable waveEffect : ImageData → nat → ImageData.

(** The body of the [for] loop of [processGIF]. *)
Definition processFrame (gridSize : nat) (threshold : Z) (frame : GIFFrame)
  : result ProcessedFrame :=
  let grayscaleData := convertImageDataToGrayscale (frame_imageData frame) in
  checkboxStates ← applyThreshold grayscaleData threshold gridSize;
  mret (mkProcessedFrame (frame_imageData frame) (delay_or_default (frame_delay frame))
          (disposalMethod frame) checkboxStates).

(** The effect on [isPlaying], which runs after a render in which
    [isPlaying] has changed: with playback off, a scheduled callback is
    cancelled and [animationRef] cleared.  [wasPlaying] is the value before
    the change. *)
Definition isPlaying_effect (wasPlaying isPlaying : bool) (animationRef : option nat)
  : option nat :=
  if bool_decide (wasPlaying = isPlaying) then animationRef
  else if negb isPlaying then None else animationRef.

(** [processGIF]: the state after the call settles, and what the promise
    carries.  The frames come from [gifFrameExtractor]; nothing is checked
    before that.  [setIsPlaying(false)] comes first, so playback that was
    running is cancelled by the effect whatever the outcome. *)
Definition processGIF (st : HookState) (file : option File) (gridSize : nat)
  (threshold : Z) : HookState * result (list ProcessedFrame) :=
  let animationRef' := isPlaying_effect (isPlaying st) false (animationRef st) in
  let outcome :=
    extractedFrames ← GifFrameExtractor.extractGIFrames waveEffect file;
    mapM (processFrame gridSize threshold) extractedFrames in
  match outcome with
  | inr processedFrames =>
      (mkHookState true false 0 processedFrames None 100 (length processedFrames)
         (playbackSpeed st) animationRef' (lastFrameTimeRef st) 0,
       inr processedFrames)
  | inl err =>
      (mkHookState false false 0 [] (Some err) 0 (frameCount st) (playbackSpeed st)
         animationRef' (lastFrameTimeRef st) 0,
       inl err)
  end.

End Hook.

(** **** Playback *)

(** What the [animate] closure of one [startAnimation] call captured. *)
Record AnimationLoop := mkLoop {
  loop_frames : list ProcessedFrame;
  loop_playbackSpeed : float
}.

(** [frame.delay / playbackSpeed] *)
Definition frameDelay (frame : ProcessedFrame) (playbackSpeed : float) : float :=
  (JS.ofZ (delay frame) / playbackSpeed)%float.

(** [startAnimation], called at time [now]; [handle] is what
    [requestAnimationFrame] returns. *)
Definition startAnimation (st : HookState) (now : float) (handle : nat)
  : HookState * option AnimationLoop :=
  match frames st with
  | [] => (st, None)
  | _ =>
      (mkHookState (isProcessing st) true 0 (frames st) (error st)
         (processingProgress st) (frameCount st) (playbackSpeed st)
         (Some handle) now 0,
       Some (mkLoop (frames st) (playbackSpeed st)))
  end.

(** One call of [animate] by the scheduler at [currentTime].  [None] when
    the captured frame list has no entry at the current index (reading
    [delay] of [undefined] throws). *)
Definition animate (loop : AnimationLoop) (st : HookState) (currentTime : float)
  (handle : nat) : option HookState :=
  let currentFrameIndex := currentFrameRef st in
  match loop_frames loop !! currentFrameIndex with
  | None => None
  | Some frame =>
      if PrimFloat.leb (frameDelay frame (loop_playbackSpeed loop))
           (currentTime - lastFrameTimeRef st)%float
      then
        let nextFrame := ((currentFrameIndex + 1) mod length (loop_frames loop))%nat in
        Some (mkHookState (isProcessing st) (isPlaying st) nextFrame (frames st)
                (error st) (processingProgress st) (frameCount st) (playbackSpeed st)
                (Some handle) currentTime nextFrame)
      else
        Some (mkHookState (isProcessing st) (isPlaying st) (currentFrame st) (frames st)
                (error st) (processingProgress st) (frameCount st) (playbackSpeed st)
                (Some handle) (lastFrameTimeRef st) (currentFrameRef st))
  end.

Definition stopAnimation (st : HookState) : HookState :=
  mkHookState (isProcessing st) false 0 (frames st) (error st)
    (processingProgress st) (frameCount st) (playbackSpeed st)
    None (lastFrameTimeRef st) 0.

Definition pauseAnimation (st : HookState) : HookState :=
  mkHookState (isProcessing st) false (currentFrame st) (frames st) (error st)
    (processingProgress st) (frameCount st) (playbackSpeed st)
    None (lastFrameTimeRef st) (currentFrameRef st).

Definition goToFrame (st : HookState) (frameIndex : Z) : HookState :=
  if (0 <=? frameIndex) && (frameIndex <? Z.of_nat (length (frames st)))
  then mkHookState (isProcessing st) (isPlaying st) (Z.to_nat frameIndex) (frames st)
         (error st) (processingProgress st) (frameCount st) (playbackSpeed st)
         (animationRef st) (lastFrameTimeRef st) (Z.to_nat frameIndex)
  else st.

Definition setSpeed (st : HookState) (speed : float) : HookState :=
  mkHookState (isProcessing st) (isPlaying st) (currentFrame st) (frames st)
    (error st) (processingProgress st) (frameCount st) speed
    (animationRef st) (lastFrameTimeRef st) (currentFrameRef st).

(** [resumeAnimation] *)
Definition resumeAnimation (st : HookState) (now : float) (handle : nat)
  : HookState * option AnimationLoop :=
  match frames st with
  | [] => (st, None)
  | _ => startAnimation st now handle
  end.

(** [getCurrentFrameStates] *)
Definition getCurrentFrameStates (st : HookState) : list bool :=
  match frames st !! currentFrame st with
  | Some frame => pf_checkboxStates frame
  | None => []
  end.

(** [clearFrames] *)
Definition clearFrames (st : HookState) : HookState :=
  let st := stopAnimation st in
  mkHookState (isProcessing st) (isPlaying st) 0 [] None (processingProgress st) 0
    (playbackSpeed st) (animationRef st) (lastFrameTimeRef st) (currentFrameRef st).

End UseAnimatedGIF.

(** ** A concrete canvas

    Modelled from the spec: the browser's scaling filter is not in the
    sources; the spec (4.3) describes it as area averaging, each output cell
    being the mean of the corresponding source region.  This instance is
    used to run the pipeline on concrete rasters. *)

Module BoxCanvas.

Definition byte_at (src : ImageData) (x y c : nat) : Z :=
  Z.max 0 (Z.min 255 (default 0 (data src !! (4 * (y * width src + x) + c)%nat))).

(** The source columns (or rows) covered by target cell [k] of [n], for a
    source extent [len]; never empty. *)
Definition span (len n k : nat) : list nat :=
  let lo := (k * len / n)%nat in
  let hi := ((k + 1) * len / n)%nat in
  seq lo (Nat.max 1 (hi - lo)).

Definition mean (values : list Z) : Z :=
  let n := Z.of_nat (length values) in
  Z.max 0 (Z.min 255 ((2 * foldr Z.add 0 values + n) / (2 * n))).

Definition cell (src : ImageData) (w h : nat) (p c : nat) : Z :=
  let x := (p mod w)%nat in
  let y := (p / w)%nat in
  mean (y' ← span (height src) h y; x' ← span (width src) w x; [byte_at src x' y' c]).

Definition pixel (src : ImageData) (w h : nat) (p : nat) : list Z :=
  [cell src w h p 0; cell src w h p 1; cell src w h p 2; cell src w h p 3].

Definition draw (src : ImageData) (w h : nat) : ImageData :=
  mkImageData w h (p ← seq 0 (w * h); pixel src w h p).

#[export] Instance canvas : Canvas.
Proof.
  refine {| drawScaled := draw;
            drawScaled_width := λ _ _ _, eq_refl;
            drawScaled_height := λ _ _ _, eq_refl |}.
  intros src w h. unfold wf_ImageData, draw; cbn [data width height]. split.
  - assert (Hlen : ∀ l : list nat, length (l ≫= pixel src w h) = (4 * length l)%nat).
    { induction l as [|p l IH]; [done|].
      rewrite bind_cons, length_app, IH. simpl. lia. }
    by rewrite Hlen, length_seq.
  - apply Forall_bind, Forall_forall. intros p _.
    unfold pixel, cell, mean. repeat constructor; lia.
Defined.

End BoxCanvas.

(** * Definitions for the statements

    Quantities and predicates that the properties below are stated with. *)

(** ** Grayscale conversion *)

(** The byte stored in the three colour entries of a pixel. *)
Definition gray_of (r g b : Z) : Z :=
  JS.ToUint8Clamp (JS.Math_round (luminance (JS.ofZ r) (JS.ofZ g) (JS.ofZ b))).

(** The result of the conversion loop on a whole number of pixels. *)
Fixpoint gray_pixels (data : list Z) : list Z :=
  match data with
  | r :: g :: b :: a :: rest =>
      gray_of r g b :: gray_of r g b :: gray_of r g b
      :: JS.ToUint8Clamp (JS.ofZ a) :: gray_pixels rest
  | _ => []
  end.

(** A raster that is gray already: in every pixel the three colour entries
    are equal. *)
Fixpoint gray_data (data : list Z) : Prop :=
  match data with
  | r :: g :: b :: a :: rest => r = g ∧ g = b ∧ gray_data rest
  | _ => True
  end.

(** The formula of the specification,
    [gray = round(0.299·R + 0.587·G + 0.114·B)], on the channel bytes of a
    pixel, in binary64. *)
Definition luminance_formula (R G B : Z) : float :=
  JS.Math_round (0.299 * JS.ofZ R + 0.587 * JS.ofZ G + 0.114 * JS.ofZ B)%float.

(** The same formula in exact arithmetic: the weighted sum of the channel
    bytes as a rational number, and its rounding to the nearest integer, a
    half going up as with [Math.round]. *)
Definition spec_luminance (R G B : Z) : Q :=
  ((299 # 1000) * inject_Z R + (587 # 1000) * inject_Z G + (114 # 1000) * inject_Z B)%Q.

Definition spec_gray (R G B : Z) : Z :=
  Qfloor (spec_luminance R G B + (1 # 2))%Q.

(** ** Thresholding and text export *)

(** The red entries of the pixels of a raster. *)
Fixpoint red_entries (data : list Z) : list Z :=
  match data with
  | r :: _ :: _ :: _ :: rest => r :: red_entries rest
  | _ => []
  end.

Definition glyph (b : bool) : Z := if b then glyph_on else glyph_off.

(** One line of the exported text: the glyphs of a row and a line feed. *)
Definition text_line (row : list bool) : js_string := (glyph <$> row) ++ [line_feed].

(** The rows of a row-major grid. *)
Fixpoint rows_of (n gridSize : nat) (grid : list bool) : list (list bool) :=
  match n with
  | O => []
  | S n' => take gridSize grid :: rows_of n' gridSize (drop gridSize grid)
  end.

(** ** Otsu's search *)

(** The quantities of candidate cut point [c] for a histogram: the
    background count, the foreground count and the background luminance
    sum, as the loop has them when it reaches bin [c]. *)
Definition wB_at (histogram : list Z) (c : nat) : Z :=
  histogram_total (take (S c) histogram).

Definition wF_at (histogram : list Z) (c : nat) : Z :=
  histogram_total histogram - wB_at histogram c.

Definition sumB_at (histogram : list Z) (c : nat) : Z :=
  weighted_sum 0 (take (S c) histogram).

(** A candidate splits the pixels when both classes are populated. *)
Definition valid_split (histogram : list Z) (c : nat) : Prop :=
  (c < length histogram)%nat ∧ wB_at histogram c ≠ 0 ∧ wF_at histogram c ≠ 0.

(** The between-class variance of candidate [c] as the code evaluates it. *)
Definition variance_at (histogram : list Z) (c : nat) : float :=
  between_class_variance (wB_at histogram c) (wF_at histogram c)
    (sumB_at histogram c) (weighted_sum 0 histogram).

(** What the search has found after the first [n] bins: still the default,
    no split so far having a positive variance; or the first split whose
    variance is positive and not exceeded by any other one so far. *)
Definition otsu_best (histogram : list Z) (n : nat) (maxV : float) (t : Z) : Prop :=
  (t = PROCESSING_CONFIG.DEFAULT_THRESHOLD ∧ maxV = 0%float ∧
   ∀ c, (c < n)%nat → valid_split histogram c →
        PrimFloat.ltb 0 (variance_at histogram c) = false)
  ∨ (∃ c0, (c0 < n)%nat ∧ t = Z.of_nat c0 ∧ valid_split histogram c0 ∧
       maxV = variance_at histogram c0 ∧ PrimFloat.ltb 0 maxV = true ∧
       (∀ c, (c < n)%nat → valid_split histogram c →
             PrimFloat.ltb maxV (variance_at histogram c) = false) ∧
       (∀ c, (c < c0)%nat → valid_split histogram c →
             PrimFloat.leb maxV (variance_at histogram c) = false)).



(** ** Binary64 arithmetic *)

(** The bytes 0..255 as numbers, for the exhaustive checks below. *)
Definition byte_values : list Z := Z.of_nat <$> seq 0 256.

Definition byte_numbers : list float := Eval vm_compute in JS.ofZ <$> byte_values.

(** The luminance of a pixel is at most 255.25, and it is positive unless
    the pixel is black. *)
Definition luminance_in_range (r g b : float) : bool :=
  let x := luminance r g b in
  PrimFloat.leb x 255.25
  && (PrimFloat.ltb 0 x
      || (PrimFloat.eqb r 0 && PrimFloat.eqb g 0 && PrimFloat.eqb b 0)).

Definition byte_check (v : Z) : bool :=
  (JS.ToUint8Clamp (JS.ofZ v) =? v)
  && (gray_of v v v =? v)
  && Bool.eqb (PrimFloat.eqb (JS.ofZ v) 0) (v =? 0).

(** The mantissa and the exponent increment that rounding gives for a
    mantissa [q] of 53 or 54 bits with location [l]. *)
Definition round_normal (q : Z) (l : location) : Z * Z :=
  let n := if q <? 2 ^ 53 then 0 else 1 in
  let rec1 := fst (shr (shr_record_of_loc q l) 0 n) in
  let m1 := round_nearest_even (shr_m rec1) (loc_of_shr_record rec1) in
  let n2 := if m1 <? 2 ^ 53 then 0 else 1 in
  (shr_m (fst (shr (shr_record_of_loc m1 loc_Exact) 0 n2)), n + n2).

(** A number that is at least 2^3 and normal: the delays and luminances of
    the pipeline are of this kind. *)
Definition normal_from_8 (x : float) : bool :=
  match Prim2SF x with
  | S754_finite false m e => (Z.pos (digits2_pos m) =? 53) && (-50 <=? e)
  | _ => false
  end.

(** A number between 2^-500 and 2^500. *)
Definition moderate (x : float) : bool :=
  PrimFloat.leb 0x1p-500 x && PrimFloat.leb x 0x1p+500.

(** A normal number of sign [s] whose exponent is at least [L], or the
    infinity of that sign. *)
Definition normal_above (s : bool) (L : Z) (x : spec_float) : Prop :=
  (∃ m e, x = S754_finite s m e ∧ 2 ^ 52 <= Z.pos m < 2 ^ 53 ∧ L <= e)
  ∨ x = S754_infinity s.

(** ** Stored frames *)

(** The delays that [gifFrameExtractor] gives to its 15 frames. *)
Definition extractor_delays : list Z :=
  (λ i, GifFrameExtractor.baseDelay + Z.of_nat i * 5) <$> seq 0 GifFrameExtractor.frameCount.

(** ** Example inputs *)

Definition gray_raster (w h : nat) (luminances : list Z) : ImageData :=
  mkImageData w h (v ← luminances; [v; v; v; 255]).

Definition two_pixels : ImageData :=
  mkImageData 2 1 [0; 36; 12; 255; 200; 100; 50; 128].

(** One pixel whose exact weighted sum is 59.5. *)
Definition half_pixel : ImageData := mkImageData 1 1 [0; 80; 110; 255].

(** A 10 x 10 raster, half of its pixels at luminance 10 and half at 240,
    alternating. *)
Definition bimodal_10_240 : ImageData :=
  gray_raster 10 10 (_ ← seq 0 50; [10; 240]).

Definition bimodal_file : File := mkFile "image/png" 4096 (Some bimodal_10_240).

(** Four pixels of luminance 0, 1, 1 and 2. *)
Definition tie_raster : ImageData := gray_raster 2 2 [0; 1; 1; 2].

(** Four pixels, two at luminance 10 and two at 240. *)
Definition two_level_raster : ImageData := gray_raster 2 2 [10; 240; 240; 10].

(** A GIF of 60 MB that the browser can decode. *)
Definition large_gif : File :=
  mkFile "image/gif" (60 * 1024 * 1024) (Some bimodal_10_240).

Definition small_gif : File := mkFile "image/gif" 4096 (Some bimodal_10_240).

Definition three_frames : list ProcessedFrame :=
  replicate 3 (mkProcessedFrame (gray_raster 1 1 [0]) 100 2 [true]).

(** The hook state once three frames are stored, playback not started. *)
Definition loaded_three : UseAnimatedGIF.HookState :=
  UseAnimatedGIF.mkHookState false false 0 three_frames None 100 3 1 None 0 0.

Definition playing_last : UseAnimatedGIF.HookState :=
  UseAnimatedGIF.mkHookState false true 2 three_frames None 0 3 1 (Some 0%nat) 1000 2.

(** ** Pixel counts, exported text and images, playback *)

(** The number of pixels whose red entry is [v]. *)
Definition pixel_count (reds : list Z) (v : Z) : Z :=
  Z.of_nat (length (filter (λ r, r = v) reds)).

(** Reading an exported text back: the line feeds are skipped and every
    other character is a cell, on when it is the on glyph. *)
Definition parse_text (text : list Z) : list bool :=
  (λ c, c =? glyph_on) <$> filter (λ c, c ≠ line_feed) text.


(** Whether the frame at the current index is due at time [t]. *)
Definition due (loop : UseAnimatedGIF.AnimationLoop) (st : UseAnimatedGIF.HookState)
  (t : float) : bool :=
  match UseAnimatedGIF.loop_frames loop !! UseAnimatedGIF.currentFrameRef st with
  | Some frame =>
      PrimFloat.leb
        (UseAnimatedGIF.frameDelay frame (UseAnimatedGIF.loop_playbackSpeed loop))
        (t - UseAnimatedGIF.lastFrameTimeRef st)
  | None => false
  end.

(** The scheduler calling [animate] at each of [times] in turn: the final
    state and the number of ticks at which the frame was due. *)
Fixpoint ticks (loop : UseAnimatedGIF.AnimationLoop) (st : UseAnimatedGIF.HookState)
  (times : list float) (handle : nat) : option (UseAnimatedGIF.HookState * nat) :=
  match times with
  | [] => Some (st, 0%nat)
  | t :: rest =>
      match UseAnimatedGIF.animate loop st t handle with
      | None => None
      | Some st' =>
          match ticks loop st' rest handle with
          | None => None
          | Some (final, n) => Some (final, if due loop st t then S n else n)
          end
      end
  end.

(** * Properties *)

(** ** The order of binary64 values

    [PrimFloat.ltb] and [PrimFloat.leb] are specified by [SFcompare] on the
    decoded values, which compares lexicographically. *)

Section FloatOrder.

Ltac cmp_cases :=
  repeat match goal with
  | H : context [Z.compare ?x ?y] |- _ => destruct (Z.compare_spec x y); subst
  | |- context [Z.compare ?x ?y] => destruct (Z.compare_spec x y); subst
  | H : context [Pos.compare_cont Eq ?x ?y] |- _ =>
      change (Pos.compare_cont Eq x y) with (Pos.compare x y) in H
  | |- context [Pos.compare_cont Eq ?x ?y] =>
      change (Pos.compare_cont Eq x y) with (Pos.compare x y)
  | H : context [Pos.compare ?x ?y] |- _ => destruct (Pos.compare_spec x y); subst
  | |- context [Pos.compare ?x ?y] => destruct (Pos.compare_spec x y); subst
  end.

Ltac sf_cases :=
  intros;
  repeat match goal with
  | x : spec_float |- _ => destruct x as [[]|[]| |[] ? ?]
  end;
  simpl in *; try congruence; cmp_cases; simpl in *; try congruence; try lia.

Lemma SFcompare_lt_trans a b c :
  SFcompare a b = Some Lt → SFcompare b c = Some Lt → SFcompare a c = Some Lt.
Proof. sf_cases. Qed.

Lemma SFcompare_lt_le_trans a b c o :
  SFcompare a b = Some Lt → SFcompare b c = Some o → o ≠ Gt →
  SFcompare a c = Some Lt.
Proof. destruct o; sf_cases. Qed.

Lemma SFcompare_lt_irrefl a : SFcompare a a ≠ Some Lt.
Proof. sf_cases. Qed.

Lemma SFcompare_lt_gt a b :
  SFcompare a b = Some Lt → SFcompare b a = Some Gt.
Proof. sf_cases. Qed.

Lemma SFcompare_self a b o : SFcompare a b = Some o → SFcompare b b = Some Eq.
Proof. destruct o; sf_cases. Qed.

Lemma ltb_Lt x y : PrimFloat.ltb x y = true ↔ SFcompare (Prim2SF x) (Prim2SF y) = Some Lt.
Proof.
  rewrite ltb_spec. unfold SFltb.
  destruct (SFcompare (Prim2SF x) (Prim2SF y)) as [[]|]; split; congruence.
Qed.

Lemma leb_Le x y :
  PrimFloat.leb x y = true ↔
  ∃ o, SFcompare (Prim2SF x) (Prim2SF y) = Some o ∧ o ≠ Gt.
Proof.
  rewrite leb_spec. unfold SFleb.
  destruct (SFcompare (Prim2SF x) (Prim2SF y)) as [[]|]; split;
    try congruence; try (intros [o [? ?]]; congruence); intros _; eauto.
Qed.

Lemma ltb_irrefl x : PrimFloat.ltb x x = false.
Proof.
  apply not_true_iff_false. rewrite ltb_Lt. apply SFcompare_lt_irrefl.
Qed.

Lemma ltb_trans x y z :
  PrimFloat.ltb x y = true → PrimFloat.ltb y z = true → PrimFloat.ltb x z = true.
Proof. rewrite !ltb_Lt. apply SFcompare_lt_trans. Qed.

Lemma ltb_leb_trans x y z :
  PrimFloat.ltb x y = true → PrimFloat.leb y z = true → PrimFloat.ltb x z = true.
Proof.
  rewrite !ltb_Lt, leb_Le. intros Hxy (o & Hyz & Ho).
  eapply SFcompare_lt_le_trans; eauto.
Qed.

Lemma ltb_not_leb x y : PrimFloat.ltb x y = true → PrimFloat.leb y x = false.
Proof.
  intros Hxy. apply not_true_iff_false. intros Hyx.
  pose proof (ltb_leb_trans _ _ _ Hxy Hyx) as Hxx.
  by rewrite ltb_irrefl in Hxx.
Qed.

Lemma ltb_leb_refl x y : PrimFloat.ltb x y = true → PrimFloat.leb y y = true.
Proof.
  rewrite ltb_Lt, leb_Le. intros Hxy. exists Eq. split; [|done].
  eapply SFcompare_self; eauto.
Qed.

End FloatOrder.

(** ** Bytes as binary64 values *)

Section Bytes.

Lemma elem_of_byte_values v : 0 <= v <= 255 → v ∈ byte_values.
Proof.
  intros Hv. unfold byte_values. apply list_elem_of_fmap.
  exists (Z.to_nat v). split; [lia|]. apply elem_of_seq. lia.
Qed.

Lemma elem_of_byte_numbers v : 0 <= v <= 255 → In (JS.ofZ v) byte_numbers.
Proof.
  intros Hv. change byte_numbers with (JS.ofZ <$> byte_values).
  apply list_elem_of_In, list_elem_of_fmap. exists v. split; [done|].
  by apply elem_of_byte_values.
Qed.

Lemma byte_check_all : forallb byte_check byte_values = true.
Proof. vm_compute. reflexivity. Qed.

Lemma byte_check_true v : 0 <= v <= 255 → byte_check v = true.
Proof.
  intros Hv. pose proof byte_check_all as Hall.
  rewrite forallb_forall in Hall. apply Hall.
  by apply list_elem_of_In, elem_of_byte_values.
Qed.

Lemma ToUint8Clamp_byte v : 0 <= v <= 255 → JS.ToUint8Clamp (JS.ofZ v) = v.
Proof.
  intros Hv. pose proof (byte_check_true v Hv) as Hc. unfold byte_check in Hc.
  apply andb_true_iff in Hc as [Hc _]. apply andb_true_iff in Hc as [Hc _]. lia.
Qed.

Lemma gray_of_same v : 0 <= v <= 255 → gray_of v v v = v.
Proof.
  intros Hv. pose proof (byte_check_true v Hv) as Hc. unfold byte_check in Hc.
  apply andb_true_iff in Hc as [Hc _]. apply andb_true_iff in Hc as [_ Hc]. lia.
Qed.

Lemma ofZ_eqb_zero v : 0 <= v <= 255 → PrimFloat.eqb (JS.ofZ v) 0 = true → v = 0.
Proof.
  intros Hv Hz. pose proof (byte_check_true v Hv) as Hc. unfold byte_check in Hc.
  apply andb_true_iff in Hc as [_ Hc]. rewrite Hz in Hc.
  destruct (Z.eqb_spec v 0); done.
Qed.

Lemma ToUint8Clamp_range x : 0 <= JS.ToUint8Clamp x <= 255.
Proof.
  unfold JS.ToUint8Clamp.
  destruct (Prim2SF x) as [s|s| |s m e]; try lia.
  - destruct s; lia.
  - destruct s; [lia|]. destruct (0 <=? e) eqn:He.
    + assert (0 <= Z.pos m * 2 ^ e) by (apply Z.mul_nonneg_nonneg; lia). lia.
    + assert (0 <= Z.shiftr (Z.pos m) (- e)) by (apply Z.shiftr_nonneg; lia).
      repeat match goal with |- context [if ?c then _ else _] => destruct c end; lia.
Qed.

Lemma luminance_check_true :
  forallb (λ r, forallb (λ g, forallb (λ b, luminance_in_range r g b)
                                byte_numbers) byte_numbers) byte_numbers = true.
Proof. vm_compute. reflexivity. Qed.

Lemma luminance_range r g b :
  0 <= r <= 255 → 0 <= g <= 255 → 0 <= b <= 255 →
  let x := luminance (JS.ofZ r) (JS.ofZ g) (JS.ofZ b) in
  PrimFloat.leb x 255.25 = true ∧
  (PrimFloat.ltb 0 x = true ∨ (r = 0 ∧ g = 0 ∧ b = 0)).
Proof.
  intros Hr Hg Hb x.
  pose proof luminance_check_true as Hall.
  rewrite forallb_forall in Hall.
  specialize (Hall _ (elem_of_byte_numbers r Hr)). rewrite forallb_forall in Hall.
  specialize (Hall _ (elem_of_byte_numbers g Hg)). rewrite forallb_forall in Hall.
  specialize (Hall _ (elem_of_byte_numbers b Hb)).
  unfold luminance_in_range in Hall. fold x in Hall.
  apply andb_true_iff in Hall as [Hle Hpos]. split; [done|].
  apply orb_true_iff in Hpos as [Hpos|Hzero]; [by left|right].
  apply andb_true_iff in Hzero as [Hzero Hzb].
  apply andb_true_iff in Hzero as [Hzr Hzg].
  auto using ofZ_eqb_zero.
Qed.

End Bytes.

(** ** [Math.round] on the luminance range *)

Section Rounding.

Lemma digits2_pos_lt m : Z.pos m < 2 ^ Z.pos (digits2_pos m).
Proof.
  induction m as [m IH|m IH|]; cbn [digits2_pos].
  - rewrite Pos2Z.inj_succ, Z.pow_succ_r by lia. lia.
  - rewrite Pos2Z.inj_succ, Z.pow_succ_r by lia. lia.
  - done.
Qed.

Lemma valid_mantissa_lt m e :
  valid_binary (S754_finite false m e) = true → Z.pos m < 2 ^ 53.
Proof.
  unfold SpecFloat.valid_binary, bounded, canonical_mantissa, fexp.
  intros Hv. apply andb_true_iff in Hv as [Hc _]. apply Z.eqb_eq in Hc.
  pose proof (digits2_pos_lt m) as Hm.
  assert (Z.pos (digits2_pos m) <= 53) by (unfold prec in Hc; lia).
  eapply Z.lt_le_trans; [exact Hm|]. apply Z.pow_le_mono_r; lia.
Qed.

(** A positive number up to 255.25 rounds to a byte. *)
Lemma Math_round_byte x :
  PrimFloat.ltb 0 x = true → PrimFloat.leb x 255.25 = true →
  ∃ n, 0 <= n <= 255 ∧ JS.Math_round x = JS.ofZ n.
Proof.
  intros Hpos Hle. apply ltb_Lt in Hpos. apply leb_Le in Hle as (o & Hle & Ho).
  remember (Prim2SF 0) as z eqn:Ez. vm_compute in Ez. subst z.
  remember (Prim2SF 255.25) as c eqn:Ec. vm_compute in Ec. subst c.
  pose proof (Prim2SF_valid x) as Hvalid. unfold JS.Math_round.
  destruct (Prim2SF x) as [s|s| |s m e]; try (simpl in Hpos; congruence).
  - destruct s; simpl in Hpos, Hle; congruence.
  - destruct s; [simpl in Hpos; congruence|].
    apply valid_mantissa_lt in Hvalid. cbn [SFcompare] in Hle.
    assert (He : e < -45 ∨ (e = -45 ∧ Z.pos m <= 8980810975674368)).
    { revert Hle. destruct (Z.compare_spec e (-45)) as [Heq|?|?]; intros Hle;
        [right|by left|congruence].
      split; [exact Heq|].
      rewrite Pos.compare_cont_spec in Hle. cbn [Pos.switch_Eq] in Hle.
      rewrite Pos2Z.inj_compare in Hle.
      revert Hle. destruct (Z.compare_spec (Z.pos m) 8980810975674368); intros Hle;
        [lia|lia|simpl in Hle; congruence]. }
    replace (0 <=? e) with false by (symmetry; apply Z.leb_gt; lia).
    eexists. split; [|reflexivity].
    rewrite Z.shiftr_div_pow2 by lia.
    assert (0 < 2 ^ (- e)) by (apply Z.pow_pos_nonneg; lia).
    assert (0 < 2 ^ (- e - 1)) by (apply Z.pow_pos_nonneg; lia).
    split; [apply Z.div_pos; lia|].
    apply Z.lt_succ_r, Z.div_lt_upper_bound; [lia|].
    assert (Hk : 2 ^ (- e) = 2 * 2 ^ (- e - 1)).
    { rewrite <- Z.pow_succ_r by lia. f_equal. lia. }
    destruct He as [He|[-> Hm]].
    + assert (2 ^ 53 <= 2 ^ 7 * 2 ^ (- e)).
      { rewrite <- Z.pow_add_r by lia. apply Z.pow_le_mono_r; lia. }
      lia.
    + change (- -45) with 45 in *. lia.
Qed.

Lemma Prim2SF_mul_comm x y : (x * y)%float = (y * x)%float.
Proof.
  apply Prim2SF_inj. rewrite !mul_spec. unfold SF64mul, SFmul.
  destruct (Prim2SF x) as [[]|[]| |sx mx ex], (Prim2SF y) as [[]|[]| |sy my ey];
    try reflexivity; try (destruct sx; reflexivity); try (destruct sy; reflexivity).
  by rewrite xorb_comm, Pos.mul_comm, Z.add_comm.
Qed.

End Rounding.

(** ** Rounding of binary64 results

    What [binary_round_aux] does with a mantissa of 53 or 54 bits, the case
    of every quotient below. *)

Section Binary64.

Abbreviation b64_round := (binary_round_aux prec emax).

Lemma digits2_pos_ge m : 2 ^ (Z.pos (digits2_pos m) - 1) <= Z.pos m.
Proof.
  induction m as [m IH|m IH|]; cbn [digits2_pos].
  - rewrite Pos2Z.inj_succ. replace (Z.succ (Z.pos (digits2_pos m)) - 1)
      with (Z.succ (Z.pos (digits2_pos m) - 1)) by lia.
    rewrite Z.pow_succ_r by lia. lia.
  - rewrite Pos2Z.inj_succ. replace (Z.succ (Z.pos (digits2_pos m)) - 1)
      with (Z.succ (Z.pos (digits2_pos m) - 1)) by lia.
    rewrite Z.pow_succ_r by lia. lia.
  - done.
Qed.

Lemma digits2_pos_unique m k :
  2 ^ (k - 1) <= Z.pos m < 2 ^ k → Z.pos (digits2_pos m) = k.
Proof.
  intros [Hlo Hhi].
  pose proof (digits2_pos_lt m) as Hlt. pose proof (digits2_pos_ge m) as Hge.
  destruct (Z.lt_trichotomy (Z.pos (digits2_pos m)) k) as [Hc|[Hc|Hc]]; [|done|].
  - assert (2 ^ Z.pos (digits2_pos m) <= 2 ^ (k - 1)) by (apply Z.pow_le_mono_r; lia).
    lia.
  - assert (2 ^ k <= 2 ^ (Z.pos (digits2_pos m) - 1)) by (apply Z.pow_le_mono_r; lia).
    lia.
Qed.

Lemma shr_exponent mrs e n :
  shr mrs e n = (fst (shr mrs 0 n), e + snd (shr mrs 0 n)).
Proof. destruct n; simpl; f_equal; lia. Qed.

Lemma shr_1_m mrs : 0 <= shr_m mrs → shr_m (shr_1 mrs) = shr_m mrs / 2.
Proof.
  destruct mrs as [m r s]. cbn [shr_m]. intros Hm.
  destruct m as [|[p|p|]|p]; cbn [shr_1 shr_m]; [done| | |done|lia].
  - rewrite Pos2Z.inj_xI. apply (Z.div_unique _ _ _ 1); lia.
  - rewrite Pos2Z.inj_xO. apply (Z.div_unique _ _ _ 0); lia.
Qed.

Lemma round_nearest_even_bounds m l :
  m <= round_nearest_even m l <= m + 1.
Proof.
  destruct l as [|[]]; cbn [round_nearest_even]; try lia.
  destruct (Z.even m); lia.
Qed.

Lemma shr_record_of_loc_m m l : shr_m (shr_record_of_loc m l) = m.
Proof. by destruct l as [|[]]. Qed.

Lemma round_normal_range q l :
  2 ^ 52 <= q < 2 ^ 54 →
  2 ^ 52 <= fst (round_normal q l) < 2 ^ 53 ∧ 0 <= snd (round_normal q l) <= 2.
Proof.
  intros Hq. unfold round_normal.
  change (2 ^ 52) with 4503599627370496 in *.
  change (2 ^ 53) with 9007199254740992 in *.
  change (2 ^ 54) with 18014398509481984 in *.
  set (n := if q <? _ then 0 else 1).
  set (rec1 := fst (shr (shr_record_of_loc q l) 0 n)).
  assert (Hrec1 : 4503599627370496 <= shr_m rec1 < 9007199254740992).
  { subst rec1 n. destruct (Z.ltb_spec q 9007199254740992); cbn [shr fst iter_pos].
    - rewrite shr_record_of_loc_m. lia.
    - rewrite shr_1_m, shr_record_of_loc_m by (rewrite shr_record_of_loc_m; lia).
      split; [apply Z.div_le_lower_bound; lia|apply Z.div_lt_upper_bound; lia]. }
  pose proof (round_nearest_even_bounds (shr_m rec1) (loc_of_shr_record rec1)) as Hm1.
  set (m1 := round_nearest_even _ _) in *.
  cbn [fst snd].
  destruct (Z.ltb_spec m1 9007199254740992); cbn [shr fst iter_pos shr_record_of_loc].
  - cbn [shr_m]. subst n. destruct (q <? _); lia.
  - assert (m1 = 9007199254740992) by lia.
    rewrite shr_1_m by (cbn [shr_m]; lia). cbn [shr_m].
    replace m1 with 9007199254740992 by done.
    subst n. destruct (q <? _); split; try lia; vm_compute; done.
Qed.

Lemma Zdigits2_normal m :
  2 ^ 52 <= m < 2 ^ 54 → Zdigits2 m = if m <? 2 ^ 53 then 53 else 54.
Proof.
  intros Hm. destruct m as [|p|p]; try lia. cbn [Zdigits2].
  apply digits2_pos_unique. destruct (Z.ltb_spec (Z.pos p) (2 ^ 53)).
  - change (53 - 1) with 52. lia.
  - change (54 - 1) with 53. lia.
Qed.

Lemma shr_fexp_normal m e l :
  2 ^ 52 <= m < 2 ^ 54 → -1074 <= e →
  shr_fexp prec emax m e l =
  let n := if m <? 2 ^ 53 then 0 else 1 in
  (fst (shr (shr_record_of_loc m l) 0 n), e + n).
Proof.
  intros Hm He. unfold shr_fexp, fexp, emin, prec, emax.
  rewrite (Zdigits2_normal m Hm), shr_exponent.
  destruct (m <? 2 ^ 53).
  - replace (Z.max (53 + e - 53) (3 - 1024 - 53) - e) with 0 by lia. done.
  - replace (Z.max (54 + e - 53) (3 - 1024 - 53) - e) with 1 by lia. done.
Qed.

(** Rounding a mantissa of 53 or 54 bits never underflows and gives the
    same mantissa at every exponent. *)
Lemma b64_round_normal s q e l :
  2 ^ 52 <= q < 2 ^ 54 → -1074 <= e →
  b64_round s q e l =
  if e + snd (round_normal q l) <=? 971
  then S754_finite s (Z.to_pos (fst (round_normal q l))) (e + snd (round_normal q l))
  else S754_infinity s.
Proof.
  intros Hq He.
  pose proof (round_normal_range q l Hq) as [Hm Hk].
  unfold binary_round_aux. rewrite (shr_fexp_normal q e l Hq He). cbv zeta.
  unfold round_normal in *. cbn [fst snd] in *.
  set (n := if q <? 2 ^ 53 then 0 else 1) in *.
  set (rec1 := fst (shr (shr_record_of_loc q l) 0 n)) in *.
  set (m1 := round_nearest_even (shr_m rec1) (loc_of_shr_record rec1)) in *.
  assert (Hm1 : 2 ^ 52 <= m1 < 2 ^ 54).
  { destruct (Z.ltb_spec m1 (2 ^ 53)) as [Hlt|Hge]; cbn [shr fst iter_pos] in Hm.
    - rewrite shr_record_of_loc_m in Hm. lia.
    - cbn [shr_record_of_loc] in Hm. rewrite shr_1_m in Hm by (cbn [shr_m]; lia).
      cbn [shr_m] in Hm.
      assert (m1 < 2 * 2 ^ 53); [|change (2 ^ 54) with (2 * 2 ^ 53); lia].
      destruct (Z.lt_ge_cases m1 (2 * 2 ^ 53)) as [|Hbig]; [done|].
      assert (2 ^ 53 <= m1 / 2) by (apply Z.div_le_lower_bound; lia). lia. }
  assert (Hn : 0 <= n) by (subst n; destruct (q <? 2 ^ 53); lia).
  rewrite (shr_fexp_normal m1 (e + n) loc_Exact Hm1) by lia. cbv beta iota zeta.
  set (n2 := if m1 <? 2 ^ 53 then 0 else 1) in *.
  set (m2 := shr_m (fst (shr (shr_record_of_loc m1 loc_Exact) 0 n2))) in *.
  destruct m2 as [|p|p]; try lia.
  change (emax - prec) with 971. rewrite Z.add_assoc. done.
Qed.

End Binary64.

Section Binary64Division.

Lemma div_eucl_div_mod a b : Z.div_eucl a b = (a / b, a mod b).
Proof. unfold Z.div, Z.modulo. by destruct (Z.div_eucl a b). Qed.

Lemma pow2_split k : 0 < k → 2 ^ k = 2 * 2 ^ (k - 1).
Proof. intros Hk. rewrite <- Z.pow_succ_r by lia. f_equal. lia. Qed.

(** The quotient of two finite numbers, when the result is above the
    subnormal range: the integer quotient [q] of the aligned mantissas has
    53 or 54 bits and is rounded at exponent [e']. *)
Lemma SF64div_finite sx mx ex sy my ey :
  let d1 := Z.pos (digits2_pos mx) in
  let d2 := Z.pos (digits2_pos my) in
  let s := 53 + d2 - d1 in
  let q := Z.pos mx * 2 ^ s / Z.pos my in
  let r := (Z.pos mx * 2 ^ s) mod Z.pos my in
  let e' := ex - ey - s in
  d1 <= 53 → -1074 <= e' →
  2 ^ 52 <= q < 2 ^ 54 ∧
  SF64div (S754_finite sx mx ex) (S754_finite sy my ey)
  = binary_round_aux prec emax (xorb sx sy) q e' (new_location (Z.pos my) r).
Proof.
  intros d1 d2 s q r e' Hd1 He'.
  assert (Hd2 : 0 < d2) by (subst d2; lia).
  assert (Hs : 0 < s) by (subst s; lia).
  split.
  - pose proof (digits2_pos_lt mx) as Hx1. pose proof (digits2_pos_ge mx) as Hx2.
    pose proof (digits2_pos_lt my) as Hy1. pose proof (digits2_pos_ge my) as Hy2.
    fold d1 in Hx1, Hx2. fold d2 in Hy1, Hy2.
    assert (HT : 2 ^ s * 2 ^ (d1 - 1) = 2 ^ 53 * 2 ^ (d2 - 1)).
    { rewrite <- !Z.pow_add_r by lia. f_equal. subst s. lia. }
    rewrite (pow2_split d1) in Hx1 by lia. rewrite (pow2_split d2) in Hy1 by lia.
    assert (0 < 2 ^ s) by (apply Z.pow_pos_nonneg; lia).
    assert (0 < 2 ^ (d1 - 1)) by (apply Z.pow_pos_nonneg; lia).
    assert (0 < 2 ^ (d2 - 1)) by (apply Z.pow_pos_nonneg; lia).
    change (2 ^ 52) with 4503599627370496.
    change (2 ^ 54) with 18014398509481984.
    change (2 ^ 53) with 9007199254740992 in HT.
    subst q. split.
    + apply Z.div_le_lower_bound; [lia|]. nia.
    + apply Z.div_lt_upper_bound; [lia|]. nia.
  - unfold SF64div, SFdiv, SFdiv_core_binary. cbn [Zdigits2].
    fold d1 d2. unfold fexp, emin, prec, emax.
    replace (Z.min (Z.max (d1 + ex - (d2 + ey) - 53) (3 - 1024 - 53)) (ex - ey))
      with e' by (subst e' s; lia).
    replace (ex - ey - e') with s by (subst e'; lia).
    replace (match s with
             | 0 => Z.pos mx
             | Z.pos _ => Z.shiftl (Z.pos mx) s
             | Z.neg _ => 0
             end) with (Z.pos mx * 2 ^ s).
    2:{ rewrite <- Z.shiftl_mul_pow2 by lia. destruct s; try lia; done. }
    rewrite div_eucl_div_mod. done.
Qed.

End Binary64Division.

Section Binary64Quotients.

Lemma valid_binary_finite s m e :
  valid_binary (S754_finite s m e) = true →
  Z.pos (digits2_pos m) <= 53 ∧ -1074 <= e <= 971 ∧
  (-1074 < e → Z.pos (digits2_pos m) = 53).
Proof.
  unfold SpecFloat.valid_binary, bounded, canonical_mantissa, fexp, emin, prec, emax.
  intros Hv. apply andb_true_iff in Hv as [Hc He].
  apply Z.eqb_eq in Hc. apply Z.leb_le in He. lia.
Qed.

(** Dividing such a number by a positive finite number gives a positive
    number (or +infinity): the quotient does not underflow to zero. *)
Lemma quotient_positive d s :
  normal_from_8 d = true →
  PrimFloat.ltb 0 s = true → PrimFloat.ltb s infinity = true →
  PrimFloat.ltb 0 (d / s) = true.
Proof.
  unfold normal_from_8. intros Hd Hpos Hfin.
  apply ltb_Lt in Hpos. apply ltb_Lt in Hfin. apply ltb_Lt.
  rewrite div_spec.
  remember (Prim2SF 0) as z eqn:Ez. vm_compute in Ez. subst z.
  remember (Prim2SF infinity) as i eqn:Ei. vm_compute in Ei. subst i.
  pose proof (Prim2SF_valid s) as Hvs.
  destruct (Prim2SF d) as [| | |[] md ed]; try done.
  apply andb_true_iff in Hd as [Hd1 Hed].
  apply Z.eqb_eq in Hd1. apply Z.leb_le in Hed.
  destruct (Prim2SF s) as [[]|[]| |[] ms es]; try done.
  apply valid_binary_finite in Hvs as (Hd2 & Hes & _).
  destruct (SF64div_finite false md ed false ms es) as [Hq ->]; [lia|lia|].
  rewrite b64_round_normal by (done || lia).
  by destruct (_ <=? 971).
Qed.

End Binary64Quotients.

Section Binary64Doubling.

Lemma moderate_spec x :
  moderate x = true →
  ∃ m e, Prim2SF x = S754_finite false m e ∧
         2 ^ 52 <= Z.pos m < 2 ^ 53 ∧ -552 <= e <= 448.
Proof.
  unfold moderate. intros Hx. apply andb_true_iff in Hx as [Hlo Hhi].
  apply leb_Le in Hlo as (o1 & Hlo & Ho1). apply leb_Le in Hhi as (o2 & Hhi & Ho2).
  remember (Prim2SF 0x1p-500) as lo eqn:Elo. vm_compute in Elo. subst lo.
  remember (Prim2SF 0x1p+500) as hi eqn:Ehi. vm_compute in Ehi. subst hi.
  pose proof (Prim2SF_valid x) as Hv.
  destruct (Prim2SF x) as [[]|[]| |[] m e]; cbn [SFcompare] in Hlo, Hhi; try congruence.
  apply valid_binary_finite in Hv as (Hd & He & Hnormal).
  assert (He1 : -552 <= e).
  { revert Hlo. destruct (Z.compare_spec (-552) e); intros Hlo; try lia. congruence. }
  assert (He2 : e <= 448).
  { revert Hhi. destruct (Z.compare_spec e 448); intros Hhi; try lia. congruence. }
  exists m, e. split; [done|]. split; [|lia].
  pose proof (digits2_pos_lt m) as Hlt. pose proof (digits2_pos_ge m) as Hge.
  rewrite Hnormal in Hlt, Hge by lia. change (53 - 1) with 52 in Hge. lia.
Qed.

Lemma digits_53 m : 2 ^ 52 <= Z.pos m < 2 ^ 53 → Z.pos (digits2_pos m) = 53.
Proof. intros Hm. apply digits2_pos_unique. change (53 - 1) with 52. lia. Qed.

(** Multiplying a normal number by 2 adds one to its exponent. *)
Lemma SF64mul_2 m e :
  2 ^ 52 <= Z.pos m < 2 ^ 53 → -1074 <= e → e + 1 <= 971 →
  SF64mul (Prim2SF 2) (S754_finite false m e) = S754_finite false m (e + 1).
Proof.
  intros Hm He1 He2.
  remember (Prim2SF 2) as two eqn:E2. vm_compute in E2. subst two.
  unfold SF64mul, SFmul. cbn [xorb].
  assert (Hmul : (4503599627370496 * m)%positive = Pos.iter xO m 52) by reflexivity.
  unfold binary_round_aux, shr_fexp, fexp, emin, prec, emax. cbn [Zdigits2].
  assert (Hbig : Z.pos (digits2_pos (4503599627370496 * m)) = 105).
  { apply digits2_pos_unique. rewrite Pos2Z.inj_mul.
    change (2 ^ (105 - 1)) with (4503599627370496 * 2 ^ 52).
    change (2 ^ 105) with (4503599627370496 * 2 ^ 53). lia. }
  rewrite Hbig.
  replace (Z.max (105 + (-51 + e) - 53) (3 - 1024 - 53) - (-51 + e)) with 52 by lia.
  rewrite Hmul.
  assert (Hshift : SpecFloat.iter_pos shr_1 52
                     (Build_shr_record (Z.pos (Pos.iter xO m 52)) false false)
                   = Build_shr_record (Z.pos m) false false) by reflexivity.
  cbn [shr shr_record_of_loc]. rewrite Hshift.
  cbn [shr_m loc_of_shr_record round_nearest_even Zdigits2].
  rewrite (digits_53 m Hm).
  replace (Z.max (53 + (-51 + e + 52) - 53) (3 - 1024 - 53) - (-51 + e + 52)) with 0
    by lia.
  cbn [shr shr_m].
  replace (-51 + e + 52 <=? 1024 - 53) with true by (symmetry; apply Z.leb_le; lia).
  f_equal. lia.
Qed.

(** Dividing a normal number by 2 subtracts one from its exponent. *)
Lemma SF64div_2 m e :
  2 ^ 52 <= Z.pos m < 2 ^ 53 → -1072 <= e <= 971 →
  SF64div (S754_finite false m e) (Prim2SF 2) = S754_finite false m (e - 1).
Proof.
  intros Hm He.
  remember (Prim2SF 2) as two eqn:E2. vm_compute in E2. subst two.
  destruct (SF64div_finite false m e false 4503599627370496 (-51)) as [Hq ->].
  { rewrite (digits_53 m Hm). lia. }
  { rewrite (digits_53 m Hm). change (Z.pos (digits2_pos 4503599627370496)) with 53. lia. }
  rewrite (digits_53 m Hm) in *.
  change (Z.pos (digits2_pos 4503599627370496)) with 53 in *.
  change (53 + 53 - 53) with 53 in *.
  assert (Hquot : Z.pos m * 2 ^ 53 / 4503599627370496 = Z.pos m~0).
  { symmetry. apply (Z.div_unique _ _ _ 0); [lia|].
    change (2 ^ 53) with (2 * 4503599627370496). lia. }
  assert (Hrem : (Z.pos m * 2 ^ 53) mod 4503599627370496 = 0).
  { symmetry. apply (Z.mod_unique _ _ (Z.pos m~0)); [lia|].
    change (2 ^ 53) with (2 * 4503599627370496). lia. }
  rewrite Hquot, Hrem in *.
  rewrite b64_round_normal by (done || lia).
  assert (Hround : round_normal (Z.pos m~0) (new_location 4503599627370496 0)
                   = (Z.pos m, 1)).
  { unfold round_normal.
    replace (Z.pos m~0 <? 2 ^ 53) with false by (symmetry; apply Z.ltb_ge; lia).
    cbn [new_location new_location_even Z.even Z.eqb shr shr_record_of_loc
         SpecFloat.iter_pos shr_1 orb fst shr_m loc_of_shr_record round_nearest_even].
    replace (Z.pos m <? 2 ^ 53) with true by (symmetry; apply Z.ltb_lt; lia).
    done. }
  rewrite Hround. cbn [fst snd Z.to_pos xorb].
  replace (e - -51 - 53 + 1 <=? 971) with true by (symmetry; apply Z.leb_le; lia).
  f_equal. lia.
Qed.

(** Doubling the divisor halves the quotient, exactly. *)
Lemma quotient_doubling d s :
  moderate d = true → moderate s = true →
  (d / (2 * s))%float = (d / s / 2)%float.
Proof.
  intros Hd Hs.
  destruct (moderate_spec d Hd) as (md & ed & HD & Hmd & Hed).
  destruct (moderate_spec s Hs) as (ms & es & HS & Hms & Hes).
  apply Prim2SF_inj. rewrite !div_spec, mul_spec, HD, HS.
  rewrite (SF64mul_2 ms es) by (done || lia).
  destruct (SF64div_finite false md ed false ms es) as [Hq ->];
    [rewrite (digits_53 md Hmd); lia|rewrite (digits_53 md Hmd), (digits_53 ms Hms); lia|].
  destruct (SF64div_finite false md ed false ms (es + 1)) as [_ ->];
    [rewrite (digits_53 md Hmd); lia|rewrite (digits_53 md Hmd), (digits_53 ms Hms); lia|].
  rewrite (digits_53 md Hmd), (digits_53 ms Hms) in *.
  set (q := Z.pos md * 2 ^ (53 + 53 - 53) / Z.pos ms) in *.
  set (l := new_location (Z.pos ms) _).
  destruct (round_normal_range q l Hq) as [Hm Hk].
  rewrite !b64_round_normal by (done || lia).
  replace (ed - es - (53 + 53 - 53) + snd (round_normal q l) <=? 971) with true
    by (symmetry; apply Z.leb_le; lia).
  replace (ed - (es + 1) - (53 + 53 - 53) + snd (round_normal q l) <=? 971) with true
    by (symmetry; apply Z.leb_le; lia).
  rewrite SF64div_2.
  - f_equal. lia.
  - rewrite Z2Pos.id by lia. done.
  - lia.
Qed.

End Binary64Doubling.

(** ** Sums, products and differences of binary64 values *)

Section Binary64General.

(** [n] right shifts of a non-negative mantissa divide it by [2^n]. *)
Lemma iter_shr_1_m p : ∀ mrs,
  0 <= shr_m mrs →
  shr_m (SpecFloat.iter_pos shr_1 p mrs) = shr_m mrs / 2 ^ Z.pos p.
Proof.
  induction p as [p IH|p IH|]; intros mrs Hm; cbn [SpecFloat.iter_pos].
  - assert (H1 : 0 <= shr_m (shr_1 mrs)).
    { rewrite shr_1_m by done. apply Z.div_pos; lia. }
    assert (H2 : 0 <= shr_m (SpecFloat.iter_pos shr_1 p (shr_1 mrs))).
    { rewrite IH by done. apply Z.div_pos; [done|]. apply Z.pow_pos_nonneg; lia. }
    rewrite IH, IH, shr_1_m by done.
    assert (0 < 2 ^ Z.pos p) by (apply Z.pow_pos_nonneg; lia).
    rewrite !Z.div_div by lia. f_equal.
    replace (Z.pos p~1) with (Z.succ (Z.pos p + Z.pos p)) by lia.
    rewrite Z.pow_succ_r, Z.pow_add_r by lia. lia.
  - assert (H2 : 0 <= shr_m (SpecFloat.iter_pos shr_1 p mrs)).
    { rewrite IH by done. apply Z.div_pos; [done|]. apply Z.pow_pos_nonneg; lia. }
    rewrite IH, IH by done.
    assert (0 < 2 ^ Z.pos p) by (apply Z.pow_pos_nonneg; lia).
    rewrite !Z.div_div by lia. f_equal.
    replace (Z.pos p~0) with (Z.pos p + Z.pos p) by lia.
    rewrite Z.pow_add_r by lia. lia.
  - rewrite shr_1_m by done. done.
Qed.

Lemma shr_record_of_loc_of mrs :
  shr_record_of_loc (shr_m mrs) (loc_of_shr_record mrs) = mrs.
Proof. by destruct mrs as [m [] []]. Qed.

Lemma pow2_pos k : 0 <= k → 0 < 2 ^ k.
Proof. intros. apply Z.pow_pos_nonneg; lia. Qed.

(** The first rounding step on a mantissa of at least 53 bits brings it to
    53 bits. *)
Lemma shr_fexp_large m e l :
  2 ^ 52 <= m → -1074 <= e →
  ∃ mrs n,
    shr_fexp prec emax m e l = (mrs, e + n) ∧ 0 <= n ∧
    2 ^ 52 <= shr_m mrs < 2 ^ 53.
Proof.
  intros Hm He. destruct m as [|p|p]; try lia.
  pose proof (digits2_pos_lt p) as Hlt. pose proof (digits2_pos_ge p) as Hge.
  set (d := Z.pos (digits2_pos p)) in *.
  assert (Hd : 53 <= d).
  { destruct (Z.lt_ge_cases d 53) as [Hsmall|]; [|done].
    assert (2 ^ d <= 2 ^ 52) by (apply Z.pow_le_mono_r; lia). lia. }
  unfold shr_fexp, fexp, emin, prec, emax. cbn [Zdigits2]. fold d.
  replace (Z.max (d + e - 53) (3 - 1024 - 53) - e) with (d - 53) by lia.
  destruct (Z.eq_dec d 53) as [Hd53|Hne].
  - rewrite Hd53 in *. change (53 - 53) with 0. cbn [shr].
    exists (shr_record_of_loc (Z.pos p) l), 0.
    rewrite shr_record_of_loc_m, Z.add_0_r. change (53 - 1) with 52 in Hge. done.
  - destruct (d - 53) as [|n|n] eqn:Hn; try lia. cbn [shr].
    exists (SpecFloat.iter_pos shr_1 n (shr_record_of_loc (Z.pos p) l)), (Z.pos n).
    split; [done|]. split; [lia|].
    rewrite iter_shr_1_m by (rewrite shr_record_of_loc_m; lia).
    rewrite shr_record_of_loc_m.
    assert (Hsplit : 2 ^ d = 2 ^ 53 * 2 ^ Z.pos n).
    { rewrite <- Z.pow_add_r by lia. f_equal. lia. }
    assert (Hsplit' : 2 ^ (d - 1) = 2 ^ 52 * 2 ^ Z.pos n).
    { rewrite <- Z.pow_add_r by lia. f_equal. lia. }
    pose proof (pow2_pos (Z.pos n) ltac:(lia)).
    split.
    + apply Z.div_le_lower_bound; lia.
    + apply Z.div_lt_upper_bound; lia.
Qed.

(** Rounding a mantissa of at least 53 bits, at an exponent of at least
    -1074: the result is normal with the same sign and an exponent that is
    not smaller, or it is the infinity of that sign. *)
Lemma b64_round_large s m e l :
  2 ^ 52 <= m → -1074 <= e →
  (∃ m' e', binary_round_aux prec emax s m e l = S754_finite s m' e' ∧
            2 ^ 52 <= Z.pos m' < 2 ^ 53 ∧ e <= e')
  ∨ binary_round_aux prec emax s m e l = S754_infinity s.
Proof.
  intros Hm He.
  destruct (shr_fexp_large m e l Hm He) as (mrs & n & Hshr & Hn & Hmrs).
  assert (Heq : binary_round_aux prec emax s m e l
                = binary_round_aux prec emax s (shr_m mrs) (e + n) (loc_of_shr_record mrs)).
  { unfold binary_round_aux. rewrite Hshr.
    rewrite (shr_fexp_normal (shr_m mrs)) by lia.
    replace (shr_m mrs <? 2 ^ 53) with true by (symmetry; apply Z.ltb_lt; lia).
    cbv zeta. cbn [shr fst]. by rewrite shr_record_of_loc_of, Z.add_0_r. }
  rewrite Heq, b64_round_normal by lia.
  destruct (round_normal_range (shr_m mrs) (loc_of_shr_record mrs)) as [Hm' Hk]; [lia|].
  destruct (_ <=? 971); [left|by right].
  eexists _, _. split; [reflexivity|]. rewrite Z2Pos.id by lia. split; [done|lia].
Qed.

End Binary64General.

Section Binary64Products.

Lemma normal_above_weaken s L L' x :
  L' <= L → normal_above s L x → normal_above s L' x.
Proof.
  intros HL [(m & e & -> & Hm & He)| -> ]; [left|by right].
  exists m, e. split; [done|]. split; [done|lia].
Qed.

(** The product of two such numbers is one of them: it does not vanish and
    its sign is the product of the signs. *)
Lemma SF64mul_normal_above s1 s2 L1 L2 x y :
  normal_above s1 L1 x → normal_above s2 L2 y → -1074 <= L1 + L2 →
  normal_above (xorb s1 s2) (L1 + L2) (SF64mul x y).
Proof.
  intros [(mx & ex & -> & Hmx & Hex)| -> ] [(my & ey & -> & Hmy & Hey)| -> ] HL;
    [|by right|by right|by right].
  unfold SF64mul, SFmul.
  destruct (b64_round_large (xorb s1 s2) (Z.pos (mx * my)) (ex + ey) loc_Exact)
    as [(m & e & -> & Hm & He)| -> ]; [| |left|by right].
  - rewrite Pos2Z.inj_mul. change (2 ^ 52) with 4503599627370496 in *. nia.
  - lia.
  - exists m, e. split; [done|]. split; [done|lia].
Qed.

Lemma normal_above_positive L x :
  normal_above false L x → SFltb (S754_zero false) x = true.
Proof. by intros [(m & e & -> & _)| -> ]. Qed.

End Binary64Products.

Section Binary64Integers.

Lemma pos_iter_xO d : ∀ m, Z.pos (Pos.iter xO m d) = Z.pos m * 2 ^ Z.pos d.
Proof.
  induction d as [|d IH] using Pos.peano_ind; intros m.
  - cbn [Pos.iter]. lia.
  - rewrite Pos.iter_succ, Pos2Z.inj_xO, IH, Pos2Z.inj_succ, Z.pow_succ_r by lia. lia.
Qed.

(** Aligning a mantissa to a smaller exponent multiplies it by the power of
    2 between the two. *)
Lemma shl_align_spec m e e' :
  e' <= e →
  Z.pos (fst (shl_align m e e')) = Z.pos m * 2 ^ (e - e') ∧
  snd (shl_align m e e') = e'.
Proof.
  intros He. unfold shl_align. destruct (e' - e) as [|d|d] eqn:Hd; try lia.
  - replace (e - e') with 0 by lia. cbn [fst snd]. lia.
  - cbn [fst snd]. rewrite pos_iter_xO. replace (e - e') with (Z.pos d) by lia. done.
Qed.

Lemma shl_align_id m e e' : e <= e' → shl_align m e e' = (m, e).
Proof. intros He. unfold shl_align. destruct (e' - e) eqn:Hd; try lia; done. Qed.

(** Rounding an integer mantissa: the result is normal, of the same sign. *)
Lemma binary_round_normal_above s m e :
  -1022 <= e → normal_above s (e - 52) (binary_round prec emax s m e).
Proof.
  intros He. unfold binary_round.
  pose proof (digits2_pos_lt m) as Hlt. pose proof (digits2_pos_ge m) as Hge.
  set (d := Z.pos (digits2_pos m)) in *.
  assert (Hd : 0 < d) by (subst d; lia).
  assert (Hf : fexp prec emax (d + e) = d + e - 53)
    by (unfold fexp, emin, prec, emax; lia).
  rewrite Hf.
  destruct (Z.le_gt_cases 53 d) as [Hbig|Hsmall].
  - rewrite shl_align_id by lia.
    assert (2 ^ 52 <= 2 ^ (d - 1)) by (apply Z.pow_le_mono_r; lia).
    destruct (b64_round_large s (Z.pos m) e loc_Exact)
      as [(m' & e' & -> & Hm' & He')| -> ]; [lia|lia|left|by right].
    exists m', e'. split; [done|]. split; [done|lia].
  - destruct (shl_align_spec m e (d + e - 53)) as [Hm He']; [lia|].
    destruct (shl_align m e (d + e - 53)) as [mz ez]. cbn [fst snd] in Hm, He'.
    subst ez. replace (e - (d + e - 53)) with (53 - d) in Hm by lia.
    assert (Hp1 : 2 ^ 52 = 2 ^ (d - 1) * 2 ^ (53 - d)).
    { rewrite <- Z.pow_add_r by lia. f_equal. lia. }
    assert (Hp2 : 2 ^ 53 = 2 ^ d * 2 ^ (53 - d)).
    { rewrite <- Z.pow_add_r by lia. f_equal. lia. }
    assert (0 < 2 ^ (53 - d)) by (apply Z.pow_pos_nonneg; lia).
    assert (Hmz : 2 ^ 52 <= Z.pos mz < 2 ^ 53).
    { rewrite Hm, Hp1, Hp2. split; [apply Z.mul_le_mono_nonneg_r; lia|].
      apply Z.mul_lt_mono_pos_r; lia. }
    destruct (b64_round_large s (Z.pos mz) (d + e - 53) loc_Exact)
      as [(m' & e' & -> & Hm' & He'')| -> ]; [lia|lia|left|by right].
    exists m', e'. split; [done|]. split; [done|lia].
Qed.

End Binary64Integers.

Section Binary64Values.

Lemma round_normal_exact q :
  2 ^ 52 <= q < 2 ^ 53 → round_normal q loc_Exact = (q, 0).
Proof.
  intros Hq. unfold round_normal.
  replace (q <? 2 ^ 53) with true by (symmetry; apply Z.ltb_lt; lia).
  cbn [shr fst shr_record_of_loc shr_m loc_of_shr_record round_nearest_even].
  replace (q <? 2 ^ 53) with true by (symmetry; apply Z.ltb_lt; lia).
  done.
Qed.

(** An integer below 2^53 is represented exactly. *)
Lemma ofZ_spec n :
  0 < n < 2 ^ 53 →
  ∃ m e, Prim2SF (JS.ofZ n) = S754_finite false m e ∧
         2 ^ 52 <= Z.pos m < 2 ^ 53 ∧ -52 <= e <= 0 ∧
         Z.pos m = n * 2 ^ (- e).
Proof.
  intros Hn. unfold JS.ofZ.
  replace (n <? 0) with false by (symmetry; apply Z.ltb_ge; lia).
  rewrite of_uint63_spec, Uint63.of_Z_spec, Z.mod_small.
  2:{ change Uint63.wB with (2 ^ 53 * 1024). lia. }
  destruct n as [|p|p]; try lia. cbn [binary_normalize]. unfold binary_round.
  pose proof (digits2_pos_lt p) as Hlt. pose proof (digits2_pos_ge p) as Hge.
  set (d := Z.pos (digits2_pos p)) in *.
  assert (Hd : 0 < d <= 53).
  { split; [subst d; lia|].
    destruct (Z.le_gt_cases d 53) as [|Hbig]; [done|].
    assert (2 ^ 53 <= 2 ^ (d - 1)) by (apply Z.pow_le_mono_r; lia). lia. }
  assert (Hf : fexp prec emax (d + 0) = d - 53)
    by (unfold fexp, emin, prec, emax; lia).
  rewrite Hf.
  destruct (shl_align_spec p 0 (d - 53)) as [Hm He]; [lia|].
  destruct (shl_align p 0 (d - 53)) as [mz ez]. cbn [fst snd] in Hm, He.
  subst ez. replace (0 - (d - 53)) with (53 - d) in Hm by lia.
  assert (Hp1 : 2 ^ 52 = 2 ^ (d - 1) * 2 ^ (53 - d)).
  { rewrite <- Z.pow_add_r by lia. f_equal. lia. }
  assert (Hp2 : 2 ^ 53 = 2 ^ d * 2 ^ (53 - d)).
  { rewrite <- Z.pow_add_r by lia. f_equal. lia. }
  assert (0 < 2 ^ (53 - d)) by (apply Z.pow_pos_nonneg; lia).
  assert (Hmz : 2 ^ 52 <= Z.pos mz < 2 ^ 53).
  { rewrite Hm, Hp1, Hp2. split; [apply Z.mul_le_mono_nonneg_r; lia|].
    apply Z.mul_lt_mono_pos_r; lia. }
  rewrite b64_round_normal, round_normal_exact by lia. cbn [fst snd].
  replace (d - 53 + 0 <=? 971) with true by (symmetry; apply Z.leb_le; lia).
  exists mz, (d - 53). rewrite Z.add_0_r, Pos2Z.id. split; [done|].
  split; [done|]. split; [lia|]. rewrite Hm. f_equal. f_equal. lia.
Qed.

(** What rounding does to the value of a mantissa of 53 or 54 bits. *)
Lemma round_normal_value q l :
  2 ^ 52 <= q < 2 ^ 54 →
  q - 1 <= fst (round_normal q l) * 2 ^ snd (round_normal q l) <= q + 2.
Proof.
  intros Hq. unfold round_normal.
  change (2 ^ 52) with 4503599627370496 in *.
  change (2 ^ 53) with 9007199254740992 in *.
  change (2 ^ 54) with 18014398509481984 in *.
  set (n := if q <? _ then 0 else 1).
  set (rec1 := fst (shr (shr_record_of_loc q l) 0 n)).
  assert (Hrec1 : 4503599627370496 <= shr_m rec1 < 9007199254740992 ∧
                  q - 1 <= shr_m rec1 * 2 ^ n <= q).
  { subst rec1 n. destruct (Z.ltb_spec q 9007199254740992); cbn [shr fst iter_pos].
    - rewrite shr_record_of_loc_m. lia.
    - rewrite shr_1_m, shr_record_of_loc_m by (rewrite shr_record_of_loc_m; lia).
      pose proof (Z.div_mod q 2 ltac:(lia)). pose proof (Z.mod_pos_bound q 2 ltac:(lia)).
      change (2 ^ 1) with 2. lia. }
  destruct Hrec1 as [Hrec1 Hval].
  pose proof (round_nearest_even_bounds (shr_m rec1) (loc_of_shr_record rec1)) as Hm1.
  set (m1 := round_nearest_even _ _) in *.
  cbn [fst snd].
  assert (Hn : n = 0 ∨ n = 1) by (subst n; destruct (q <? _); lia).
  destruct (Z.ltb_spec m1 9007199254740992); cbn [shr fst iter_pos shr_record_of_loc].
  - cbn [shr_m]. rewrite Z.add_0_r.
    destruct Hn as [-> | ->]; [change (2 ^ 0) with 1 in *|change (2 ^ 1) with 2 in *]; lia.
  - assert (Hm1' : m1 = 9007199254740992) by lia.
    rewrite shr_1_m by (cbn [shr_m]; lia). cbn [shr_m].
    rewrite Hm1' in *. change (9007199254740992 / 2) with 4503599627370496.
    destruct Hn as [-> | ->];
      [change (2 ^ (0 + 1)) with 2; change (2 ^ 0) with 1 in *
      |change (2 ^ (1 + 1)) with 4; change (2 ^ 1) with 2 in *]; lia.
Qed.

End Binary64Values.

Section Binary64Means.

(** The mean of a class: the quotient of two integers below 2^53 whose
    exact ratio is between [lo] and [hi].  The computed quotient is normal
    and, scaled by 2^200, within 2^156 of that range. *)
Lemma quotient_bounds n1 n2 lo hi :
  0 < n1 < 2 ^ 53 → 0 < n2 < 2 ^ 53 →
  lo * n2 <= n1 <= hi * n2 → hi <= 255 →
  ∃ m e, Prim2SF (JS.ofZ n1 / JS.ofZ n2) = S754_finite false m e ∧
         2 ^ 52 <= Z.pos m < 2 ^ 53 ∧ -105 <= e <= -43 ∧
         lo * 2 ^ 200 - 2 ^ 156 <= Z.pos m * 2 ^ (e + 200) <= hi * 2 ^ 200 + 2 ^ 156.
Proof.
  intros Hn1 Hn2 Hratio Hhi.
  destruct (ofZ_spec n1 Hn1) as (md & ed & HD & Hmd & Hed & Hvd).
  destruct (ofZ_spec n2 Hn2) as (ms & es & HS & Hms & Hes & Hvs).
  rewrite div_spec, HD, HS.
  destruct (SF64div_finite false md ed false ms es) as [Hq ->];
    [rewrite (digits_53 md Hmd); lia
    |rewrite (digits_53 md Hmd), (digits_53 ms Hms); lia|].
  rewrite (digits_53 md Hmd), (digits_53 ms Hms) in *.
  replace (53 + 53 - 53) with 53 in * by lia.
  set (q := Z.pos md * 2 ^ 53 / Z.pos ms) in *.
  set (l := new_location (Z.pos ms) _).
  destruct (round_normal_range q l Hq) as [Hm Hk].
  pose proof (round_normal_value q l Hq) as Hval.
  rewrite b64_round_normal by (done || lia).
  replace (ed - es - 53 + snd (round_normal q l) <=? 971) with true
    by (symmetry; apply Z.leb_le; lia).
  set (mr := fst (round_normal q l)) in *. set (k := snd (round_normal q l)) in *.
  set (t := es - ed + 53).
  assert (Ht : 1 <= t <= 105) by (subst t; lia).
  (* the integer quotient against the exact ratio *)
  pose proof (Z.div_mod (Z.pos md * 2 ^ 53) (Z.pos ms) ltac:(lia)) as Hdiv.
  pose proof (Z.mod_pos_bound (Z.pos md * 2 ^ 53) (Z.pos ms) ltac:(lia)) as Hrem.
  fold q in Hdiv. set (r := (Z.pos md * 2 ^ 53) mod Z.pos ms) in *.
  assert (Hpow : 2 ^ (- ed) * 2 ^ 53 = 2 ^ t * 2 ^ (- es)).
  { rewrite <- !Z.pow_add_r by lia. f_equal. subst t. lia. }
  pose proof (pow2_pos (- es) ltac:(lia)) as Hb.
  pose proof (pow2_pos t ltac:(lia)) as HP.
  set (B := 2 ^ (- es)) in *. set (P := 2 ^ t) in *.
  assert (Hexact : (n1 * P - n2 * q) * B = r).
  { rewrite Hvd, Hvs in Hdiv.
    replace (n1 * 2 ^ (- ed) * 2 ^ 53) with (n1 * (2 ^ (- ed) * 2 ^ 53)) in Hdiv by lia.
    rewrite Hpow in Hdiv. lia. }
  assert (Hq1 : n2 * q <= n1 * P < n2 * (q + 1)).
  { rewrite Hvs in Hrem. fold B in Hrem.
    assert (0 <= n1 * P - n2 * q) by (apply (Z.mul_le_mono_pos_r _ _ B); lia).
    assert (n1 * P - n2 * q < n2) by (apply (Z.mul_lt_mono_pos_r B); lia).
    lia. }
  assert (Hq2 : lo * P <= q <= hi * P).
  { assert (H1 : n1 * P <= hi * n2 * P) by (apply Z.mul_le_mono_nonneg_r; lia).
    assert (H2 : lo * n2 * P <= n1 * P) by (apply Z.mul_le_mono_nonneg_r; lia).
    split.
    - assert (n2 * (lo * P) < n2 * (q + 1)) by lia.
      assert (lo * P < q + 1) by (apply (Z.mul_lt_mono_pos_l n2); lia). lia.
    - apply (Z.mul_le_mono_pos_l _ _ n2); lia. }
  assert (Ht45 : 45 <= t).
  { destruct (Z.le_gt_cases 45 t) as [|Hsmall]; [done|].
    assert (P <= 2 ^ 44) by (apply Z.pow_le_mono_r; lia).
    change (2 ^ 44) with 17592186044416 in *.
    assert (hi * P <= 255 * P) by (apply Z.mul_le_mono_nonneg_r; lia).
    change (2 ^ 52) with 4503599627370496 in *. lia. }
  exists (Z.to_pos mr), (ed - es - 53 + k).
  rewrite Z2Pos.id by lia. split; [done|]. split; [done|]. split; [lia|].
  replace (ed - es - 53 + k + 200) with (k + (200 - t)) by (subst t; lia).
  rewrite Z.pow_add_r by lia.
  assert (HPR : P * 2 ^ (200 - t) = 2 ^ 200).
  { subst P. rewrite <- Z.pow_add_r by lia. f_equal. lia. }
  assert (HR : 0 < 2 ^ (200 - t) <= 2 ^ 155).
  { split; [apply Z.pow_pos_nonneg; lia|apply Z.pow_le_mono_r; lia]. }
  set (R := 2 ^ (200 - t)) in *. set (V := mr * 2 ^ k) in *.
  replace (mr * (2 ^ k * R)) with (V * R) by (subst V; lia).
  change (2 ^ 156) with (2 * 2 ^ 155). rewrite <- HPR.
  set (M := 2 ^ 155) in *.
  assert (H1 : V * R <= (hi * P + 2) * R) by (apply Z.mul_le_mono_nonneg_r; lia).
  assert (H2 : (lo * P - 1) * R <= V * R) by (apply Z.mul_le_mono_nonneg_r; lia).
  clearbody M R V P B. lia.
Qed.

End Binary64Means.

Section Binary64Differences.

(** The difference of two positive normal numbers, the first one smaller:
    a negative normal number. *)
Lemma SF64sub_negative mx ex my ey :
  -200 <= ex → -200 <= ey →
  Z.pos mx * 2 ^ (ex + 200) < Z.pos my * 2 ^ (ey + 200) →
  normal_above true (-252)
    (SF64sub (S754_finite false mx ex) (S754_finite false my ey)).
Proof.
  intros Hex Hey Hlt. unfold SF64sub, SFsub. cbn [cond_Zopp].
  set (ez := Z.min ex ey).
  destruct (shl_align_spec mx ex ez) as [Ha _]; [lia|].
  destruct (shl_align_spec my ey ez) as [Hb _]; [lia|].
  set (a := Z.pos (fst (shl_align mx ex ez))) in *.
  set (b := Z.pos (fst (shl_align my ey ez))) in *.
  assert (Hpa : 2 ^ (ex + 200) = 2 ^ (ex - ez) * 2 ^ (ez + 200)).
  { rewrite <- Z.pow_add_r by lia. f_equal. lia. }
  assert (Hpb : 2 ^ (ey + 200) = 2 ^ (ey - ez) * 2 ^ (ez + 200)).
  { rewrite <- Z.pow_add_r by lia. f_equal. lia. }
  pose proof (pow2_pos (ez + 200) ltac:(lia)) as Hz.
  assert (Hab : a < b).
  { apply (Z.mul_lt_mono_pos_r (2 ^ (ez + 200))); [done|].
    rewrite Ha, Hb, <- !Z.mul_assoc, <- Hpa, <- Hpb. done. }
  destruct (a - b) as [|p|p] eqn:Hd; try lia.
  cbn [binary_normalize].
  apply (normal_above_weaken _ (ez - 52)); [lia|].
  apply binary_round_normal_above. lia.
Qed.

(** The between-class variance of a split is positive in binary64: the
    class means are apart, and no product underflows. *)
Lemma between_class_variance_positive wB wF sumB sum c :
  0 < wB < 2 ^ 45 → 0 < wF < 2 ^ 45 → 0 <= c <= 254 →
  0 <= sumB <= c * wB →
  (c + 1) * wF <= sum - sumB <= 255 * wF →
  normal_above false (-608) (Prim2SF (between_class_variance wB wF sumB sum)).
Proof.
  intros HwB HwF Hc HsumB HsumF. unfold between_class_variance. cbv zeta.
  change (2 ^ 45) with 35184372088832 in *.
  assert (Hdiff : normal_above true (-252)
            (Prim2SF (JS.ofZ sumB / JS.ofZ wB - JS.ofZ (sum - sumB) / JS.ofZ wF))).
  { rewrite sub_spec.
    destruct (quotient_bounds (sum - sumB) wF (c + 1) 255)
      as (mf & ef & -> & Hmf & Hef & Hvf);
      [change (2 ^ 53) with 9007199254740992; lia
      |change (2 ^ 53) with 9007199254740992; lia|lia|lia|].
    destruct (Z.eq_dec sumB 0) as [->|Hne].
    - rewrite div_spec.
      destruct (ofZ_spec wB) as (mw & ew & -> & _);
        [change (2 ^ 53) with 9007199254740992; lia|].
      assert (Hzero : Prim2SF (JS.ofZ 0) = S754_zero false) by (vm_compute; reflexivity).
      rewrite Hzero. cbn [SF64div SFdiv xorb SF64sub SFsub negb].
      left. exists mf, ef. split; [done|]. split; [done|lia].
    - destruct (quotient_bounds sumB wB 0 c)
        as (mb & eb & -> & Hmb & Heb & Hvb);
        [change (2 ^ 53) with 9007199254740992; nia
        |change (2 ^ 53) with 9007199254740992; lia|lia|lia|].
      apply SF64sub_negative; [lia|lia|].
      change (2 ^ 156) with 91343852333181432387730302044767688728495783936 in *.
      change (2 ^ 200)
        with 1606938044258990275541962092341162602522202993782792835301376 in *.
      lia. }
  assert (Hw : ∀ w, 0 < w < 35184372088832 → normal_above false (-52) (Prim2SF (JS.ofZ w))).
  { intros w Hw. destruct (ofZ_spec w) as (m & e & -> & Hm & He & _);
      [change (2 ^ 53) with 9007199254740992; lia|].
    left. exists m, e. split; [done|]. split; [done|lia]. }
  rewrite !mul_spec.
  change (-608) with (-52 + -52 + -252 + -252).
  change false with (xorb (xorb (xorb false false) true) true).
  apply SF64mul_normal_above; [|done|lia].
  apply SF64mul_normal_above; [|done|lia].
  apply SF64mul_normal_above; [by apply Hw|by apply Hw|lia].
Qed.

End Binary64Differences.

Section PositiveOrder.





End PositiveOrder.

(** ** Grayscale conversion, pixel by pixel *)

Section GrayscaleLoop.

Lemma get_middle (pre suf : list Z) (k : nat) :
  JS.get (pre ++ suf) (length pre + k) = JS.get suf k.
Proof.
  unfold JS.get. rewrite lookup_app_r by lia.
  by replace (length pre + k - length pre)%nat with k by lia.
Qed.

Lemma insert_middle (done zs : list Z) (n k : nat) (x : Z) :
  n = length done →
  <[(n + k)%nat := x]> (done ++ zs) = done ++ <[k := x]> zs.
Proof.
  intros ->. rewrite insert_app_r_alt by lia.
  by replace (length done + k - length done)%nat with k by lia.
Qed.

Lemma grayscale_step_middle pre r g b a rest done z1 z2 z3 z4 zs :
  length done = length pre →
  grayscale_step (pre ++ r :: g :: b :: a :: rest)
    (done ++ z1 :: z2 :: z3 :: z4 :: zs) (length pre)
  = done ++ gray_of r g b :: gray_of r g b :: gray_of r g b
         :: JS.ToUint8Clamp (JS.ofZ a) :: zs.
Proof.
  intros Hlen. unfold grayscale_step.
  pose proof (get_middle pre (r :: g :: b :: a :: rest) 0) as G0.
  rewrite Nat.add_0_r in G0. rewrite G0, !get_middle.
  pose proof (λ x zs', insert_middle done zs' (length pre) 0 x (eq_sym Hlen)) as I0.
  setoid_rewrite Nat.add_0_r in I0.
  rewrite I0, !insert_middle by lia. done.
Qed.

Lemma grayscale_loop_pixels k : ∀ fuel pre suf done,
  length suf = (4 * k)%nat → (k ≤ fuel)%nat → length done = length pre →
  grayscale_loop fuel (pre ++ suf) (done ++ replicate (length suf) 0) (length pre)
  = done ++ gray_pixels suf.
Proof.
  induction k as [|k IH]; intros fuel pre suf done Hsuf Hfuel Hlen.
  - destruct suf; [|done]. rewrite !app_nil_r.
    destruct fuel; simpl; [done|].
    by rewrite Nat.ltb_irrefl.
  - destruct suf as [|r [|g [|b [|a rest]]]]; simpl in Hsuf; try lia.
    destruct fuel as [|fuel]; [lia|].
    cbn [grayscale_loop length replicate gray_pixels].
    replace (length pre <? length (pre ++ r :: g :: b :: a :: rest))%nat with true.
    2:{ symmetry. apply Nat.ltb_lt. rewrite length_app. simpl. lia. }
    rewrite grayscale_step_middle by done.
    replace (pre ++ r :: g :: b :: a :: rest) with ((pre ++ [r; g; b; a]) ++ rest)
      by (by rewrite <- app_assoc).
    replace (length pre + 4)%nat with (length (pre ++ [r; g; b; a]))
      by (rewrite length_app; simpl; lia).
    replace (done ++ gray_of r g b :: gray_of r g b :: gray_of r g b
               :: JS.ToUint8Clamp (JS.ofZ a) :: replicate (length rest) 0)
      with ((done ++ [gray_of r g b; gray_of r g b; gray_of r g b;
                      JS.ToUint8Clamp (JS.ofZ a)]) ++ replicate (length rest) 0)
      by (by rewrite <- app_assoc).
    rewrite IH; [by rewrite <- app_assoc|lia|lia|].
    rewrite !length_app. simpl. lia.
Qed.

Lemma convertImageDataToGrayscale_pixels imageData :
  length (data imageData) = (4 * (width imageData * height imageData))%nat →
  convertImageDataToGrayscale imageData
  = mkImageData (width imageData) (height imageData) (gray_pixels (data imageData)).
Proof.
  intros Hlen. unfold convertImageDataToGrayscale, new_ImageData. cbn [data].
  f_equal. rewrite <- Hlen.
  apply (grayscale_loop_pixels (width imageData * height imageData) _ [] _ []);
    [done|lia|done].
Qed.

Lemma gray_pixels_length data k :
  length data = (4 * k)%nat → length (gray_pixels data) = (4 * k)%nat.
Proof.
  revert data. induction k as [|k IH]; intros data Hlen.
  - by destruct data.
  - destruct data as [|r [|g [|b [|a rest]]]]; simpl in Hlen; try lia.
    cbn [gray_pixels length]. rewrite (IH rest); lia.
Qed.

Lemma gray_pixels_lookup data p r g b a :
  data !! (4 * p)%nat = Some r → data !! (4 * p + 1)%nat = Some g →
  data !! (4 * p + 2)%nat = Some b → data !! (4 * p + 3)%nat = Some a →
  gray_pixels data !! (4 * p)%nat = Some (gray_of r g b) ∧
  gray_pixels data !! (4 * p + 1)%nat = Some (gray_of r g b) ∧
  gray_pixels data !! (4 * p + 2)%nat = Some (gray_of r g b) ∧
  gray_pixels data !! (4 * p + 3)%nat = Some (JS.ToUint8Clamp (JS.ofZ a)).
Proof.
  revert data. induction p as [|p IH]; intros data Hr Hg Hb Ha.
  - destruct data as [|r' [|g' [|b' [|a' rest]]]]; simpl in *; try done.
    by simplify_eq.
  - assert (E : ∀ k, (4 * S p + k)%nat = S (S (S (S (4 * p + k))))) by (intros; lia).
    rewrite <- (Nat.add_0_r (4 * S p)), E, Nat.add_0_r in Hr. rewrite E in Hg, Hb, Ha.
    rewrite <- (Nat.add_0_r (4 * S p)) at 1. rewrite !E, Nat.add_0_r.
    destruct data as [|r' [|g' [|b' [|a' rest]]]]; try (simpl in Ha; done).
    cbn [gray_pixels]. simpl in *. by apply IH.
Qed.

End GrayscaleLoop.

Section GrayscaleClaims.

Lemma luminance_formula_code r g b :
  luminance_formula r g b
  = JS.Math_round (luminance (JS.ofZ r) (JS.ofZ g) (JS.ofZ b)).
Proof.
  unfold luminance_formula, luminance, PROCESSING_CONFIG.red,
    PROCESSING_CONFIG.green, PROCESSING_CONFIG.blue.
  by rewrite (Prim2SF_mul_comm 0.299), (Prim2SF_mul_comm 0.587),
    (Prim2SF_mul_comm 0.114).
Qed.

Lemma gray_of_black : gray_of 0 0 0 = 0 ∧ JS.ofZ 0 = luminance_formula 0 0 0.
Proof. vm_compute. done. Qed.

(** The byte that the loop stores is the rounded luminance itself: the
    clamping of the typed array never applies. *)
Lemma gray_of_formula r g b :
  0 <= r <= 255 → 0 <= g <= 255 → 0 <= b <= 255 →
  JS.ofZ (gray_of r g b) = luminance_formula r g b.
Proof.
  intros Hr Hg Hb. rewrite luminance_formula_code.
  destruct (luminance_range r g b Hr Hg Hb) as [Hle [Hpos|(-> & -> & ->)]].
  - destruct (Math_round_byte _ Hpos Hle) as (n & Hn & Hround).
    unfold gray_of. rewrite Hround. by rewrite ToUint8Clamp_byte.
  - rewrite <- luminance_formula_code. destruct gray_of_black as [-> <-]. done.
Qed.

Lemma gray_pixels_idempotent k : ∀ data,
  length data = (4 * k)%nat → gray_pixels (gray_pixels data) = gray_pixels data.
Proof.
  induction k as [|k IH]; intros data Hlen.
  - by destruct data.
  - destruct data as [|r [|g [|b [|a rest]]]]; simpl in Hlen; try lia.
    cbn [gray_pixels]. rewrite IH by lia.
    rewrite gray_of_same by apply ToUint8Clamp_range.
    rewrite ToUint8Clamp_byte by apply ToUint8Clamp_range. done.
Qed.

Lemma gray_pixels_fixed k : ∀ data,
  length data = (4 * k)%nat → Forall (λ v, 0 <= v <= 255) data →
  gray_data data → gray_pixels data = data.
Proof.
  induction k as [|k IH]; intros data Hlen Hbytes Hgray.
  - by destruct data.
  - destruct data as [|r [|g [|b [|a rest]]]]; simpl in Hlen; try lia.
    destruct Hgray as (-> & -> & Hrest).
    apply Forall_cons in Hbytes as [_ Hbytes]. apply Forall_cons in Hbytes as [_ Hbytes].
    apply Forall_cons in Hbytes as [Hb Hbytes]. apply Forall_cons in Hbytes as [Ha Hbytes].
    cbn [gray_pixels]. rewrite IH by (done || lia).
    by rewrite gray_of_same, ToUint8Clamp_byte.
Qed.

End GrayscaleClaims.

(** C6 (as stated): with the formula in exact arithmetic, the pixel
    (0, 80, 110) has the weighted sum 59.5, which rounds to 60.  The code
    stores 59 in the three colour entries: its binary64 sum is below 59.5. *)
Lemma convertImageDataToGrayscale_exact_formula_counterexample :
  wf_ImageData half_pixel ∧
  (spec_luminance 0 80 110 == 119 # 2)%Q ∧
  spec_gray 0 80 110 = 60 ∧
  convertImageDataToGrayscale half_pixel = mkImageData 1 1 [59; 59; 59; 255] ∧
  PrimFloat.ltb (luminance (JS.ofZ 0) (JS.ofZ 80) (JS.ofZ 110)) 59.5 = true ∧
  data (convertImageDataToGrayscale half_pixel) !! 0%nat ≠ Some (spec_gray 0 80 110).
Proof.
  assert (Hout : convertImageDataToGrayscale half_pixel
                 = mkImageData 1 1 [59; 59; 59; 255]) by (vm_compute; reflexivity).
  assert (Hspec : spec_gray 0 80 110 = 60) by (vm_compute; reflexivity).
  split; [split; [reflexivity|repeat constructor; lia]|].
  split; [reflexivity|]. split; [exact Hspec|]. split; [exact Hout|].
  split; [vm_compute; reflexivity|].
  rewrite Hout, Hspec. cbn. intros [=].
Qed.

(** C6 (amended): grayscale conversion keeps the dimensions; in every pixel
    the red, green and blue entries all become
    round(0.299·R + 0.587·G + 0.114·B) of the source entries, the products
    and the sums being those of binary64 numbers, and the alpha entry is
    kept.  The conversion is a total function. *)
Theorem convertImageDataToGrayscale_formula (imageData : ImageData) :
  wf_ImageData imageData →
  let out := convertImageDataToGrayscale imageData in
  width out = width imageData ∧ height out = height imageData ∧
  length (data out) = length (data imageData) ∧
  ∀ p r g b a,
    data imageData !! (4 * p)%nat = Some r →
    data imageData !! (4 * p + 1)%nat = Some g →
    data imageData !! (4 * p + 2)%nat = Some b →
    data imageData !! (4 * p + 3)%nat = Some a →
    ∃ gray,
      JS.ofZ gray = luminance_formula r g b ∧
      data out !! (4 * p)%nat = Some gray ∧
      data out !! (4 * p + 1)%nat = Some gray ∧
      data out !! (4 * p + 2)%nat = Some gray ∧
      data out !! (4 * p + 3)%nat = Some a.
Proof.
  intros [Hlen Hbytes] out. subst out.
  rewrite convertImageDataToGrayscale_pixels by done. cbn [width height data].
  split; [done|]. split; [done|]. split.
  { rewrite (gray_pixels_length _ _ Hlen). done. }
  intros p r g b a Hr Hg Hb Ha.
  rewrite Forall_lookup in Hbytes.
  destruct (gray_pixels_lookup _ _ _ _ _ _ Hr Hg Hb Ha) as (H0 & H1 & H2 & H3).
  exists (gray_of r g b). rewrite H0, H1, H2, H3.
  split; [apply gray_of_formula; eauto|].
  do 3 (split; [done|]).
  rewrite ToUint8Clamp_byte; eauto.
Qed.

Lemma two_pixels_wf : wf_ImageData two_pixels.
Proof. split; [done|]. repeat constructor; lia. Qed.

Lemma convertImageDataToGrayscale_formula_witness :
  wf_ImageData two_pixels ∧
  convertImageDataToGrayscale two_pixels
  = mkImageData 2 1 [22; 22; 22; 255; 124; 124; 124; 128] ∧
  ∃ gray, JS.ofZ gray = luminance_formula 0 36 12 ∧
          data (convertImageDataToGrayscale two_pixels) !! 0%nat = Some gray.
Proof.
  split; [exact two_pixels_wf|]. split; [vm_compute; reflexivity|].
  destruct (convertImageDataToGrayscale_formula two_pixels two_pixels_wf)
    as (_ & _ & _ & Hpx).
  destruct (Hpx 0%nat 0 36 12 255) as (gray & Hgray & H0 & _); try reflexivity.
  exists gray. split; [exact Hgray|exact H0].
Defined.

(** C7: converting to grayscale twice gives what converting once gives;
    and a raster whose pixels all have R = G = B already is returned as it
    is, every entry, alpha included. *)
Theorem convertImageDataToGrayscale_idempotent (imageData : ImageData) :
  wf_ImageData imageData →
  convertImageDataToGrayscale (convertImageDataToGrayscale imageData)
  = convertImageDataToGrayscale imageData ∧
  (gray_data (data imageData) →
   convertImageDataToGrayscale imageData = imageData).
Proof.
  intros [Hlen Hbytes]. split.
  - rewrite (convertImageDataToGrayscale_pixels imageData) by done.
    rewrite convertImageDataToGrayscale_pixels; cbn [width height data].
    + f_equal. by apply (gray_pixels_idempotent (width imageData * height imageData)).
    + by apply gray_pixels_length.
  - intros Hgray. rewrite convertImageDataToGrayscale_pixels by done.
    rewrite (gray_pixels_fixed (width imageData * height imageData)) by done.
    by destruct imageData.
Qed.

Lemma convertImageDataToGrayscale_idempotent_witness :
  wf_ImageData two_pixels ∧
  convertImageDataToGrayscale (convertImageDataToGrayscale two_pixels)
  = convertImageDataToGrayscale two_pixels ∧
  convertImageDataToGrayscale (gray_raster 2 1 [22; 124]) = gray_raster 2 1 [22; 124].
Proof.
  split; [exact two_pixels_wf|].
  split; [exact (proj1 (convertImageDataToGrayscale_idempotent two_pixels two_pixels_wf))|].
  apply (convertImageDataToGrayscale_idempotent (gray_raster 2 1 [22; 124])).
  - split; [reflexivity|]. repeat constructor; lia.
  - simpl. done.
Defined.

(** ** Thresholding *)

Section ThresholdLoop.

Lemma threshold_loop_pixels k : ∀ fuel pre suf threshold result,
  length suf = (4 * k)%nat → (k ≤ fuel)%nat →
  threshold_loop fuel (pre ++ suf) threshold (length pre) result
  = result ++ ((λ gray, gray <? threshold) <$> red_entries suf).
Proof.
  induction k as [|k IH]; intros fuel pre suf threshold result Hsuf Hfuel.
  - destruct suf; [|done]. rewrite !app_nil_r.
    destruct fuel; simpl; [done|].
    by rewrite lookup_ge_None_2.
  - destruct suf as [|r [|g [|b [|a rest]]]]; simpl in Hsuf; try lia.
    destruct fuel as [|fuel]; [lia|].
    cbn [threshold_loop red_entries fmap list_fmap].
    rewrite list_lookup_middle by done.
    replace (pre ++ r :: g :: b :: a :: rest) with ((pre ++ [r; g; b; a]) ++ rest)
      by (by rewrite <- app_assoc).
    replace (length pre + 4)%nat with (length (pre ++ [r; g; b; a]))
      by (rewrite length_app; simpl; lia).
    rewrite IH by lia. by rewrite <- app_assoc.
Qed.

Lemma red_entries_length data k :
  length data = (4 * k)%nat → length (red_entries data) = k.
Proof.
  revert data. induction k as [|k IH]; intros data Hlen.
  - by destruct data.
  - destruct data as [|r [|g [|b [|a rest]]]]; simpl in Hlen; try lia.
    cbn [red_entries length]. rewrite (IH rest); lia.
Qed.

Lemma red_entries_lookup data i :
  (∃ k, length data = (4 * k)%nat) →
  red_entries data !! i = data !! (4 * i)%nat.
Proof.
  revert data. induction i as [|i IH]; intros data [k Hlen].
  - destruct data as [|r [|g [|b [|a rest]]]]; simpl in Hlen; try done; lia.
  - replace (4 * S i)%nat with (S (S (S (S (4 * i))))) by lia.
    destruct data as [|r [|g [|b [|a rest]]]]; simpl in Hlen; try done; try lia.
    cbn [red_entries]. simpl. apply IH. exists (k - 1)%nat. lia.
Qed.

End ThresholdLoop.

(** C3: for a grid size of at least 1, [applyThreshold] gives one cell per
    pixel of the resampled raster, and a cell is on exactly when the
    resampled luminance is strictly below the threshold; a luminance equal
    to the threshold gives off. *)
Theorem applyThreshold_strict `{Canvas} (imageData : ImageData) (threshold : Z)
  (gridSize : nat) :
  (1 ≤ gridSize)%nat →
  ∃ cells,
    applyThreshold imageData threshold gridSize = inr cells ∧
    length cells = (gridSize * gridSize)%nat ∧
    ∀ i gray,
      data (drawScaled imageData gridSize gridSize) !! (4 * i)%nat = Some gray →
      cells !! i = Some (gray <? threshold) ∧
      (gray = threshold → cells !! i = Some false) ∧
      (cells !! i = Some true ↔ gray < threshold).
Proof.
  intros Hg. unfold applyThreshold.
  replace (gridSize =? 0)%nat with false by (symmetry; apply Nat.eqb_neq; lia).
  eexists. split; [reflexivity|].
  destruct (drawScaled_wf imageData gridSize gridSize) as [Hlen _].
  rewrite drawScaled_width, drawScaled_height in Hlen.
  pose proof (threshold_loop_pixels (gridSize * gridSize)
                (length (data (drawScaled imageData gridSize gridSize))) []
                (data (drawScaled imageData gridSize gridSize)) threshold []
                Hlen ltac:(lia)) as Hloop.
  cbn [app length] in Hloop. rewrite Hloop. split.
  { rewrite length_fmap. by apply red_entries_length. }
  intros i gray Hgray.
  assert (Hcell : ((λ gray0, gray0 <? threshold) <$>
                     red_entries (data (drawScaled imageData gridSize gridSize))) !! i
                  = Some (gray <? threshold)).
  { rewrite list_lookup_fmap, red_entries_lookup by eauto. by rewrite Hgray. }
  rewrite Hcell. split; [done|]. split.
  - intros ->. by rewrite Z.ltb_irrefl.
  - split; [intros [= Hlt]; by apply Z.ltb_lt|intros Hlt; f_equal; by apply Z.ltb_lt].
Qed.

Lemma applyThreshold_strict_witness :
  (1 ≤ 2)%nat ∧
  @applyThreshold BoxCanvas.canvas (gray_raster 2 2 [99; 100; 101; 100]) 100 2
  = inr [true; false; false; false].
Proof.
  split; [lia|].
  destruct (@applyThreshold_strict BoxCanvas.canvas
              (gray_raster 2 2 [99; 100; 101; 100]) 100 2) as (cells & Hc & _);
    [lia|].
  rewrite Hc. vm_compute in Hc. injection Hc as <-. reflexivity.
Defined.

(** ** Otsu's search *)

Section Otsu.

Lemma foldl_add_shift (l : list Z) (a : Z) : foldl Z.add a l = a + foldl Z.add 0 l.
Proof.
  revert a. induction l as [|x l IH]; intros a; simpl; [lia|].
  rewrite IH, (IH (0 + x)). lia.
Qed.

Lemma histogram_total_nil : histogram_total [] = 0.
Proof. done. Qed.

Lemma histogram_total_cons x l : histogram_total (x :: l) = x + histogram_total l.
Proof. unfold histogram_total. simpl. rewrite foldl_add_shift. lia. Qed.

Lemma histogram_total_app l k :
  histogram_total (l ++ k) = histogram_total l + histogram_total k.
Proof.
  induction l as [|x l IH]; simpl; [done|].
  rewrite !histogram_total_cons, IH. lia.
Qed.

Lemma histogram_total_nonneg l : Forall (λ v, 0 <= v) l → 0 <= histogram_total l.
Proof.
  induction 1 as [|x l Hx _ IH]; [done|]. rewrite histogram_total_cons. lia.
Qed.

Lemma weighted_sum_app i l k :
  weighted_sum i (l ++ k) = weighted_sum i l + weighted_sum (i + Z.of_nat (length l)) k.
Proof.
  revert i. induction l as [|x l IH]; intros i; cbn [app weighted_sum length].
  - rewrite Z.add_0_r. lia.
  - rewrite IH, Nat2Z.inj_succ.
    replace (i + 1 + Z.of_nat (length l)) with (i + Z.succ (Z.of_nat (length l))) by lia.
    lia.
Qed.

Lemma take_S_middle (pre : list Z) h rest :
  take (S (length pre)) (pre ++ h :: rest) = pre ++ [h].
Proof.
  rewrite cons_middle, app_assoc.
  apply take_app_length'. rewrite length_app. simpl. lia.
Qed.

Lemma wB_at_middle pre h rest :
  wB_at (pre ++ h :: rest) (length pre) = histogram_total pre + h.
Proof.
  unfold wB_at. rewrite take_S_middle, histogram_total_app, histogram_total_cons.
  rewrite histogram_total_nil. lia.
Qed.

Lemma sumB_at_middle pre h rest :
  sumB_at (pre ++ h :: rest) (length pre) =
  weighted_sum 0 pre + Z.of_nat (length pre) * h.
Proof.
  unfold sumB_at. rewrite take_S_middle, weighted_sum_app. simpl. lia.
Qed.

(** Past a bin where the foreground is empty, it stays empty. *)
Lemma wF_at_zero_later hist n c :
  Forall (λ v, 0 <= v) hist → (n ≤ c)%nat → wF_at hist n = 0 → wF_at hist c = 0.
Proof.
  intros Hpos Hle. unfold wF_at, wB_at.
  assert (E1 : histogram_total hist
               = histogram_total (take (S c) hist) + histogram_total (drop (S c) hist))
    by (by rewrite <- histogram_total_app, take_drop).
  assert (E2 : histogram_total (take (S c) hist)
               = histogram_total (take (S n) hist)
                 + histogram_total (drop (S n) (take (S c) hist))).
  { rewrite <- histogram_total_app. f_equal.
    rewrite <- (take_drop (S n) (take (S c) hist)) at 1.
    f_equal. rewrite take_take. f_equal. lia. }
  assert (0 <= histogram_total (drop (S c) hist))
    by (apply histogram_total_nonneg, Forall_drop, Hpos).
  assert (0 <= histogram_total (drop (S n) (take (S c) hist)))
    by (apply histogram_total_nonneg, Forall_drop, Forall_take, Hpos).
  lia.
Qed.

Lemma otsu_best_weaken hist n m maxV t :
  (∀ c, (n ≤ c < m)%nat → ¬ valid_split hist c) →
  (n ≤ m)%nat →
  otsu_best hist n maxV t → otsu_best hist m maxV t.
Proof.
  intros Hnone Hnm [(-> & -> & Hall)|(c0 & Hc0 & -> & Hv & -> & Hpos & Hmax & Hfirst)].
  - left. split; [done|]. split; [done|]. intros c Hc Hvc.
    destruct (decide (c < n)%nat); [by apply Hall|].
    exfalso. apply (Hnone c); [lia|done].
  - right. exists c0. split; [lia|]. do 4 (split; [done|]). split; [|done].
    intros c Hc Hvc. destruct (decide (c < n)%nat); [by apply Hmax|].
    exfalso. apply (Hnone c); [lia|done].
Qed.

Lemma otsu_loop_best bins : ∀ pre st,
  Forall (λ v, 0 <= v) (pre ++ bins) →
  wB st = histogram_total pre →
  sumB st = weighted_sum 0 pre →
  otsu_best (pre ++ bins) (length pre) (maxVariance st) (threshold st) →
  ∃ maxV,
    otsu_best (pre ++ bins) (length (pre ++ bins)) maxV
      (otsu_loop (histogram_total (pre ++ bins)) (weighted_sum 0 (pre ++ bins))
         (Z.of_nat (length pre)) bins st).
Proof.
  induction bins as [|h rest IH]; intros pre st Hpos HwB HsumB Hbest.
  - simpl. rewrite app_nil_r in *. eauto.
  - cbn [otsu_loop].
    assert (Hlen : length (pre ++ [h]) = S (length pre))
      by (rewrite length_app; simpl; lia).
    assert (Hidx : Z.of_nat (length pre) + 1 = Z.of_nat (length (pre ++ [h])))
      by (rewrite Hlen; lia).
    assert (HwBn : wB_at (pre ++ h :: rest) (length pre) = wB st + h)
      by (rewrite wB_at_middle; lia).
    assert (HsBn : sumB_at (pre ++ h :: rest) (length pre)
                   = sumB st + Z.of_nat (length pre) * h)
      by (rewrite sumB_at_middle; lia).
    assert (Hin : (length pre < length (pre ++ h :: rest))%nat)
      by (rewrite length_app; simpl; lia).
    destruct (Z.eqb_spec (wB st + h) 0) as [Hz|Hnz].
    { (* continue: the background is still empty *)
      rewrite Hidx, (cons_middle h pre rest), app_assoc.
      apply IH; cbn [wB sumB maxVariance threshold].
      - by rewrite <- app_assoc.
      - rewrite histogram_total_app, histogram_total_cons, histogram_total_nil. lia.
      - rewrite weighted_sum_app. simpl.
        assert (0 <= histogram_total pre).
        { apply histogram_total_nonneg. by apply Forall_app in Hpos as [? _]. }
        assert (0 <= h).
        { apply Forall_app in Hpos as [_ Hh]. by inversion Hh. }
        assert (h = 0) by lia. subst h. lia.
      - rewrite <- app_assoc, <- cons_middle, Hlen.
        apply (otsu_best_weaken _ (length pre)); [|lia|exact Hbest].
        intros c Hc (_ & HwBc & _). assert (c = length pre) by lia. subst c.
        congruence. }
    destruct (Z.eqb_spec (histogram_total (pre ++ h :: rest) - (wB st + h)) 0)
      as [HFz|HFnz].
    { (* break: the foreground is empty from here on *)
      exists (maxVariance st).
      apply (otsu_best_weaken _ (length pre)); [|lia|exact Hbest].
      intros c Hc (_ & _ & HwFc). apply HwFc.
      apply (wF_at_zero_later _ (length pre)); [done|lia|].
      unfold wF_at. rewrite HwBn. done. }
    (* a split: compare its variance with the best so far *)
    assert (Hvalid : valid_split (pre ++ h :: rest) (length pre)).
    { repeat split; [done|congruence|]. unfold wF_at. rewrite HwBn. done. }
    assert (Hvar : between_class_variance (wB st + h)
                     (histogram_total (pre ++ h :: rest) - (wB st + h))
                     (sumB st + Z.of_nat (length pre) * h)
                     (weighted_sum 0 (pre ++ h :: rest))
                   = variance_at (pre ++ h :: rest) (length pre)).
    { unfold variance_at, wF_at. by rewrite HwBn, HsBn. }
    rewrite Hvar.
    destruct (PrimFloat.ltb (maxVariance st) (variance_at (pre ++ h :: rest) (length pre)))
      eqn:Hcmp.
    + (* a new maximum *)
      rewrite Hidx, (cons_middle h pre rest), app_assoc.
      apply IH; cbn [wB sumB maxVariance threshold].
      * by rewrite <- app_assoc.
      * rewrite histogram_total_app, histogram_total_cons, histogram_total_nil. lia.
      * rewrite weighted_sum_app. simpl. lia.
      * rewrite <- app_assoc, <- cons_middle, Hlen.
        right. exists (length pre). split; [lia|]. do 3 (split; [done|]).
        split; [|split].
        -- destruct Hbest as [(_ & Hm & _)|(c0 & _ & _ & _ & Hm & Hp & _)].
           ++ by rewrite Hm in Hcmp.
           ++ by apply (ltb_trans _ _ _ Hp).
        -- intros c Hc Hvc. destruct (decide (c = length pre)) as [->|Hne].
           { apply ltb_irrefl. }
           apply not_true_iff_false. intros Hgt.
           pose proof (ltb_trans _ _ _ Hcmp Hgt) as Habs.
           destruct Hbest as [(_ & Hm & Hall)|(c0 & _ & _ & _ & Hm & _ & Hmax & _)].
           ++ rewrite Hm in Habs. rewrite Hall in Habs; [done|lia|done].
           ++ rewrite Hmax in Habs; [done|lia|done].
        -- intros c Hc Hvc. apply not_true_iff_false. intros Hge.
           pose proof (ltb_leb_trans _ _ _ Hcmp Hge) as Habs.
           destruct Hbest as [(_ & Hm & Hall)|(c0 & _ & _ & _ & Hm & _ & Hmax & _)].
           ++ rewrite Hm in Habs. rewrite Hall in Habs; [done|lia|done].
           ++ rewrite Hmax in Habs; [done|lia|done].
    + (* not better than the best so far *)
      rewrite Hidx, (cons_middle h pre rest), app_assoc.
      apply IH; cbn [wB sumB maxVariance threshold].
      * by rewrite <- app_assoc.
      * rewrite histogram_total_app, histogram_total_cons, histogram_total_nil. lia.
      * rewrite weighted_sum_app. simpl. lia.
      * rewrite <- app_assoc, <- cons_middle, Hlen.
        destruct Hbest as [(Ht & Hm & Hall)|(c0 & Hc0 & Ht & Hv0 & Hm & Hp & Hmax & Hfirst)].
        -- left. split; [done|]. split; [done|]. intros c Hc Hvc.
           destruct (decide (c = length pre)) as [->|Hne].
           ++ by rewrite <- Hm.
           ++ apply Hall; [lia|done].
        -- right. exists c0. split; [lia|]. do 4 (split; [done|]). split; [|done].
           intros c Hc Hvc. destruct (decide (c = length pre)) as [->|Hne].
           ++ exact Hcmp.
           ++ apply Hmax; [lia|done].
Qed.

End Otsu.

Section OtsuResult.

Lemma histogram_loop_length fuel : ∀ data hist i,
  length (histogram_loop fuel data hist i) = length hist.
Proof.
  induction fuel as [|fuel IH]; intros data hist i; simpl; [done|].
  destruct (data !! i); [|done]. by rewrite IH, length_alter.
Qed.

Lemma histogram_loop_nonneg fuel : ∀ data hist i,
  Forall (λ v, 0 <= v) hist → Forall (λ v, 0 <= v) (histogram_loop fuel data hist i).
Proof.
  induction fuel as [|fuel IH]; intros data hist i Hpos; simpl; [done|].
  destruct (data !! i); [|done]. apply IH.
  apply Forall_alter; [done|]. intros x _ ?. lia.
Qed.

Lemma build_histogram_length imageData : length (build_histogram imageData) = 256%nat.
Proof. unfold build_histogram. by rewrite histogram_loop_length, length_replicate. Qed.

Lemma build_histogram_nonneg imageData :
  Forall (λ v, 0 <= v) (build_histogram imageData).
Proof.
  apply histogram_loop_nonneg, Forall_replicate. lia.
Qed.

Lemma histogram_total_lookup_le l i x :
  Forall (λ v, 0 <= v) l → l !! i = Some x → x <= histogram_total l.
Proof.
  intros Hpos Hi. rewrite <- (take_drop_middle l i x Hi).
  rewrite histogram_total_app, histogram_total_cons.
  assert (0 <= histogram_total (take i l))
    by (apply histogram_total_nonneg, Forall_take, Hpos).
  assert (0 <= histogram_total (drop (S i) l))
    by (apply histogram_total_nonneg, Forall_drop, Hpos).
  lia.
Qed.

Lemma wB_wF_total hist c :
  histogram_total hist = wB_at hist c + histogram_total (drop (S c) hist).
Proof. unfold wB_at. by rewrite <- histogram_total_app, take_drop. Qed.


Lemma otsu_of_histogram_best hist :
  Forall (λ v, 0 <= v) hist →
  ∃ maxV, otsu_best hist (length hist) maxV (otsu_of_histogram hist).
Proof.
  intros Hpos. unfold otsu_of_histogram.
  apply (otsu_loop_best hist [] (mkOtsu 0 0 0%float PROCESSING_CONFIG.DEFAULT_THRESHOLD));
    try done.
  left. split; [done|]. split; [done|]. intros c Hc. simpl in Hc. lia.
Qed.

End OtsuResult.

(** ** The variance of a split is positive *)

Section SplitVariance.

Lemma weighted_sum_bounds l : ∀ i,
  0 <= i → Forall (λ v, 0 <= v) l →
  i * histogram_total l <= weighted_sum i l
  <= (i + Z.of_nat (length l) - 1) * histogram_total l.
Proof.
  induction l as [|h rest IH]; intros i Hi Hpos.
  - cbn [weighted_sum length]. rewrite histogram_total_nil. lia.
  - apply Forall_cons in Hpos as [Hh Hrest].
    pose proof (histogram_total_nonneg rest Hrest) as HT.
    specialize (IH (i + 1) ltac:(lia) Hrest).
    cbn [weighted_sum length]. rewrite histogram_total_cons, Nat2Z.inj_succ.
    set (T := histogram_total rest) in *. set (n := Z.of_nat (length rest)) in *.
    assert (0 <= n) by (subst n; lia).
    replace (i + 1 + n - 1) with (i + n) in IH by lia.
    replace (i + Z.succ n - 1) with (i + n) by lia.
    assert (0 <= n * h) by (apply Z.mul_nonneg_nonneg; lia).
    assert (0 <= i * T) by (apply Z.mul_nonneg_nonneg; lia).
    lia.
Qed.

Variable hist : list Z.
Hypothesis Hpos : Forall (λ v, 0 <= v) hist.
Hypothesis Hlen : length hist = 256%nat.
Hypothesis Htotal : histogram_total hist < 2 ^ 45.

(** The sums of a split: the background mean is at most [c], the
    foreground mean at least [c + 1]. *)
Lemma valid_split_sums c :
  valid_split hist c →
  0 <= Z.of_nat c <= 254 ∧
  0 < wB_at hist c < 2 ^ 45 ∧ 0 < wF_at hist c < 2 ^ 45 ∧
  0 <= sumB_at hist c <= Z.of_nat c * wB_at hist c ∧
  (Z.of_nat c + 1) * wF_at hist c <= weighted_sum 0 hist - sumB_at hist c
  <= 255 * wF_at hist c.
Proof.
  intros (Hc & HwB & HwF).
  pose proof (wB_wF_total hist c) as Htot.
  assert (HB : Forall (λ v, 0 <= v) (take (S c) hist)) by apply Forall_take, Hpos.
  assert (HF : Forall (λ v, 0 <= v) (drop (S c) hist)) by apply Forall_drop, Hpos.
  pose proof (histogram_total_nonneg _ HB) as HB0.
  pose proof (histogram_total_nonneg _ HF) as HF0.
  pose proof (weighted_sum_bounds _ 0 ltac:(lia) HB) as HsB.
  pose proof (weighted_sum_bounds _ (Z.of_nat (S c)) ltac:(lia) HF) as HsF.
  assert (Hsum : weighted_sum 0 hist
                 = sumB_at hist c + weighted_sum (Z.of_nat (S c)) (drop (S c) hist)).
  { rewrite <- (take_drop (S c) hist) at 1.
    rewrite weighted_sum_app, length_take, Nat.min_l by lia. done. }
  rewrite length_take, Nat.min_l in HsB by lia.
  rewrite length_drop, Hlen in HsF.
  unfold wF_at in *. unfold sumB_at in *. fold (wB_at hist c) in *.
  set (wb := wB_at hist c) in *. set (T := histogram_total (drop (S c) hist)) in *.
  set (sb := weighted_sum 0 (take (S c) hist)) in *.
  set (sf := weighted_sum (Z.of_nat (S c)) (drop (S c) hist)) in *.
  assert (HT : histogram_total hist - wb = T) by lia.
  rewrite HT in *.
  assert (c ≠ 255)%nat.
  { intros ->. subst T. rewrite drop_ge in HwF by lia. done. }
  replace (0 + Z.of_nat (S c) - 1) with (Z.of_nat c) in HsB by lia.
  replace (Z.of_nat (S c) + Z.of_nat (256 - S c) - 1) with 255 in HsF by lia.
  rewrite Nat2Z.inj_succ in HsF.
  split; [lia|]. split; [lia|]. split; [lia|]. split; [lia|].
  rewrite Hsum. lia.
Qed.

Lemma variance_at_normal c :
  valid_split hist c → normal_above false (-608) (Prim2SF (variance_at hist c)).
Proof.
  intros Hv. destruct (valid_split_sums c Hv) as (Hc & HwB & HwF & HsB & HsF).
  by apply (between_class_variance_positive _ _ _ _ (Z.of_nat c)).
Qed.

Lemma variance_at_positive c :
  valid_split hist c → PrimFloat.ltb 0 (variance_at hist c) = true.
Proof.
  intros Hv. rewrite ltb_spec.
  assert (Hzero : Prim2SF 0 = S754_zero false) by (vm_compute; reflexivity).
  rewrite Hzero. eapply normal_above_positive, variance_at_normal, Hv.
Qed.

End SplitVariance.

Section HistogramSize.

Lemma histogram_total_alter_succ l : ∀ k,
  histogram_total (alter Z.succ k l) <= histogram_total l + 1.
Proof.
  induction l as [|x l IH]; intros [|k]; cbn [alter list_alter];
    rewrite ?histogram_total_cons; try lia.
  specialize (IH k). change (list_alter Z.succ k l) with (alter Z.succ k l). lia.
Qed.

Lemma histogram_loop_total fuel : ∀ data hist i,
  histogram_total (histogram_loop fuel data hist i)
  <= histogram_total hist + Z.of_nat fuel.
Proof.
  induction fuel as [|fuel IH]; intros data hist i; cbn [histogram_loop]; [lia|].
  destruct (data !! i); [|lia].
  pose proof (IH data (alter Z.succ (Z.to_nat z) hist) (i + 4)%nat).
  pose proof (histogram_total_alter_succ hist (Z.to_nat z)). lia.
Qed.

(** There are no more counted pixels than entries in the raster. *)
Lemma build_histogram_total imageData :
  histogram_total (build_histogram imageData) <= Z.of_nat (length (data imageData)).
Proof.
  unfold build_histogram.
  pose proof (histogram_loop_total (length (data imageData)) (data imageData)
                (replicate 256 0) 0) as Hle.
  assert (Hz : histogram_total (replicate 256 0) = 0) by (vm_compute; reflexivity).
  lia.
Qed.

End HistogramSize.

(** ** Histograms with one or two populated bins *)

Section SparseHistograms.

Lemma sums_zero (l : list Z) k :
  (∀ j y, l !! j = Some y → y = 0) →
  histogram_total l = 0 ∧ weighted_sum k l = 0.
Proof.
  revert k. induction l as [|x l IH]; intros k Hz; [done|].
  assert (x = 0) by (apply (Hz 0%nat); done). subst x.
  destruct (IH (k + 1)) as [Ht Hw].
  { intros j y Hj. apply (Hz (S j)). done. }
  rewrite histogram_total_cons. cbn [weighted_sum]. split; lia.
Qed.

Lemma sums_single (l : list Z) i x :
  l !! i = Some x →
  (∀ j y, j ≠ i → l !! j = Some y → y = 0) →
  histogram_total l = x ∧ weighted_sum 0 l = Z.of_nat i * x.
Proof.
  intros Hi Hz.
  assert (Hlt : (i < length l)%nat) by (by eapply lookup_lt_Some).
  rewrite <- (take_drop_middle l i x Hi).
  destruct (sums_zero (take i l) 0) as [Ht1 Hw1].
  { intros j y Hj. apply lookup_take_Some in Hj as [Hj ?]. apply (Hz j); [lia|done]. }
  destruct (sums_zero (drop (S i) l) (Z.of_nat i + 1)) as [Ht2 Hw2].
  { intros j y Hj. rewrite lookup_drop in Hj. apply (Hz (S i + j)%nat); [lia|done]. }
  rewrite histogram_total_app, histogram_total_cons, weighted_sum_app.
  cbn [weighted_sum]. rewrite length_take, Nat.min_l, Z.add_0_l by lia. split; lia.
Qed.

Lemma sums_two (l : list Z) i j x y :
  (i < j)%nat → l !! i = Some x → l !! j = Some y →
  (∀ k z, k ≠ i → k ≠ j → l !! k = Some z → z = 0) →
  histogram_total l = x + y ∧ weighted_sum 0 l = Z.of_nat i * x + Z.of_nat j * y.
Proof.
  intros Hij Hi Hj Hz.
  assert (Hlt : (j < length l)%nat) by (by eapply lookup_lt_Some).
  rewrite <- (take_drop_middle l j y Hj).
  destruct (sums_single (take j l) i x) as [Ht1 Hw1].
  { by rewrite lookup_take_lt. }
  { intros k z Hk Hkz. apply lookup_take_Some in Hkz as [Hkz ?].
    apply (Hz k); [done|lia|done]. }
  destruct (sums_zero (drop (S j) l) (Z.of_nat j + 1)) as [Ht2 Hw2].
  { intros k z Hk. rewrite lookup_drop in Hk. apply (Hz (S j + k)%nat); [lia|lia|done]. }
  rewrite histogram_total_app, histogram_total_cons, weighted_sum_app.
  cbn [weighted_sum]. rewrite length_take, Nat.min_l, Z.add_0_l by lia. split; lia.
Qed.

End SparseHistograms.

Section TwoBins.

Variables (hist : list Z) (lo hi : nat) (n1 n2 : Z).
Hypothesis Hlohi : (lo < hi)%nat.
Hypothesis Hlo : hist !! lo = Some n1.
Hypothesis Hhi : hist !! hi = Some n2.
Hypothesis Hn1 : 0 < n1.
Hypothesis Hn2 : 0 < n2.
Hypothesis Hothers : ∀ b z, b ≠ lo → b ≠ hi → hist !! b = Some z → z = 0.

Lemma two_bins_total :
  histogram_total hist = n1 + n2 ∧
  weighted_sum 0 hist = Z.of_nat lo * n1 + Z.of_nat hi * n2.
Proof. by apply sums_two. Qed.

Lemma two_bins_below c : (c < lo)%nat → wB_at hist c = 0.
Proof.
  intros Hc. unfold wB_at. apply (sums_zero _ 0).
  intros j y Hj. apply lookup_take_Some in Hj as [Hj ?].
  apply (Hothers j); [lia|lia|done].
Qed.

Lemma two_bins_between c :
  (lo ≤ c < hi)%nat →
  wB_at hist c = n1 ∧ sumB_at hist c = Z.of_nat lo * n1.
Proof.
  intros Hc. unfold wB_at, sumB_at. apply sums_single.
  - rewrite lookup_take_lt by lia. done.
  - intros j y Hne Hj. apply lookup_take_Some in Hj as [Hj ?].
    apply (Hothers j); [lia|lia|done].
Qed.

Lemma two_bins_above c : (hi ≤ c)%nat → wF_at hist c = 0.
Proof.
  intros Hc. unfold wF_at, wB_at.
  destruct two_bins_total as [-> _].
  destruct (sums_two (take (S c) hist) lo hi n1 n2) as [-> _]; try done; try lia.
  - rewrite lookup_take_lt by lia. done.
  - rewrite lookup_take_lt by lia. done.
  - intros k z ? ? Hk. apply lookup_take_Some in Hk as [Hk ?].
    by apply (Hothers k).
Qed.

Lemma two_bins_valid c : valid_split hist c ↔ (lo ≤ c < hi)%nat.
Proof.
  split.
  - intros (_ & HwB & HwF).
    destruct (decide (c < lo)%nat); [by rewrite two_bins_below in HwB|].
    destruct (decide (hi ≤ c)%nat); [by rewrite two_bins_above in HwF|].
    lia.
  - intros Hc. destruct (two_bins_between c Hc) as [HwB _].
    split; [|split].
    + apply lookup_lt_Some in Hhi. lia.
    + rewrite HwB. lia.
    + unfold wF_at. rewrite HwB. destruct two_bins_total as [-> _]. lia.
Qed.

Lemma two_bins_variance c :
  (lo ≤ c < hi)%nat →
  variance_at hist c =
  between_class_variance n1 n2 (Z.of_nat lo * n1)
    (Z.of_nat lo * n1 + Z.of_nat hi * n2).
Proof.
  intros Hc. unfold variance_at, wF_at.
  destruct (two_bins_between c Hc) as [-> ->].
  destruct two_bins_total as [-> ->]. f_equal. lia.
Qed.

Lemma two_bins_otsu :
  Forall (λ v, 0 <= v) hist →
  otsu_of_histogram hist =
  if PrimFloat.ltb 0
       (between_class_variance n1 n2 (Z.of_nat lo * n1)
          (Z.of_nat lo * n1 + Z.of_nat hi * n2))
  then Z.of_nat lo
  else PROCESSING_CONFIG.DEFAULT_THRESHOLD.
Proof.
  intros Hpos.
  destruct (otsu_of_histogram_best hist Hpos) as [maxV Hbest].
  assert (Hvlo : valid_split hist lo) by (apply two_bins_valid; lia).
  destruct Hbest as [(-> & _ & Hall)|(c0 & _ & -> & Hv & -> & Hp & _ & Hfirst)].
  - rewrite <- (two_bins_variance lo) by lia.
    rewrite Hall; [done| |done]. by eapply lookup_lt_Some.
  - apply two_bins_valid in Hv as Hc0.
    rewrite (two_bins_variance c0 Hc0) in Hp, Hfirst. rewrite Hp.
    destruct (decide (c0 = lo)) as [->|Hne]; [done|].
    exfalso. specialize (Hfirst lo). rewrite (two_bins_variance lo) in Hfirst by lia.
    rewrite (ltb_leb_refl _ _ Hp) in Hfirst.
    discriminate Hfirst; [lia|done].
Qed.

End TwoBins.




(** C2 (the code at a failing input): on the bimodal raster the result is
    the lower mode 10 itself, not a value strictly between the modes.  With
    the comparison [gray < threshold] of [applyThreshold] that threshold
    separates nothing: on any canvas whose same-size redraw returns the
    raster as it is, every cell is off at the returned threshold, whereas
    every threshold strictly between the modes, and 240 itself, turns on
    exactly the pixels of the lower mode. *)
Theorem calculateOtsuThreshold_lower_mode_blank :
  calculateOtsuThreshold two_level_raster = 10 ∧
  ¬ (10 < calculateOtsuThreshold two_level_raster
     ∧ calculateOtsuThreshold two_level_raster < 240) ∧
  (∀ canvas : Canvas,
     drawScaled two_level_raster 2 2 = two_level_raster →
     applyThreshold two_level_raster (calculateOtsuThreshold two_level_raster) 2
     = inr [false; false; false; false] ∧
     ∀ t, 10 < t <= 240 →
          applyThreshold two_level_raster t 2 = inr [true; false; false; true]) ∧
  @drawScaled BoxCanvas.canvas two_level_raster 2 2 = two_level_raster ∧
  @applyThreshold BoxCanvas.canvas two_level_raster
    (calculateOtsuThreshold two_level_raster) 2
  = inr [false; false; false; false].
Proof.
  assert (Ht : calculateOtsuThreshold two_level_raster = 10) by (vm_compute; reflexivity).
  assert (Hcells : ∀ (canvas : Canvas) t,
            drawScaled two_level_raster 2 2 = two_level_raster →
            applyThreshold two_level_raster t 2
            = inr [10 <? t; 240 <? t; 240 <? t; 10 <? t]).
  { intros canvas t Hsame. unfold applyThreshold. cbn [Nat.eqb]. cbv zeta.
    rewrite Hsame. reflexivity. }
  split; [exact Ht|]. split; [rewrite Ht; lia|]. split.
  - intros canvas Hsame. rewrite Ht, !Hcells by exact Hsame. split; [reflexivity|].
    intros t Hrange. rewrite Hcells by exact Hsame.
    replace (10 <? t) with true by (symmetry; apply Z.ltb_lt; lia).
    replace (240 <? t) with false by (symmetry; apply Z.ltb_ge; lia).
    reflexivity.
  - split; [vm_compute; reflexivity|].
    rewrite Ht. vm_compute. reflexivity.
Qed.

(** When exactly two bins [lo < hi] are populated, in a raster of fewer
    than 2^45 entries, every cut from [lo] up to [hi - 1] has the same
    computed variance and the first one wins: the result is the lower mode
    [lo] itself. *)
Theorem calculateOtsuThreshold_two_bins (imageData : ImageData) (lo hi : nat)
  (n1 n2 : Z) :
  Z.of_nat (length (data imageData)) < 2 ^ 45 →
  (lo < hi)%nat →
  build_histogram imageData !! lo = Some n1 →
  build_histogram imageData !! hi = Some n2 →
  0 < n1 → 0 < n2 →
  (∀ b z, b ≠ lo → b ≠ hi → build_histogram imageData !! b = Some z → z = 0) →
  calculateOtsuThreshold imageData = Z.of_nat lo.
Proof.
  intros Hsize Hlohi Hlo Hhi Hn1 Hn2 Hothers.
  pose proof (build_histogram_nonneg imageData) as Hpos.
  pose proof (build_histogram_length imageData) as Hlen.
  pose proof (build_histogram_total imageData) as Htot.
  unfold calculateOtsuThreshold.
  rewrite (two_bins_otsu _ lo hi n1 n2) by done.
  rewrite <- (two_bins_variance (build_histogram imageData) lo hi n1 n2
                Hlohi Hlo Hhi Hothers lo) by lia.
  rewrite variance_at_positive; try done; try lia.
  apply (two_bins_valid _ lo hi n1 n2); done || lia.
Qed.

Lemma two_level_others b z :
  b ≠ 10%nat → b ≠ 240%nat →
  build_histogram two_level_raster !! b = Some z → z = 0.
Proof.
  intros H10 H240.
  assert (Hh : build_histogram two_level_raster
               = <[10%nat := 2]> (<[240%nat := 2]> (replicate 256 0)))
    by (vm_compute; reflexivity).
  rewrite Hh, !list_lookup_insert_ne by done.
  intros [-> _]%lookup_replicate. done.
Qed.

Lemma calculateOtsuThreshold_two_bins_witness :
  Z.of_nat (length (data two_level_raster)) < 2 ^ 45 ∧
  (10 < 240)%nat ∧
  build_histogram two_level_raster !! 10%nat = Some 2 ∧
  build_histogram two_level_raster !! 240%nat = Some 2 ∧
  calculateOtsuThreshold two_level_raster = 10.
Proof.
  split; [vm_compute; reflexivity|].
  split; [lia|]. split; [reflexivity|]. split; [reflexivity|].
  apply (calculateOtsuThreshold_two_bins two_level_raster 10 240 2 2);
    [vm_compute; reflexivity|lia|reflexivity|reflexivity|lia|lia
    |exact two_level_others].
Defined.

(** ** The single-image pipeline *)

(** C1 (as stated): on this accepted file with no threshold supplied, the
    returned threshold is not what Otsu's method gives on the
    full-resolution grayscale raster. *)
Lemma processImage_full_resolution_counterexample :
  ∃ res,
    @processImage BoxCanvas.canvas (Some bimodal_file) 1 None = inr res ∧
    result_threshold res = 128 ∧
    calculateOtsuThreshold (convertImageDataToGrayscale bimodal_10_240) = 10.
Proof. eexists. split; [vm_compute; reflexivity|]. split; vm_compute; reflexivity. Qed.

(** C1 (amended): for an accepted file and no threshold supplied, the
    returned threshold is Otsu's threshold of the grayscale raster that
    [convertToGrayscale] produces at [gridSize] x [gridSize], the same raster
    that is returned and thresholded. *)
Theorem processImage_auto_threshold `{Canvas} (f : File) (img : ImageData)
  (gridSize : nat) :
  validateImageFile (Some f) = inr () →
  loadImage f = inr img →
  (1 ≤ gridSize)%nat →
  ∃ grayscaleData cells,
    convertToGrayscale img gridSize gridSize = inr grayscaleData ∧
    width grayscaleData = gridSize ∧ height grayscaleData = gridSize ∧
    applyThreshold grayscaleData (calculateOtsuThreshold grayscaleData) gridSize
    = inr cells ∧
    processImage (Some f) gridSize None
    = inr (mkProcessResult cells (calculateOtsuThreshold grayscaleData) grayscaleData).
Proof.
  intros Hvalid Hload Hg. unfold processImage. rewrite Hvalid. cbn [mbind result_bind].
  rewrite Hload. unfold convertToGrayscale.
  replace (gridSize =? 0)%nat with false by (symmetry; apply Nat.eqb_neq; lia).
  cbn [orb mbind result_bind].
  set (grayscaleData := mkImageData _ _ _).
  destruct (applyThreshold_strict grayscaleData (calculateOtsuThreshold grayscaleData)
              gridSize Hg) as (cells & Hcells & _).
  exists grayscaleData, cells. split; [done|].
  split; [apply drawScaled_width|]. split; [apply drawScaled_height|].
  split; [done|]. rewrite Hcells. done.
Qed.

Lemma processImage_auto_threshold_witness :
  validateImageFile (Some bimodal_file) = inr () ∧
  @loadImage bimodal_file = inr bimodal_10_240 ∧
  (1 ≤ 2)%nat ∧
  ∃ res, @processImage BoxCanvas.canvas (Some bimodal_file) 2 None = inr res ∧
         result_threshold res = calculateOtsuThreshold (imageData res).
Proof.
  split; [reflexivity|]. split; [reflexivity|]. split; [lia|].
  destruct (@processImage_auto_threshold BoxCanvas.canvas bimodal_file bimodal_10_240 2)
    as (grayscaleData & cells & _ & _ & _ & _ & Hres);
    [reflexivity|reflexivity|lia|].
  eexists. split; [exact Hres|]. reflexivity.
Defined.

(** ** Text export *)

Section TextExport.

Lemma row_ends_last q r g : (r + 1 = g)%nat → row_ends (q * g + r) g = true.
Proof.
  intros Hr. unfold row_ends.
  replace (g =? 0)%nat with false by (symmetry; apply Nat.eqb_neq; lia).
  replace (q * g + r + 1)%nat with ((q + 1) * g)%nat by lia.
  by rewrite Nat.Div0.mod_mul.
Qed.

Lemma row_ends_inner q r g : (r + 1 < g)%nat → row_ends (q * g + r) g = false.
Proof.
  intros Hr. unfold row_ends.
  replace (g =? 0)%nat with false by (symmetry; apply Nat.eqb_neq; lia).
  replace (q * g + r + 1)%nat with ((r + 1) + q * g)%nat by lia.
  rewrite Nat.Div0.mod_add, Nat.mod_small by lia.
  apply Nat.eqb_neq. lia.
Qed.

(** From column [r] of row [q] to the end of that row. *)
Lemma exportAsText_row g q : ∀ row r rest,
  row ≠ [] → (r + length row = g)%nat →
  exportAsText_from (q * g + r) (row ++ rest) g
  = text_line row ++ exportAsText_from ((q + 1) * g) rest g.
Proof.
  induction row as [|b row IH]; intros r rest Hne Hlen; [done|].
  cbn [app exportAsText_from]. destruct row as [|b' row].
  - simpl in Hlen. rewrite row_ends_last by lia.
    replace (S (q * g + r)) with ((q + 1) * g)%nat by lia. done.
  - simpl in Hlen. rewrite row_ends_inner by (simpl; lia).
    replace (S (q * g + r)) with (q * g + S r)%nat by lia.
    rewrite IH; [done|done|simpl; lia].
Qed.

Lemma exportAsText_rows g n : ∀ q grid,
  (1 ≤ g)%nat → length grid = (n * g)%nat →
  exportAsText_from (q * g) grid g = concat (text_line <$> rows_of n g grid).
Proof.
  induction n as [|n IH]; intros q grid Hg Hlen.
  - by destruct grid.
  - cbn [rows_of fmap list_fmap concat].
    rewrite <- (take_drop g grid) at 1.
    replace (q * g)%nat with (q * g + 0)%nat by lia.
    rewrite exportAsText_row.
    + f_equal. apply IH; [done|]. rewrite length_drop. lia.
    + intros Htake. apply (f_equal length) in Htake.
      rewrite length_take in Htake. simpl in Htake. lia.
    + rewrite length_take. lia.
Qed.

Lemma rows_of_shape g n : ∀ grid,
  length grid = (n * g)%nat →
  length (rows_of n g grid) = n ∧
  Forall (λ row, length row = g) (rows_of n g grid) ∧
  concat (rows_of n g grid) = grid.
Proof.
  induction n as [|n IH]; intros grid Hlen.
  - destruct grid; [done|]. simpl in Hlen. lia.
  - cbn [rows_of]. destruct (IH (drop g grid)) as (Hn & Hrows & Hcat).
    { rewrite length_drop. lia. }
    split; [simpl; lia|]. split.
    + constructor; [|done]. rewrite length_take. lia.
    + cbn [concat]. by rewrite Hcat, take_drop.
Qed.

Lemma rows_of_replicate g n b :
  rows_of n g (replicate (n * g) b) = replicate n (replicate g b).
Proof.
  induction n as [|n IH]; [done|].
  cbn [rows_of replicate]. f_equal.
  - rewrite take_replicate. f_equal. lia.
  - rewrite drop_replicate. replace (S n * g - g)%nat with (n * g)%nat by lia. done.
Qed.

End TextExport.

(** C9: for a grid of [gridSize * gridSize] cells, [gridSize >= 1], the
    exported text is [gridSize] lines, each the [gridSize] glyphs of a row
    followed by a line feed; a glyph is never a line feed; an all-false grid
    gives only the off glyph and an all-true grid only the on glyph. *)
Theorem exportAsText_lines (checkboxStates : list bool) (gridSize : nat) :
  (1 ≤ gridSize)%nat →
  length checkboxStates = (gridSize * gridSize)%nat →
  let rows := rows_of gridSize gridSize checkboxStates in
  exportAsText checkboxStates gridSize = concat (text_line <$> rows) ∧
  length rows = gridSize ∧
  Forall (λ row, length row = gridSize) rows ∧
  concat rows = checkboxStates ∧
  (∀ b, glyph b ≠ line_feed) ∧
  (checkboxStates = replicate (gridSize * gridSize) false →
   exportAsText checkboxStates gridSize
   = concat (replicate gridSize (replicate gridSize glyph_off ++ [line_feed]))) ∧
  (checkboxStates = replicate (gridSize * gridSize) true →
   exportAsText checkboxStates gridSize
   = concat (replicate gridSize (replicate gridSize glyph_on ++ [line_feed]))).
Proof.
  intros Hg Hlen rows.
  assert (Htext : exportAsText checkboxStates gridSize = concat (text_line <$> rows)).
  { unfold exportAsText. replace 0%nat with (0 * gridSize)%nat by lia.
    by apply exportAsText_rows. }
  destruct (rows_of_shape gridSize gridSize checkboxStates Hlen) as (Hn & Hrows & Hcat).
  split; [done|]. split; [done|]. split; [done|]. split; [done|].
  split; [by intros []|].
  split; intros Hall; rewrite Htext; subst rows; rewrite Hall, rows_of_replicate,
    fmap_replicate; unfold text_line; by rewrite fmap_replicate.
Qed.

Lemma exportAsText_lines_witness :
  (1 ≤ 2)%nat ∧ length [true; false; false; true] = (2 * 2)%nat ∧
  exportAsText [true; false; false; true] 2
  = [glyph_on; glyph_off; line_feed; glyph_off; glyph_on; line_feed].
Proof.
  split; [lia|]. split; [reflexivity|].
  destruct (exportAsText_lines [true; false; false; true] 2) as (Htext & _);
    [lia|reflexivity|].
  rewrite Htext. reflexivity.
Defined.

(** ** The GIF pipeline *)

Section MapM.

Lemma mapM_result_inr {A B} (f : A → result B) (l : list A) (ys : list B) :
  mapM f l = inr ys → Forall2 (λ x y, f x = inr y) l ys.
Proof.
  revert ys. induction l as [|x l IH]; intros ys.
  - intros [= <-]. constructor.
  - change (mapM f (x :: l)) with (y ← f x; k ← mapM f l; mret (y :: k)).
    destruct (f x) as [e|y] eqn:Hx; [done|].
    destruct (mapM f l) as [e|k]; [done|].
    intros [= <-]. constructor; [done|]. by apply IH.
Qed.

Lemma mapM_result_total {A B} (f : A → result B) (l : list A) :
  (∀ x, ∃ y, f x = inr y) → ∃ ys, mapM f l = inr ys ∧ length ys = length l.
Proof.
  intros Hf. induction l as [|x l (ys & Hys & Hlen)].
  - by exists [].
  - destruct (Hf x) as [y Hy]. exists (y :: ys).
    change (mapM f (x :: l)) with (y ← f x; k ← mapM f l; mret (y :: k)).
    rewrite Hy, Hys. split; [done|]. simpl. lia.
Qed.

End MapM.

(** [gifProcessor.processGIF] validates before anything else. *)
Lemma GifProcessor_validates_first `{Canvas}
  (extractGIFrames : File → result (list GIFFrame)) gifFile gridSize threshold e :
  GifProcessor.validateGIF gifFile = inl e →
  GifProcessor.processGIF extractGIFrames gifFile gridSize threshold = inl e.
Proof. intros Hv. unfold GifProcessor.processGIF. by rewrite Hv. Qed.

Lemma validateGIF_kinds :
  GifProcessor.validateGIF None = inl (ImageProcessingError NO_FILE) ∧
  (∀ f, type f ≠ "image/gif"%string →
        GifProcessor.validateGIF (Some f) = inl (ImageProcessingError UNSUPPORTED_FORMAT)) ∧
  (∀ f, type f = "image/gif"%string → 50 * 1024 * 1024 < size f →
        GifProcessor.validateGIF (Some f) = inl (ImageProcessingError FILE_TOO_LARGE)).
Proof.
  split; [done|]. split.
  - intros f Hty. unfold GifProcessor.validateGIF, includes.
    rewrite bool_decide_eq_false_2; [done|].
    unfold GIF_CONFIG.SUPPORTED_FORMATS. rewrite list_elem_of_singleton. done.
  - intros f Hty Hsize. unfold GifProcessor.validateGIF, includes.
    rewrite bool_decide_eq_true_2.
    + cbn [negb]. by replace (50 * 1024 * 1024 <? size f) with true
        by (symmetry; apply Z.ltb_lt; lia).
    + rewrite Hty. unfold GIF_CONFIG.SUPPORTED_FORMATS. apply list_elem_of_singleton. done.
Qed.

(** Whatever the declared type and the size of the file, the hook stores
    15 frames as soon as the browser decodes an image from it. *)
Lemma useAnimatedGIF_processGIF_frames `{Canvas} (waveEffect : ImageData → nat → ImageData)
  st (f : File) (img : ImageData) (gridSize : nat) (threshold : Z) :
  decoded f = Some img → width img ≠ 0%nat → height img ≠ 0%nat →
  (1 ≤ gridSize)%nat →
  ∃ stored,
    snd (UseAnimatedGIF.processGIF waveEffect st (Some f) gridSize threshold) = inr stored ∧
    UseAnimatedGIF.frames
      (fst (UseAnimatedGIF.processGIF waveEffect st (Some f) gridSize threshold)) = stored ∧
    length stored = 15%nat.
Proof.
  intros Hdec Hw Hh Hg. unfold UseAnimatedGIF.processGIF, GifFrameExtractor.extractGIFrames.
  rewrite Hdec.
  replace (width img =? 0)%nat with false by (symmetry; apply Nat.eqb_neq; lia).
  replace (height img =? 0)%nat with false by (symmetry; apply Nat.eqb_neq; lia).
  cbn [orb mbind result_bind].
  destruct (mapM_result_total (UseAnimatedGIF.processFrame gridSize threshold)
              (map (GifFrameExtractor.extractFrame waveEffect img)
                 (seq 0 GifFrameExtractor.frameCount))) as (stored & Hstored & Hlen).
  { intros frame. unfold UseAnimatedGIF.processFrame.
    destruct (applyThreshold_strict
                (convertImageDataToGrayscale (frame_imageData frame)) threshold gridSize Hg)
      as (cells & -> & _).
    eexists. reflexivity. }
  rewrite Hstored. exists stored. cbn [fst snd UseAnimatedGIF.frames].
  split; [done|]. split; [done|]. by rewrite Hlen, length_map, length_seq.
Qed.

(** C8 (the code at a failing input): the hook's [processGIF] never
    validates.  A GIF of 60 MB, which [validateGIF] rejects with
    [FILE_TOO_LARGE], is decoded and yields 15 stored frames; no file at all
    fails with the browser's [TypeError], not with [NO_FILE]; a PNG yields
    15 frames as well. *)
Theorem useAnimatedGIF_processGIF_unvalidated :
  let run file :=
    @UseAnimatedGIF.processGIF BoxCanvas.canvas (λ img _, img)
      UseAnimatedGIF.initial file 2 128 in
  GifProcessor.validateGIF (Some large_gif) = inl (ImageProcessingError FILE_TOO_LARGE) ∧
  (∃ stored, snd (run (Some large_gif)) = inr stored ∧ length stored = 15%nat ∧
             UseAnimatedGIF.frames (fst (run (Some large_gif))) = stored) ∧
  snd (run None) = inl TypeError ∧
  (∃ stored, snd (run (Some bimodal_file)) = inr stored ∧ length stored = 15%nat).
Proof.
  intros run. split; [reflexivity|]. split; [|split].
  - destruct (@useAnimatedGIF_processGIF_frames BoxCanvas.canvas (λ img _, img)
                UseAnimatedGIF.initial large_gif bimodal_10_240 2 128)
      as (stored & Hs & Hf & Hl); [reflexivity|done|done|lia|].
    exists stored. done.
  - reflexivity.
  - destruct (@useAnimatedGIF_processGIF_frames BoxCanvas.canvas (λ img _, img)
                UseAnimatedGIF.initial bimodal_file bimodal_10_240 2 128)
      as (stored & Hs & Hf & Hl); [reflexivity|done|done|lia|].
    exists stored. done.
Qed.

(** ** Stored frames and playback *)

Section StoredFrames.
Context `{Canvas}.
Variable waveEffect : ImageData → nat → ImageData.

Lemma extractor_delays_check :
  forallb (λ d, (0 <? d) && negb (d =? 0) && normal_from_8 (JS.ofZ d)) extractor_delays
  = true.
Proof. vm_compute. reflexivity. Qed.

Lemma extractFrame_delay img i :
  (i < GifFrameExtractor.frameCount)%nat →
  ∃ d, frame_delay (GifFrameExtractor.extractFrame waveEffect img i) = Some d ∧
       d ∈ extractor_delays.
Proof.
  intros Hi. eexists. split; [reflexivity|].
  unfold extractor_delays. apply list_elem_of_fmap. exists i. split; [done|].
  apply elem_of_seq. lia.
Qed.

Lemma processFrame_delay gridSize threshold frame stored :
  UseAnimatedGIF.processFrame gridSize threshold frame = inr stored →
  delay stored = UseAnimatedGIF.delay_or_default (frame_delay frame).
Proof.
  unfold UseAnimatedGIF.processFrame.
  destruct (applyThreshold _ _ _); [done|]. by intros [= <-].
Qed.

Lemma stored_frame_delay st file gridSize threshold st' stored frame :
  UseAnimatedGIF.processGIF waveEffect st file gridSize threshold = (st', inr stored) →
  frame ∈ stored →
  UseAnimatedGIF.frames st' = stored ∧ delay frame ∈ extractor_delays.
Proof.
  unfold UseAnimatedGIF.processGIF, GifFrameExtractor.extractGIFrames.
  intros Hrun Hin.
  destruct file as [f|]; [|done].
  destruct (decoded f) as [img|]; [|done].
  destruct ((width img =? 0)%nat || (height img =? 0)%nat); [done|].
  cbn [mbind result_bind] in Hrun.
  destruct (mapM _ _) as [e|processed] eqn:Hmap; [done|].
  injection Hrun as <- <-. split; [done|].
  apply mapM_result_inr in Hmap.
  apply list_elem_of_lookup in Hin as [k Hk].
  destruct (Forall2_lookup_r _ _ _ _ _ Hmap Hk) as (x & Hx & Hproc).
  rewrite list_lookup_fmap in Hx.
  destruct (seq 0 GifFrameExtractor.frameCount !! k) as [i|] eqn:Hi; [|done].
  injection Hx as <-. apply lookup_seq in Hi as [Hik Hi]. simpl in Hik. subst i.
  rewrite (processFrame_delay _ _ _ _ Hproc).
  destruct (extractFrame_delay img k Hi) as (d & -> & Hd).
  pose proof extractor_delays_check as Hall. rewrite forallb_forall in Hall.
  specialize (Hall d (proj1 (list_elem_of_In _ _) Hd)).
  apply andb_true_iff in Hall as [Hall _]. apply andb_true_iff in Hall as [_ Hnz].
  unfold UseAnimatedGIF.delay_or_default.
  by destruct (d =? 0).
Qed.

End StoredFrames.

(** C10: every frame that [processGIF] stores has a strictly positive
    delay; a missing or zero delay of an extracted frame becomes 100; and
    for every positive finite speed the advance threshold
    [delay / playbackSpeed] of a stored frame is strictly positive. *)
Theorem processGIF_delay_positive `{Canvas} (waveEffect : ImageData → nat → ImageData)
  st file gridSize threshold st' stored :
  UseAnimatedGIF.processGIF waveEffect st file gridSize threshold = (st', inr stored) →
  UseAnimatedGIF.frames st' = stored ∧
  (∀ extracted processed,
     UseAnimatedGIF.processFrame gridSize threshold extracted = inr processed →
     frame_delay extracted = None ∨ frame_delay extracted = Some 0 →
     delay processed = 100) ∧
  ∀ frame, frame ∈ stored →
    0 < delay frame ∧
    ∀ speed,
      PrimFloat.ltb 0 speed = true → PrimFloat.ltb speed infinity = true →
      PrimFloat.ltb 0 (UseAnimatedGIF.frameDelay frame speed) = true.
Proof.
  intros Hrun. split; [|split].
  - unfold UseAnimatedGIF.processGIF in Hrun.
    destruct (_ ≫= _) as [e|processed]; [done|]. by injection Hrun as <- <-.
  - intros extracted processed Hproc Hmissing.
    rewrite (processFrame_delay _ _ _ _ Hproc).
    by destruct Hmissing as [-> | ->].
  - intros frame Hin.
    destruct (stored_frame_delay waveEffect _ _ _ _ _ _ frame Hrun Hin) as [_ Hd].
    pose proof extractor_delays_check as Hall. rewrite forallb_forall in Hall.
    specialize (Hall _ (proj1 (list_elem_of_In _ _) Hd)).
    apply andb_true_iff in Hall as [Hall Hnormal].
    apply andb_true_iff in Hall as [Hpos _]. apply Z.ltb_lt in Hpos.
    split; [done|]. intros speed Hs Hfin.
    by apply quotient_positive.
Qed.

Lemma processGIF_delay_positive_witness :
  ∃ st' stored,
    @UseAnimatedGIF.processGIF BoxCanvas.canvas (λ img _, img) UseAnimatedGIF.initial
      (Some small_gif) 2 128 = (st', inr stored) ∧
    ∀ frame, frame ∈ stored → 0 < delay frame.
Proof.
  destruct (@UseAnimatedGIF.processGIF BoxCanvas.canvas (λ img _, img)
              UseAnimatedGIF.initial (Some small_gif) 2 128) as [st' [e|stored]] eqn:Hrun.
  - exfalso.
    destruct (@useAnimatedGIF_processGIF_frames BoxCanvas.canvas (λ img _, img)
                UseAnimatedGIF.initial small_gif bimodal_10_240 2 128)
      as (stored & Hs & _); [reflexivity|done|done|lia|].
    rewrite Hrun in Hs. discriminate Hs.
  - exists st', stored. split; [reflexivity|].
    intros frame Hin.
    destruct (@processGIF_delay_positive BoxCanvas.canvas (λ img _, img)
                UseAnimatedGIF.initial (Some small_gif) 2 128 st' stored Hrun)
      as (_ & _ & Hall).
    exact (proj1 (Hall frame Hin)).
Defined.

(** The advance rule of a running loop, with the speed that its [animate]
    closure captured when [startAnimation] was called: for the frame at the
    current index, when the elapsed time is below [frame.delay /
    playbackSpeed] the index and the timestamp are left as they are; when it
    is at least that, the index advances by one modulo the number of frames
    (from the last frame to 0) and the timestamp becomes [currentTime].
    Doubling the speed halves the threshold of the same frame, exactly. *)
Theorem animate_tick (loop : UseAnimatedGIF.AnimationLoop)
  (st : UseAnimatedGIF.HookState) (currentTime : float) (handle : nat)
  (frame : ProcessedFrame) :
  UseAnimatedGIF.loop_frames loop !! UseAnimatedGIF.currentFrameRef st = Some frame →
  let threshold :=
    UseAnimatedGIF.frameDelay frame (UseAnimatedGIF.loop_playbackSpeed loop) in
  let elapsed := (currentTime - UseAnimatedGIF.lastFrameTimeRef st)%float in
  let frameCount := length (UseAnimatedGIF.loop_frames loop) in
  let nextFrame := ((UseAnimatedGIF.currentFrameRef st + 1) mod frameCount)%nat in
  (PrimFloat.ltb elapsed threshold = true →
   ∃ st', UseAnimatedGIF.animate loop st currentTime handle = Some st' ∧
     UseAnimatedGIF.currentFrameRef st' = UseAnimatedGIF.currentFrameRef st ∧
     UseAnimatedGIF.currentFrame st' = UseAnimatedGIF.currentFrame st ∧
     UseAnimatedGIF.lastFrameTimeRef st' = UseAnimatedGIF.lastFrameTimeRef st ∧
     UseAnimatedGIF.isPlaying st' = UseAnimatedGIF.isPlaying st ∧
     UseAnimatedGIF.playbackSpeed st' = UseAnimatedGIF.playbackSpeed st ∧
     UseAnimatedGIF.frames st' = UseAnimatedGIF.frames st) ∧
  (PrimFloat.leb threshold elapsed = true →
   ∃ st', UseAnimatedGIF.animate loop st currentTime handle = Some st' ∧
     UseAnimatedGIF.currentFrameRef st' = nextFrame ∧
     UseAnimatedGIF.currentFrame st' = nextFrame ∧
     UseAnimatedGIF.lastFrameTimeRef st' = currentTime ∧
     UseAnimatedGIF.isPlaying st' = UseAnimatedGIF.isPlaying st ∧
     UseAnimatedGIF.playbackSpeed st' = UseAnimatedGIF.playbackSpeed st ∧
     UseAnimatedGIF.frames st' = UseAnimatedGIF.frames st) ∧
  ((UseAnimatedGIF.currentFrameRef st + 1 < frameCount)%nat →
   nextFrame = (UseAnimatedGIF.currentFrameRef st + 1)%nat) ∧
  ((UseAnimatedGIF.currentFrameRef st + 1 = frameCount)%nat → nextFrame = 0%nat) ∧
  (∀ speed,
     moderate (JS.ofZ (delay frame)) = true → moderate speed = true →
     UseAnimatedGIF.frameDelay frame (2 * speed)
     = (UseAnimatedGIF.frameDelay frame speed / 2)%float).
Proof.
  intros Hframe threshold elapsed frameCount nextFrame.
  split; [|split; [|split; [|split]]].
  - intros Hlt. unfold UseAnimatedGIF.animate. rewrite Hframe.
    fold threshold elapsed. rewrite (ltb_not_leb _ _ Hlt).
    eexists. split; [reflexivity|]. done.
  - intros Hge. unfold UseAnimatedGIF.animate. rewrite Hframe.
    fold threshold elapsed. rewrite Hge.
    eexists. split; [reflexivity|]. done.
  - intros Hlt. subst nextFrame. by apply Nat.mod_small.
  - intros Heq. subst nextFrame. rewrite Heq. apply Nat.Div0.mod_same.
  - intros speed Hd Hs. unfold UseAnimatedGIF.frameDelay. by apply quotient_doubling.
Qed.

Lemma animate_tick_witness :
  three_frames !! 2%nat = Some (mkProcessedFrame (gray_raster 1 1 [0]) 100 2 [true]) ∧
  (∃ st', UseAnimatedGIF.animate (UseAnimatedGIF.mkLoop three_frames 1) playing_last
            1100 1 = Some st' ∧
          UseAnimatedGIF.currentFrameRef st' = 0%nat ∧
          UseAnimatedGIF.lastFrameTimeRef st' = 1100%float) ∧
  (∃ st', UseAnimatedGIF.animate (UseAnimatedGIF.mkLoop three_frames 1) playing_last
            1099 1 = Some st' ∧
          UseAnimatedGIF.currentFrameRef st' = 2%nat ∧
          UseAnimatedGIF.lastFrameTimeRef st' = 1000%float) ∧
  (100 / (2 * 1.5) = 100 / 1.5 / 2)%float.
Proof.
  split; [reflexivity|].
  pose proof (animate_tick (UseAnimatedGIF.mkLoop three_frames 1) playing_last 1100 1
                _ eq_refl) as (_ & Hadvance & _).
  pose proof (animate_tick (UseAnimatedGIF.mkLoop three_frames 1) playing_last 1099 1
                _ eq_refl) as (Hwait & _ & _ & _ & Hdouble).
  split; [|split].
  - destruct Hadvance as (st' & Hst & Hi & _ & Ht & _); [reflexivity|].
    exists st'. split; [exact Hst|]. split; [exact Hi|exact Ht].
  - destruct Hwait as (st' & Hst & Hi & _ & Ht & _); [reflexivity|].
    exists st'. split; [exact Hst|]. split; [exact Hi|exact Ht].
  - exact (Hdouble 1.5%float eq_refl eq_refl).
Defined.

(** [setSpeed] changes the speed of the hook state only: the loop that is
    running decides as before. *)
Lemma animate_ignores_setSpeed (loop : UseAnimatedGIF.AnimationLoop)
  (st : UseAnimatedGIF.HookState) (speed currentTime : float) (handle : nat) :
  UseAnimatedGIF.animate loop (UseAnimatedGIF.setSpeed st speed) currentTime handle
  = (λ st', UseAnimatedGIF.setSpeed st' speed)
    <$> UseAnimatedGIF.animate loop st currentTime handle.
Proof.
  unfold UseAnimatedGIF.animate, UseAnimatedGIF.setSpeed. cbn.
  destruct (UseAnimatedGIF.loop_frames loop !! UseAnimatedGIF.currentFrameRef st);
    [|done].
  by destruct (PrimFloat.leb _ _).
Qed.

(** C4 (the code at the failing input): playback of three frames of 100 ms
    is started at time 0 with speed 1, and the speed is then set to 2.  At
    time 60 the state is playing, its speed is 2 and the elapsed time has
    reached [frame.delay / playbackSpeed] = 50; the tick of the running
    loop still divides by the speed 1 that it captured, and leaves the
    index and the timestamp as they are. *)
Theorem animate_stale_speed :
  ∃ playing loop faster after frame,
    UseAnimatedGIF.startAnimation loaded_three 0 1 = (playing, Some loop) ∧
    faster = UseAnimatedGIF.setSpeed playing 2 ∧
    UseAnimatedGIF.isPlaying faster = true ∧
    UseAnimatedGIF.playbackSpeed faster = 2%float ∧
    UseAnimatedGIF.frames faster !! UseAnimatedGIF.currentFrameRef faster = Some frame ∧
    PrimFloat.leb
      (UseAnimatedGIF.frameDelay frame (UseAnimatedGIF.playbackSpeed faster))
      (60 - UseAnimatedGIF.lastFrameTimeRef faster) = true ∧
    UseAnimatedGIF.animate loop faster 60 2 = Some after ∧
    UseAnimatedGIF.currentFrameRef after = 0%nat ∧
    UseAnimatedGIF.currentFrame after = 0%nat ∧
    UseAnimatedGIF.lastFrameTimeRef after = 0%float.
Proof.
  eexists _, _, _, _, _.
  split; [reflexivity|]. split; [reflexivity|]. split; [reflexivity|].
  split; [reflexivity|]. split; [reflexivity|]. split; [vm_compute; reflexivity|].
  split; [vm_compute; reflexivity|]. done.
Qed.

(** * Further properties of the pipeline *)

(** ** Validation of the uploaded file *)

(** [validateImageFile] accepts exactly the files of one of the four
    supported types whose size is at most 10 MB (a file of exactly
    10 * 1024 * 1024 bytes passes).  The type is checked before the size:
    an unsupported type is reported whatever the size. *)
Theorem validateImageFile_accepts (file : option File) :
  (validateImageFile file = inr () ↔
   ∃ f, file = Some f ∧
        type f ∈ ["image/jpeg"; "image/png"; "image/gif"; "image/webp"]%string ∧
        size f <= 10485760) ∧
  (file = None → validateImageFile file = inl (ImageProcessingError NO_FILE)) ∧
  (∀ f, file = Some f →
        type f ∉ ["image/jpeg"; "image/png"; "image/gif"; "image/webp"]%string →
        validateImageFile file = inl (ImageProcessingError UNSUPPORTED_FORMAT)) ∧
  (∀ f, file = Some f →
        type f ∈ ["image/jpeg"; "image/png"; "image/gif"; "image/webp"]%string →
        10485760 < size f →
        validateImageFile file = inl (ImageProcessingError FILE_TOO_LARGE)).
Proof.
  unfold validateImageFile, includes, PROCESSING_CONFIG.SUPPORTED_FORMATS,
    PROCESSING_CONFIG.MAX_FILE_SIZE.
  change (10 * 1024 * 1024) with 10485760.
  split; [|split; [by intros ->|split]].
  - split.
    + destruct file as [f|]; [|done]. intros Hok. exists f. split; [done|].
      destruct (bool_decide_reflect
                  (type f ∈ ["image/jpeg"; "image/png"; "image/gif"; "image/webp"]%string))
        as [Hty|Hty]; cbn [negb] in Hok; [|done].
      split; [done|]. destruct (Z.ltb_spec 10485760 (size f)); [done|lia].
    + intros (f & -> & Hty & Hsize).
      rewrite bool_decide_eq_true_2 by done. cbn [negb].
      by replace (10485760 <? size f) with false by (symmetry; apply Z.ltb_ge; lia).
  - intros f -> Hty. by rewrite bool_decide_eq_false_2.
  - intros f -> Hty Hsize. rewrite bool_decide_eq_true_2 by done. cbn [negb].
    by replace (10485760 <? size f) with true by (symmetry; apply Z.ltb_lt; lia).
Qed.

(** [loadImage] resolves exactly when the browser decodes the file to an
    image whose width and height are both between 10 and 1000; a file that
    does not decode gives [LOAD_ERROR]; the lower bound is checked first, so
    an image too small in one direction and too large in the other is
    reported as too small. *)
Theorem loadImage_accepts (file : File) :
  (∀ img, loadImage file = inr img ↔
          decoded file = Some img ∧
          (10 ≤ width img ≤ 1000)%nat ∧ (10 ≤ height img ≤ 1000)%nat) ∧
  (decoded file = None → loadImage file = inl (ImageProcessingError LOAD_ERROR)) ∧
  (∀ img, decoded file = Some img →
          (width img < 10)%nat ∨ (height img < 10)%nat →
          loadImage file = inl (ImageProcessingError IMAGE_TOO_SMALL)) ∧
  (∀ img, decoded file = Some img →
          (10 ≤ width img)%nat → (10 ≤ height img)%nat →
          (1000 < width img)%nat ∨ (1000 < height img)%nat →
          loadImage file = inl (ImageProcessingError IMAGE_TOO_LARGE)).
Proof.
  unfold loadImage, PROCESSING_CONFIG.MIN_DIMENSION, PROCESSING_CONFIG.MAX_DIMENSION.
  split; [|split; [by intros ->|split]].
  - intros img. split.
    + destruct (decoded file) as [img'|]; [|done].
      destruct (Z.ltb_spec (Z.of_nat (width img')) 10),
        (Z.ltb_spec (Z.of_nat (height img')) 10); cbn [orb]; try done.
      destruct (Z.ltb_spec 1000 (Z.of_nat (width img'))),
        (Z.ltb_spec 1000 (Z.of_nat (height img'))); cbn [orb]; try done.
      intros [= <-]. split; [done|]. lia.
    + intros (-> & Hw & Hh).
      replace (Z.of_nat (width img) <? 10) with false by (symmetry; apply Z.ltb_ge; lia).
      replace (Z.of_nat (height img) <? 10) with false by (symmetry; apply Z.ltb_ge; lia).
      replace (1000 <? Z.of_nat (width img)) with false by (symmetry; apply Z.ltb_ge; lia).
      replace (1000 <? Z.of_nat (height img)) with false by (symmetry; apply Z.ltb_ge; lia).
      done.
  - intros img -> Hsmall.
    destruct (Z.ltb_spec (Z.of_nat (width img)) 10),
      (Z.ltb_spec (Z.of_nat (height img)) 10); cbn [orb]; try done. lia.
  - intros img -> Hw Hh Hlarge.
    replace (Z.of_nat (width img) <? 10) with false by (symmetry; apply Z.ltb_ge; lia).
    replace (Z.of_nat (height img) <? 10) with false by (symmetry; apply Z.ltb_ge; lia).
    cbn [orb].
    destruct (Z.ltb_spec 1000 (Z.of_nat (width img))),
      (Z.ltb_spec 1000 (Z.of_nat (height img))); cbn [orb]; try done. lia.
Qed.

(** ** The canvas conversion and the pipeline *)

Section InPlaceLoop.

Lemma grayscale_step_inplace_middle done r g b a rest :
  grayscale_step_inplace (done ++ r :: g :: b :: a :: rest) (length done)
  = done ++ gray_of r g b :: gray_of r g b :: gray_of r g b :: a :: rest.
Proof.
  unfold grayscale_step_inplace.
  pose proof (get_middle done (r :: g :: b :: a :: rest) 0) as G0.
  rewrite Nat.add_0_r in G0. rewrite G0, !get_middle.
  pose proof (λ x zs', insert_middle done zs' (length done) 0 x eq_refl) as I0.
  setoid_rewrite Nat.add_0_r in I0.
  rewrite I0, !insert_middle by lia. done.
Qed.

Lemma grayscale_loop_inplace_pixels k : ∀ fuel done suf,
  length suf = (4 * k)%nat → (k ≤ fuel)%nat → Forall (λ v, 0 <= v <= 255) suf →
  grayscale_loop_inplace fuel (done ++ suf) (length done) = done ++ gray_pixels suf.
Proof.
  induction k as [|k IH]; intros fuel done suf Hsuf Hfuel Hbytes.
  - destruct suf; [|done]. rewrite !app_nil_r.
    destruct fuel; simpl; [done|]. by rewrite Nat.ltb_irrefl.
  - destruct suf as [|r [|g [|b [|a rest]]]]; simpl in Hsuf; try lia.
    destruct fuel as [|fuel]; [lia|].
    do 3 apply Forall_cons in Hbytes as [_ Hbytes].
    apply Forall_cons in Hbytes as [Ha Hbytes].
    cbn [grayscale_loop_inplace gray_pixels].
    replace (length done <? length (done ++ r :: g :: b :: a :: rest))%nat with true.
    2:{ symmetry. apply Nat.ltb_lt. rewrite length_app. simpl. lia. }
    rewrite grayscale_step_inplace_middle, (ToUint8Clamp_byte a Ha).
    replace (done ++ gray_of r g b :: gray_of r g b :: gray_of r g b :: a :: rest)
      with ((done ++ [gray_of r g b; gray_of r g b; gray_of r g b; a]) ++ rest)
      by (by rewrite <- app_assoc).
    replace (length done + 4)%nat
      with (length (done ++ [gray_of r g b; gray_of r g b; gray_of r g b; a]))
      by (rewrite length_app; simpl; lia).
    rewrite IH by (done || lia). by rewrite <- app_assoc.
Qed.

Lemma gray_pixels_gray data : gray_data (gray_pixels data).
Proof.
  remember (length data) as n eqn:Hn. revert data Hn.
  induction n as [n IH] using lt_wf_ind. intros data ->.
  destruct data as [|r [|g [|b [|a rest]]]]; try done.
  cbn [gray_pixels gray_data]. split; [done|]. split; [done|].
  apply (IH (length rest)); [simpl; lia|done].
Qed.

Lemma gray_pixels_bytes data : Forall (λ v, 0 <= v <= 255) (gray_pixels data).
Proof.
  remember (length data) as n eqn:Hn. revert data Hn.
  induction n as [n IH] using lt_wf_ind. intros data ->.
  destruct data as [|r [|g [|b [|a rest]]]]; try by constructor.
  cbn [gray_pixels]. repeat (apply Forall_cons; split; [apply ToUint8Clamp_range|]).
  apply (IH (length rest)); [simpl; lia|done].
Qed.

Lemma convertImageDataToGrayscale_wf imageData :
  wf_ImageData imageData →
  wf_ImageData (convertImageDataToGrayscale imageData) ∧
  gray_data (data (convertImageDataToGrayscale imageData)).
Proof.
  intros [Hlen Hbytes]. rewrite convertImageDataToGrayscale_pixels by done.
  unfold wf_ImageData. cbn [data width height].
  split; [|apply gray_pixels_gray].
  split; [by apply gray_pixels_length|apply gray_pixels_bytes].
Qed.

End InPlaceLoop.

Lemma convertToGrayscale_drawn `{Canvas} (img : ImageData) (targetWidth targetHeight : nat) :
  (1 ≤ targetWidth)%nat → (1 ≤ targetHeight)%nat →
  convertToGrayscale img targetWidth targetHeight
  = inr (convertImageDataToGrayscale (drawScaled img targetWidth targetHeight)).
Proof.
  intros Hw Hh. unfold convertToGrayscale.
  replace (targetWidth =? 0)%nat with false by (symmetry; apply Nat.eqb_neq; lia).
  replace (targetHeight =? 0)%nat with false by (symmetry; apply Nat.eqb_neq; lia).
  cbn [orb]. f_equal.
  destruct (drawScaled_wf img targetWidth targetHeight) as [Hlen Hbytes].
  rewrite convertImageDataToGrayscale_pixels by done. f_equal.
  apply (grayscale_loop_inplace_pixels
           (width (drawScaled img targetWidth targetHeight)
            * height (drawScaled img targetWidth targetHeight)) _ []); [done|lia|done].
Qed.

(** [convertToGrayscale], which overwrites the pixels of the canvas in
    place, gives what [convertImageDataToGrayscale], which writes into a
    fresh raster, gives on the drawn pixels: a well-formed raster of the
    target size in which every pixel has R = G = B.  A target width or
    height of 0 is rejected with [GRAYSCALE_ERROR]. *)
Theorem convertToGrayscale_canvas `{Canvas} (img : ImageData)
  (targetWidth targetHeight : nat) :
  (targetWidth = 0%nat ∨ targetHeight = 0%nat →
   convertToGrayscale img targetWidth targetHeight
   = inl (ImageProcessingError GRAYSCALE_ERROR)) ∧
  ((1 ≤ targetWidth)%nat → (1 ≤ targetHeight)%nat →
   ∃ out,
     convertToGrayscale img targetWidth targetHeight = inr out ∧
     out = convertImageDataToGrayscale (drawScaled img targetWidth targetHeight) ∧
     width out = targetWidth ∧ height out = targetHeight ∧
     wf_ImageData out ∧ gray_data (data out)).
Proof.
  split.
  - unfold convertToGrayscale. intros [-> | ->]; [done|].
    by rewrite orb_true_r.
  - intros Hw Hh. eexists. split; [by apply convertToGrayscale_drawn|].
    split; [done|].
    pose proof (drawScaled_wf img targetWidth targetHeight) as Hwf.
    destruct (convertImageDataToGrayscale_wf _ Hwf) as [Hwf' Hgray].
    split; [apply drawScaled_width|]. split; [apply drawScaled_height|]. done.
Qed.

Lemma applyThreshold_cells `{Canvas} (imageData : ImageData) (threshold : Z)
  (gridSize : nat) :
  (1 ≤ gridSize)%nat →
  applyThreshold imageData threshold gridSize
  = inr ((λ gray, gray <? threshold)
         <$> red_entries (data (drawScaled imageData gridSize gridSize))) ∧
  length (red_entries (data (drawScaled imageData gridSize gridSize)))
  = (gridSize * gridSize)%nat.
Proof.
  intros Hg. unfold applyThreshold.
  replace (gridSize =? 0)%nat with false by (symmetry; apply Nat.eqb_neq; lia).
  destruct (drawScaled_wf imageData gridSize gridSize) as [Hlen _].
  rewrite drawScaled_width, drawScaled_height in Hlen.
  pose proof (threshold_loop_pixels (gridSize * gridSize)
                (length (data (drawScaled imageData gridSize gridSize))) []
                (data (drawScaled imageData gridSize gridSize)) threshold []
                Hlen ltac:(lia)) as Hloop.
  cbn [app length] in Hloop. rewrite Hloop.
  split; [done|]. by apply red_entries_length.
Qed.

(** [processImage] resolves exactly when the file passes
    [validateImageFile], the image passes [loadImage] and the grid size is
    at least 1; otherwise it rejects with the error of the first stage that
    fails, a grid size of 0 giving [GRAYSCALE_ERROR]. *)
Theorem processImage_succeeds `{Canvas} (file : option File) (gridSize : nat)
  (threshold : option Z) :
  ((∃ res, processImage file gridSize threshold = inr res) ↔
   ∃ f img, file = Some f ∧ validateImageFile file = inr () ∧
            loadImage f = inr img ∧ (1 ≤ gridSize)%nat) ∧
  (∀ e, validateImageFile file = inl e →
        processImage file gridSize threshold = inl e) ∧
  (∀ f e, file = Some f → validateImageFile file = inr () → loadImage f = inl e →
          processImage file gridSize threshold = inl e) ∧
  (∀ f img, file = Some f → validateImageFile file = inr () → loadImage f = inr img →
            gridSize = 0%nat →
            processImage file gridSize threshold
            = inl (ImageProcessingError GRAYSCALE_ERROR)).
Proof.
  assert (Hok : ∀ f img, file = Some f → validateImageFile file = inr () →
                  loadImage f = inr img → (1 ≤ gridSize)%nat →
                  ∃ res, processImage file gridSize threshold = inr res).
  { intros f img -> Hv Hl Hg. unfold processImage. rewrite Hv. cbn [mbind result_bind].
    rewrite Hl. cbn [mbind result_bind].
    rewrite convertToGrayscale_drawn by done. cbn [mbind result_bind].
    destruct (applyThreshold_cells
                (convertImageDataToGrayscale (drawScaled img gridSize gridSize))
                match threshold with
                | Some t => t
                | None => calculateOtsuThreshold
                            (convertImageDataToGrayscale (drawScaled img gridSize gridSize))
                end gridSize Hg) as [-> _].
    eexists. reflexivity. }
  split; [split|split; [|split]].
  - intros [res Hres]. unfold processImage in Hres.
    destruct (validateImageFile file) as [e|[]] eqn:Hv; [done|].
    cbn [mbind result_bind] in Hres. destruct file as [f|]; [|done].
    destruct (loadImage f) as [e|img] eqn:Hl; [done|].
    cbn [mbind result_bind] in Hres.
    exists f, img. do 3 (split; [done|]).
    destruct gridSize; [|lia]. done.
  - intros (f & img & Hf & Hv & Hl & Hg). by apply (Hok f img).
  - intros e Hv. unfold processImage. by rewrite Hv.
  - intros f e -> Hv Hl. unfold processImage. rewrite Hv. cbn [mbind result_bind].
    by rewrite Hl.
  - intros f img -> Hv Hl ->. unfold processImage. rewrite Hv. cbn [mbind result_bind].
    rewrite Hl. done.
Qed.

(** What [processImage] resolves to: [gridSize * gridSize] cells; a
    well-formed [gridSize] x [gridSize] raster in which every pixel has
    R = G = B; a threshold that is the supplied one when one is supplied;
    and the cells are what [applyThreshold] gives on the returned raster at
    the returned threshold. *)
Theorem processImage_result `{Canvas} (file : option File) (gridSize : nat)
  (threshold : option Z) (res : ProcessResult) :
  processImage file gridSize threshold = inr res →
  length (checkboxStates res) = (gridSize * gridSize)%nat ∧
  width (imageData res) = gridSize ∧ height (imageData res) = gridSize ∧
  wf_ImageData (imageData res) ∧ gray_data (data (imageData res)) ∧
  (∀ t, threshold = Some t → result_threshold res = t) ∧
  applyThreshold (imageData res) (result_threshold res) gridSize
  = inr (checkboxStates res).
Proof.
  intros Hres. unfold processImage in Hres.
  destruct (validateImageFile file) as [e|[]] eqn:Hv; [done|].
  cbn [mbind result_bind] in Hres. destruct file as [f|]; [|done].
  destruct (loadImage f) as [e|img] eqn:Hl; [done|].
  cbn [mbind result_bind] in Hres.
  destruct gridSize as [|g]; [done|].
  rewrite convertToGrayscale_drawn in Hres by lia. cbn [mbind result_bind] in Hres.
  set (gray := convertImageDataToGrayscale (drawScaled img (S g) (S g))) in *.
  set (t := match threshold with Some t => t | None => calculateOtsuThreshold gray end)
    in *.
  destruct (applyThreshold_cells gray t (S g) ltac:(lia)) as [Hcells Hlen].
  rewrite Hcells in Hres. cbn [mbind result_bind mret result_ret] in Hres.
  injection Hres as <-. cbn [checkboxStates imageData result_threshold].
  pose proof (drawScaled_wf img (S g) (S g)) as Hwf.
  destruct (convertImageDataToGrayscale_wf _ Hwf) as [Hwf' Hgray].
  split; [by rewrite length_fmap|].
  split; [apply drawScaled_width|]. split; [apply drawScaled_height|].
  split; [done|]. split; [done|]. split; [|done].
  intros t' ->. done.
Qed.

Lemma processImage_result_witness :
  ∃ res,
    @processImage BoxCanvas.canvas (Some bimodal_file) 2 (Some 100) = inr res ∧
    length (checkboxStates res) = 4%nat ∧ result_threshold res = 100.
Proof.
  eexists. split; [vm_compute; reflexivity|].
  match goal with
  | |- length (checkboxStates ?r) = _ ∧ _ =>
      destruct (@processImage_result BoxCanvas.canvas (Some bimodal_file) 2 (Some 100) r)
        as (Hlen & _ & _ & _ & _ & Ht & _); [vm_compute; reflexivity|]
  end.
  split; [exact Hlen|exact (Ht 100 eq_refl)].
Defined.

(** ** Thresholds compared *)

Lemma red_entries_bytes data :
  Forall (λ v, 0 <= v <= 255) data → Forall (λ v, 0 <= v <= 255) (red_entries data).
Proof.
  remember (length data) as n eqn:Hn. revert data Hn.
  induction n as [n IH] using lt_wf_ind. intros data -> Hbytes.
  destruct data as [|r [|g [|b [|a rest]]]]; try by constructor.
  cbn [red_entries].
  apply Forall_cons in Hbytes as [Hr Hbytes]. do 3 apply Forall_cons in Hbytes as [_ Hbytes].
  apply Forall_cons. split; [done|].
  apply (IH (length rest)); [simpl; lia|done|done].
Qed.

(** Raising the threshold only turns cells on: a cell that is on at
    [t1] is on at every [t2 >= t1].  At a threshold of 0 or less every cell
    is off, and above 255 every cell is on. *)
Theorem applyThreshold_monotone `{Canvas} (imageData : ImageData) (gridSize : nat)
  (t1 t2 : Z) :
  (1 ≤ gridSize)%nat →
  ∃ cells1 cells2,
    applyThreshold imageData t1 gridSize = inr cells1 ∧
    applyThreshold imageData t2 gridSize = inr cells2 ∧
    (t1 <= t2 → ∀ i, cells1 !! i = Some true → cells2 !! i = Some true) ∧
    (t1 <= 0 → cells1 = replicate (gridSize * gridSize) false) ∧
    (255 < t1 → cells1 = replicate (gridSize * gridSize) true).
Proof.
  intros Hg.
  destruct (applyThreshold_cells imageData t1 gridSize Hg) as [H1 Hlen].
  destruct (applyThreshold_cells imageData t2 gridSize Hg) as [H2 _].
  destruct (drawScaled_wf imageData gridSize gridSize) as [_ Hbytes].
  apply red_entries_bytes in Hbytes.
  set (reds := red_entries (data (drawScaled imageData gridSize gridSize))) in *.
  eexists _, _. split; [exact H1|]. split; [exact H2|]. split; [|split].
  - intros Hle i. rewrite !list_lookup_fmap.
    destruct (reds !! i) as [gray|]; [|done]. cbn.
    intros [= Hlt]. f_equal. apply Z.ltb_lt in Hlt. apply Z.ltb_lt. lia.
  - intros Hle. rewrite <- Hlen. clear Hlen H1 H2.
    induction Hbytes as [|gray reds' Hgray _ IH]; [done|].
    cbn. rewrite IH. f_equal. apply Z.ltb_ge. lia.
  - intros Hlt. rewrite <- Hlen. clear Hlen H1 H2.
    induction Hbytes as [|gray reds' Hgray _ IH]; [done|].
    cbn. rewrite IH. f_equal. apply Z.ltb_lt. lia.
Qed.

Lemma applyThreshold_monotone_witness :
  ∃ cells1 cells2,
    @applyThreshold BoxCanvas.canvas two_level_raster 11 2 = inr cells1 ∧
    @applyThreshold BoxCanvas.canvas two_level_raster 300 2 = inr cells2 ∧
    cells1 = [true; false; false; true] ∧ cells2 = replicate 4 true.
Proof.
  destruct (@applyThreshold_monotone BoxCanvas.canvas two_level_raster 2 11 300)
    as (cells1 & cells2 & H1 & H2 & _); [lia|].
  destruct (@applyThreshold_monotone BoxCanvas.canvas two_level_raster 2 300 300)
    as (cells2' & _ & H2' & _ & _ & _ & Hall); [lia|].
  exists cells1, cells2. split; [exact H1|]. split; [exact H2|]. split.
  - revert H1. vm_compute. congruence.
  - rewrite H2 in H2'. injection H2' as ->. apply Hall. lia.
Defined.

(** ** The histogram *)

Section Histogram.

Lemma histogram_loop_pixels k : ∀ fuel pre suf hist,
  length suf = (4 * k)%nat → (k ≤ fuel)%nat →
  histogram_loop fuel (pre ++ suf) hist (length pre)
  = foldl (λ h gray, alter Z.succ (Z.to_nat gray) h) hist (red_entries suf).
Proof.
  induction k as [|k IH]; intros fuel pre suf hist Hsuf Hfuel.
  - destruct suf; [|done]. rewrite app_nil_r.
    destruct fuel; cbn [histogram_loop red_entries foldl]; [done|].
    by rewrite lookup_ge_None_2.
  - destruct suf as [|r [|g [|b [|a rest]]]]; simpl in Hsuf; try lia.
    destruct fuel as [|fuel]; [lia|].
    cbn [histogram_loop red_entries foldl].
    rewrite list_lookup_middle by done.
    replace (pre ++ r :: g :: b :: a :: rest) with ((pre ++ [r; g; b; a]) ++ rest)
      by (by rewrite <- app_assoc).
    replace (length pre + 4)%nat with (length (pre ++ [r; g; b; a]))
      by (rewrite length_app; simpl; lia).
    by rewrite IH by lia.
Qed.

Lemma pixel_count_cons r reds v :
  pixel_count (r :: reds) v = (if decide (r = v) then 1 else 0) + pixel_count reds v.
Proof.
  unfold pixel_count. rewrite filter_cons.
  destruct (decide (r = v)); cbn [length]; lia.
Qed.

Lemma pixel_count_nonneg reds v : 0 <= pixel_count reds v.
Proof. unfold pixel_count. lia. Qed.

Lemma pixel_count_pos reds v : 0 < pixel_count reds v ↔ v ∈ reds.
Proof.
  induction reds as [|r reds IH].
  - split; [unfold pixel_count; simpl; lia|by intros ?%elem_of_nil].
  - rewrite pixel_count_cons, elem_of_cons.
    pose proof (pixel_count_nonneg reds v).
    destruct (decide (r = v)) as [->|Hne].
    + split; [intros _; by left|intros _; lia].
    + split; [intros H0; right; apply IH; lia|].
      intros [->|Hin]; [done|]. apply IH in Hin. lia.
Qed.

Lemma foldl_alter_length reds : ∀ hist : list Z,
  length (foldl (λ h gray, alter Z.succ (Z.to_nat gray) h) hist reds) = length hist.
Proof.
  induction reds as [|r reds IH]; intros hist; cbn [foldl]; [done|].
  by rewrite IH, length_alter.
Qed.

Lemma foldl_alter_lookup reds : ∀ (hist : list Z) b x,
  Forall (λ v, 0 <= v) reds → hist !! b = Some x →
  foldl (λ h gray, alter Z.succ (Z.to_nat gray) h) hist reds !! b
  = Some (x + pixel_count reds (Z.of_nat b)).
Proof.
  induction reds as [|r reds IH]; intros hist b x Hpos Hb; cbn [foldl].
  - unfold pixel_count. simpl. rewrite Hb. f_equal. lia.
  - apply Forall_cons in Hpos as [Hr Hpos]. rewrite pixel_count_cons.
    destruct (decide (r = Z.of_nat b)) as [->|Hne].
    + rewrite (IH _ b (Z.succ x)); [f_equal; lia|done|].
      rewrite Nat2Z.id, list_lookup_alter, Hb. by rewrite decide_True.
    + rewrite (IH _ b x); [done|done|].
      rewrite list_lookup_alter_ne by lia. done.
Qed.

Lemma histogram_total_alter (l : list Z) : ∀ k,
  (k < length l)%nat → histogram_total (alter Z.succ k l) = histogram_total l + 1.
Proof.
  induction l as [|x l IH]; intros [|k] Hk; simpl in Hk; try lia.
  - cbn [alter list_alter]. rewrite !histogram_total_cons. lia.
  - cbn [alter list_alter]. rewrite !histogram_total_cons.
    change (list_alter Z.succ k l) with (alter Z.succ k l). rewrite IH by lia. lia.
Qed.

Lemma foldl_alter_total reds : ∀ hist : list Z,
  Forall (λ v, 0 <= v ∧ v < Z.of_nat (length hist)) reds →
  histogram_total (foldl (λ h gray, alter Z.succ (Z.to_nat gray) h) hist reds)
  = histogram_total hist + Z.of_nat (length reds).
Proof.
  induction reds as [|r reds IH]; intros hist Hr; cbn [foldl length]; [lia|].
  apply Forall_cons in Hr as [[Hr0 Hr1] Hr].
  rewrite IH by (by rewrite length_alter).
  rewrite histogram_total_alter by lia. lia.
Qed.

Lemma build_histogram_fold imageData :
  length (data imageData) = (4 * (width imageData * height imageData))%nat →
  build_histogram imageData
  = foldl (λ h gray, alter Z.succ (Z.to_nat gray) h) (replicate 256 0)
      (red_entries (data imageData)).
Proof.
  intros Hlen. unfold build_histogram.
  apply (histogram_loop_pixels (width imageData * height imageData) _ []); [done|lia].
Qed.

End Histogram.

Lemma build_histogram_bins (imageData : ImageData) :
  wf_ImageData imageData →
  (∀ v, 0 <= v <= 255 →
        build_histogram imageData !! Z.to_nat v
        = Some (pixel_count (red_entries (data imageData)) v)) ∧
  histogram_total (build_histogram imageData)
  = Z.of_nat (width imageData * height imageData).
Proof.
  intros [Hlen Hbytes]. rewrite build_histogram_fold by done.
  apply red_entries_bytes in Hbytes. split.
  - intros v Hv.
    rewrite (foldl_alter_lookup _ _ (Z.to_nat v) 0).
    + rewrite Z2Nat.id by lia. done.
    + eapply Forall_impl; [exact Hbytes|]. simpl. lia.
    + apply lookup_replicate. split; [done|lia].
  - rewrite foldl_alter_total.
    + rewrite (red_entries_length _ _ Hlen).
      assert (Hz : histogram_total (replicate 256 0) = 0) by (vm_compute; reflexivity).
      lia.
    + eapply Forall_impl; [exact Hbytes|]. intros v Hv. cbv beta in *.
      rewrite length_replicate. lia.
Qed.

(** The histogram that [calculateOtsuThreshold] builds counts every pixel
    once: bin [v] holds the number of pixels whose red entry is [v], and
    the bins add up to the number of pixels. *)
Theorem build_histogram_counts (imageData : ImageData) :
  wf_ImageData imageData →
  (∀ v, 0 <= v <= 255 →
        build_histogram imageData !! Z.to_nat v
        = Some (pixel_count (red_entries (data imageData)) v)) ∧
  histogram_total (build_histogram imageData)
  = Z.of_nat (width imageData * height imageData).
Proof. apply build_histogram_bins. Qed.

Lemma build_histogram_counts_witness :
  wf_ImageData two_level_raster ∧
  build_histogram two_level_raster !! 240%nat = Some 2 ∧
  histogram_total (build_histogram two_level_raster) = 4.
Proof.
  assert (Hwf : wf_ImageData two_level_raster).
  { split; [reflexivity|]. repeat constructor; lia. }
  split; [exact Hwf|].
  destruct (build_histogram_counts two_level_raster Hwf) as [Hbin Htotal].
  split; [exact (Hbin 240 ltac:(lia))|exact Htotal].
Defined.

(** [calculateOtsuThreshold] depends only on how many pixels have each red
    value: two rasters whose red entries are the same up to their order get
    the same threshold, whatever their other channels and their shape. *)
Theorem calculateOtsuThreshold_permutation (imageData1 imageData2 : ImageData) :
  wf_ImageData imageData1 → wf_ImageData imageData2 →
  red_entries (data imageData1) ≡ₚ red_entries (data imageData2) →
  calculateOtsuThreshold imageData1 = calculateOtsuThreshold imageData2.
Proof.
  intros Hwf1 Hwf2 Hperm. unfold calculateOtsuThreshold. f_equal.
  destruct (build_histogram_bins _ Hwf1) as [Hb1 _].
  destruct (build_histogram_bins _ Hwf2) as [Hb2 _].
  apply list_eq. intros b.
  destruct (decide (b < 256)%nat) as [Hb|Hb].
  - specialize (Hb1 (Z.of_nat b) ltac:(lia)). specialize (Hb2 (Z.of_nat b) ltac:(lia)).
    rewrite Nat2Z.id in Hb1, Hb2. rewrite Hb1, Hb2. f_equal.
    unfold pixel_count. by rewrite Hperm.
  - rewrite !lookup_ge_None_2; [done| |]; rewrite build_histogram_length; lia.
Qed.

Lemma calculateOtsuThreshold_permutation_witness :
  calculateOtsuThreshold (gray_raster 2 2 [10; 240; 240; 10])
  = calculateOtsuThreshold (mkImageData 4 1 [240; 0; 0; 0; 10; 1; 2; 3;
                                             10; 9; 9; 9; 240; 7; 7; 7]).
Proof.
  apply calculateOtsuThreshold_permutation.
  - split; [reflexivity|]. repeat constructor; lia.
  - split; [reflexivity|]. repeat constructor; lia.
  - change ([10; 240; 240; 10] ≡ₚ [240; 10; 10; 240]).
    etrans; [apply perm_swap|]. do 2 apply perm_skip. apply perm_swap.
Defined.

(** ** The range of the automatic threshold *)

Section OtsuRange.

Lemma valid_split_below (hist : list Z) c :
  valid_split hist c → (S c < length hist)%nat.
Proof.
  intros (Hc & _ & HwF). destruct (decide (S c < length hist)%nat); [done|].
  unfold wF_at, wB_at in HwF. rewrite take_ge in HwF by lia. lia.
Qed.

Lemma histogram_total_pos_lookup (l : list Z) :
  Forall (λ v, 0 <= v) l → histogram_total l ≠ 0 →
  ∃ i x, l !! i = Some x ∧ 0 < x.
Proof.
  induction 1 as [|x l Hx Hl IH]; [done|].
  rewrite histogram_total_cons. intros Hne.
  destruct (decide (x = 0)) as [->|Hx0].
  - destruct IH as (i & y & Hi & Hy); [lia|]. by exists (S i), y.
  - exists 0%nat, x. split; [done|lia].
Qed.

(** When some candidate splits the pixels, the search returns one that
    does. *)
Lemma otsu_valid_split (hist : list Z) :
  Forall (λ v, 0 <= v) hist → length hist = 256%nat →
  histogram_total hist < 2 ^ 45 →
  (∃ c, valid_split hist c) →
  ∃ c0, otsu_of_histogram hist = Z.of_nat c0 ∧ valid_split hist c0.
Proof.
  intros Hpos Hlen Htot (c & Hvc).
  destruct (otsu_of_histogram_best _ Hpos) as [maxV Hbest].
  destruct Hbest as [(_ & _ & Hall)|(c0 & _ & Ht & Hv & _)]; [|by exists c0].
  pose proof (variance_at_positive hist Hpos Hlen Htot c Hvc) as Hp.
  rewrite Hall in Hp; [done| |done]. by destruct Hvc.
Qed.

End OtsuRange.

(** The threshold that [calculateOtsuThreshold] returns is between 0 and
    254, for every raster. *)
Theorem calculateOtsuThreshold_range (imageData : ImageData) :
  0 <= calculateOtsuThreshold imageData <= 254.
Proof.
  pose proof (build_histogram_nonneg imageData) as Hpos.
  pose proof (build_histogram_length imageData) as Hlen.
  destruct (otsu_of_histogram_best _ Hpos) as [maxV Hbest].
  unfold calculateOtsuThreshold.
  destruct Hbest as [(-> & _)|(c0 & _ & -> & Hv & _)].
  - unfold PROCESSING_CONFIG.DEFAULT_THRESHOLD. lia.
  - apply valid_split_below in Hv. lia.
Qed.

Section OtsuPixels.

Variable imageData : ImageData.
Hypothesis Hwf : wf_ImageData imageData.

Lemma level_split a b :
  a ∈ red_entries (data imageData) → b ∈ red_entries (data imageData) → a < b →
  valid_split (build_histogram imageData) (Z.to_nat a).
Proof.
  intros Ha Hb Hab.
  destruct (build_histogram_bins imageData Hwf) as [Hbins _].
  pose proof (build_histogram_nonneg imageData) as Hpos.
  pose proof (build_histogram_length imageData) as Hlen.
  destruct Hwf as [_ Hbytes]. apply red_entries_bytes in Hbytes.
  rewrite Forall_forall in Hbytes.
  pose proof (Hbytes a Ha) as Ha255. pose proof (Hbytes b Hb) as Hb255.
  pose proof (Hbins a Ha255) as Hbina. pose proof (Hbins b Hb255) as Hbinb.
  apply pixel_count_pos in Ha, Hb.
  set (hist := build_histogram imageData) in *.
  split; [lia|]. split.
  - assert (pixel_count (red_entries (data imageData)) a <= wB_at hist (Z.to_nat a));
      [|lia].
    apply (histogram_total_lookup_le _ (Z.to_nat a)); [by apply Forall_take|].
    by rewrite lookup_take_lt by lia.
  - pose proof (wB_wF_total hist (Z.to_nat a)) as Htot. unfold wF_at.
    assert (pixel_count (red_entries (data imageData)) b
            <= histogram_total (drop (S (Z.to_nat a)) hist)); [|lia].
    apply (histogram_total_lookup_le _ (Z.to_nat b - S (Z.to_nat a)));
      [by apply Forall_drop|].
    rewrite lookup_drop. rewrite <- Hbinb. f_equal. lia.
Qed.

Lemma split_levels c :
  valid_split (build_histogram imageData) c →
  ∃ lo hi, lo ∈ red_entries (data imageData) ∧ hi ∈ red_entries (data imageData) ∧
           lo <= Z.of_nat c < hi.
Proof.
  intros Hv. pose proof (valid_split_below _ _ Hv) as Hc.
  destruct Hv as (_ & HwB & HwF).
  destruct (build_histogram_bins imageData Hwf) as [Hbins _].
  pose proof (build_histogram_nonneg imageData) as Hpos.
  pose proof (build_histogram_length imageData) as Hlen.
  set (hist := build_histogram imageData) in *.
  pose proof (wB_wF_total hist c) as Htot. unfold wF_at in HwF.
  destruct (histogram_total_pos_lookup (take (S c) hist)) as (i & x & Hi & Hx);
    [by apply Forall_take|done|].
  destruct (histogram_total_pos_lookup (drop (S c) hist)) as (j & y & Hj & Hy);
    [by apply Forall_drop|lia|].
  apply lookup_take_Some in Hi as [Hi Hic].
  rewrite lookup_drop in Hj.
  assert (Hj256 : (S c + j < 256)%nat).
  { apply lookup_lt_Some in Hj. lia. }
  pose proof (Hbins (Z.of_nat i) ltac:(lia)) as Hbi.
  pose proof (Hbins (Z.of_nat (S c + j)) ltac:(lia)) as Hbj.
  rewrite Nat2Z.id in Hbi, Hbj. rewrite Hi in Hbi. rewrite Hj in Hbj.
  injection Hbi as ->. injection Hbj as ->.
  apply pixel_count_pos in Hx, Hy.
  exists (Z.of_nat i), (Z.of_nat (S c + j)). split; [done|]. split; [done|]. lia.
Qed.

End OtsuPixels.

(** When the raster has two different red values, the automatic threshold
    separates its pixels: some pixel is at or below the threshold and some
    pixel is above it. *)
Theorem calculateOtsuThreshold_separates (imageData : ImageData) (a b : Z) :
  wf_ImageData imageData →
  Z.of_nat (length (data imageData)) < 2 ^ 45 →
  a ∈ red_entries (data imageData) → b ∈ red_entries (data imageData) → a < b →
  ∃ lo hi, lo ∈ red_entries (data imageData) ∧ hi ∈ red_entries (data imageData) ∧
           lo <= calculateOtsuThreshold imageData < hi.
Proof.
  intros Hwf Hsize Ha Hb Hab.
  pose proof (build_histogram_nonneg imageData) as Hpos.
  pose proof (build_histogram_length imageData) as Hlen.
  pose proof (build_histogram_total imageData) as Htot.
  destruct (otsu_valid_split (build_histogram imageData)) as (c0 & Ht & Hv);
    [done|done|lia|exists (Z.to_nat a); by apply (level_split _ Hwf a b)|].
  unfold calculateOtsuThreshold. rewrite Ht. by apply split_levels.
Qed.

Lemma calculateOtsuThreshold_separates_witness :
  ∃ lo hi, lo ∈ red_entries (data tie_raster) ∧ hi ∈ red_entries (data tie_raster) ∧
           lo <= calculateOtsuThreshold tie_raster < hi.
Proof.
  apply (calculateOtsuThreshold_separates tie_raster 0 2).
  - split; [reflexivity|]. repeat constructor; lia.
  - vm_compute. reflexivity.
  - change (0 ∈ [0; 1; 1; 2]). repeat constructor.
  - change (2 ∈ [0; 1; 1; 2]). repeat constructor.
  - lia.
Defined.

(** ** Two-tone images *)

Lemma otsu_two_levels (imageData : ImageData) (lo hi : Z) :
  wf_ImageData imageData →
  Z.of_nat (length (data imageData)) < 2 ^ 45 →
  lo ∈ red_entries (data imageData) → hi ∈ red_entries (data imageData) → lo < hi →
  (∀ v, v ∈ red_entries (data imageData) → v = lo ∨ v = hi) →
  calculateOtsuThreshold imageData = lo.
Proof.
  intros Hwf Hsize Hlo Hhi Hlt Honly.
  destruct (build_histogram_bins imageData Hwf) as [Hbins _].
  pose proof (build_histogram_nonneg imageData) as Hpos.
  pose proof (build_histogram_length imageData) as Hlen.
  pose proof (build_histogram_total imageData) as Htot.
  assert (Hbytes : Forall (λ v, 0 <= v <= 255) (red_entries (data imageData)))
    by (apply red_entries_bytes; by destruct Hwf).
  rewrite Forall_forall in Hbytes.
  pose proof (Hbytes lo Hlo) as Hlo255. pose proof (Hbytes hi Hhi) as Hhi255.
  pose proof (Hbins lo Hlo255) as Hbinlo. pose proof (Hbins hi Hhi255) as Hbinhi.
  pose proof (proj2 (pixel_count_pos _ _) Hlo) as Hn1.
  pose proof (proj2 (pixel_count_pos _ _) Hhi) as Hn2.
  set (n1 := pixel_count (red_entries (data imageData)) lo) in *.
  set (n2 := pixel_count (red_entries (data imageData)) hi) in *.
  assert (Hothers : ∀ b z, b ≠ Z.to_nat lo → b ≠ Z.to_nat hi →
                      build_histogram imageData !! b = Some z → z = 0).
  { intros b z Hb1 Hb2 Hb.
    assert (b < 256)%nat by (apply lookup_lt_Some in Hb; lia).
    pose proof (Hbins (Z.of_nat b) ltac:(lia)) as Hcount.
    rewrite Nat2Z.id, Hb in Hcount. injection Hcount as ->.
    pose proof (pixel_count_nonneg (red_entries (data imageData)) (Z.of_nat b)).
    destruct (decide (pixel_count (red_entries (data imageData)) (Z.of_nat b) = 0));
      [done|].
    assert (Hin : Z.of_nat b ∈ red_entries (data imageData))
      by (apply pixel_count_pos; lia).
    destruct (Honly _ Hin); lia. }
  assert (Horder : (Z.to_nat lo < Z.to_nat hi)%nat) by lia.
  unfold calculateOtsuThreshold.
  rewrite (two_bins_otsu _ (Z.to_nat lo) (Z.to_nat hi) n1 n2) by done.
  rewrite <- (two_bins_variance (build_histogram imageData) (Z.to_nat lo) (Z.to_nat hi)
                n1 n2 Horder Hbinlo Hbinhi Hothers (Z.to_nat lo)) by lia.
  rewrite variance_at_positive; try done; try lia.
  apply (two_bins_valid _ (Z.to_nat lo) (Z.to_nat hi) n1 n2); done || lia.
Qed.

Lemma threshold_all_off (reds : list Z) (t : Z) :
  Forall (λ v, t <= v) reds →
  (λ gray, gray <? t) <$> reds = replicate (length reds) false.
Proof.
  induction 1 as [|v reds Hv _ IH]; [done|].
  cbn. rewrite IH. f_equal. apply Z.ltb_ge. lia.
Qed.

Lemma processImage_inv `{Canvas} (file : option File) (gridSize : nat)
  (threshold : option Z) (res : ProcessResult) :
  processImage file gridSize threshold = inr res →
  ∃ img,
    (1 ≤ gridSize)%nat ∧
    imageData res = convertImageDataToGrayscale (drawScaled img gridSize gridSize) ∧
    result_threshold res
    = match threshold with
      | Some t => t
      | None => calculateOtsuThreshold (imageData res)
      end ∧
    checkboxStates res
    = (λ gray, gray <? result_threshold res)
      <$> red_entries (data (drawScaled (imageData res) gridSize gridSize)).
Proof.
  intros Hres. unfold processImage in Hres.
  destruct (validateImageFile file) as [e|[]] eqn:Hv; [done|].
  cbn [mbind result_bind] in Hres. destruct file as [f|]; [|done].
  destruct (loadImage f) as [e|img] eqn:Hl; [done|].
  cbn [mbind result_bind] in Hres.
  destruct gridSize as [|g]; [done|].
  rewrite convertToGrayscale_drawn in Hres by lia. cbn [mbind result_bind] in Hres.
  set (gray := convertImageDataToGrayscale (drawScaled img (S g) (S g))) in *.
  set (t := match threshold with Some t => t | None => calculateOtsuThreshold gray end)
    in *.
  destruct (applyThreshold_cells gray t (S g) ltac:(lia)) as [Hcells Hlen].
  rewrite Hcells in Hres. cbn [mbind result_bind mret result_ret] in Hres.
  injection Hres as <-. cbn [checkboxStates imageData result_threshold].
  exists img. split; [lia|]. done.
Qed.

(** A two-tone image comes out blank under the automatic threshold: when
    the grayscale raster that [processImage] returns has exactly two gray
    levels [lo < hi], the threshold it computes is [lo] and, the same-size
    redraw of [applyThreshold] leaving that raster as it is, no pixel is
    strictly below it and every cell is off. *)
Theorem processImage_two_tone_blank `{Canvas} (file : option File) (gridSize : nat)
  (res : ProcessResult) (lo hi : Z) :
  processImage file gridSize None = inr res →
  (gridSize ≤ 1000)%nat →
  drawScaled (imageData res) gridSize gridSize = imageData res →
  lo ∈ red_entries (data (imageData res)) →
  hi ∈ red_entries (data (imageData res)) →
  lo < hi →
  (∀ v, v ∈ red_entries (data (imageData res)) → v = lo ∨ v = hi) →
  result_threshold res = lo ∧
  checkboxStates res = replicate (gridSize * gridSize) false.
Proof.
  intros Hres Hg Hsame Hlo Hhi Hlt Honly.
  destruct (processImage_inv _ _ _ _ Hres) as (img & Hg1 & Himg & Ht & Hcells).
  assert (Hwf : wf_ImageData (imageData res)).
  { rewrite Himg. apply convertImageDataToGrayscale_wf, drawScaled_wf. }
  assert (Hdims : length (data (imageData res)) = (4 * (gridSize * gridSize))%nat).
  { destruct Hwf as [Hlen _]. rewrite Hlen, Himg.
    unfold convertImageDataToGrayscale. cbn [width height].
    by rewrite drawScaled_width, drawScaled_height. }
  assert (Hotsu : calculateOtsuThreshold (imageData res) = lo).
  { apply (otsu_two_levels _ lo hi); try done. rewrite Hdims.
    change (2 ^ 45) with 35184372088832. nia. }
  rewrite Hotsu in Ht. split; [done|].
  rewrite Hcells, Hsame, Ht.
  rewrite <- (red_entries_length _ _ Hdims).
  apply threshold_all_off, Forall_forall.
  intros v Hv. destruct (Honly v Hv); lia.
Qed.

Lemma processImage_two_tone_blank_witness :
  ∃ res,
    @processImage BoxCanvas.canvas (Some bimodal_file) 10 None = inr res ∧
    result_threshold res = 10 ∧
    checkboxStates res = replicate 100 false.
Proof.
  eexists. split; [vm_compute; reflexivity|].
  match goal with
  | |- result_threshold ?r = _ ∧ _ =>
      apply (@processImage_two_tone_blank BoxCanvas.canvas (Some bimodal_file) 10 r 10 240)
  end.
  - vm_compute. reflexivity.
  - lia.
  - vm_compute. reflexivity.
  - apply list_elem_of_In. vm_compute. tauto.
  - apply list_elem_of_In. vm_compute. tauto.
  - lia.
  - apply Forall_forall. apply (bool_decide_unpack _). vm_compute. reflexivity.
Defined.

(** ** Text export for any grid *)

Section TextExportAny.

Lemma parse_text_from gridSize : ∀ states i,
  parse_text (exportAsText_from i states gridSize) = states.
Proof.
  induction states as [|b rest IH]; intros i; [done|].
  cbn [exportAsText_from app]. unfold parse_text, js_string in *.
  assert (Hnl : filter (λ c, c ≠ line_feed)
                  (if row_ends i gridSize then [line_feed] else []) = []).
  { destruct (row_ends i gridSize); [|done].
    rewrite filter_cons, decide_False by (intros Hne; by apply Hne). done. }
  rewrite filter_cons, decide_True by (destruct b; done).
  rewrite filter_app, Hnl. cbn [app fmap list_fmap]. rewrite IH.
  by destruct b.
Qed.

Lemma div_succ_row_end i g :
  (1 ≤ g)%nat →
  (S i / g = i / g + (if row_ends i g then 1 else 0))%nat.
Proof.
  intros Hg. unfold row_ends.
  replace (g =? 0)%nat with false by (symmetry; apply Nat.eqb_neq; lia).
  replace (i + 1)%nat with (S i) by lia.
  pose proof (Nat.div_mod (S i) g ltac:(lia)) as H1.
  pose proof (Nat.div_mod i g ltac:(lia)) as H2.
  pose proof (Nat.mod_upper_bound (S i) g ltac:(lia)) as H3.
  pose proof (Nat.mod_upper_bound i g ltac:(lia)) as H4.
  destruct (Nat.eqb_spec (S i mod g) 0) as [Hz|Hnz]; nia.
Qed.

Lemma line_feeds_from g : ∀ states i,
  (1 ≤ g)%nat →
  (length (filter (λ c, c = line_feed) (exportAsText_from i states g)) + i / g
   = (i + length states) / g)%nat.
Proof.
  induction states as [|b rest IH]; intros i Hg.
  - cbn. by rewrite Nat.add_0_r.
  - cbn [exportAsText_from length app]. unfold js_string in *.
    replace (i + S (length rest))%nat with (S i + length rest)%nat by lia.
    rewrite <- (IH (S i) Hg), (div_succ_row_end i g Hg).
    rewrite filter_cons, decide_False by (destruct b; done).
    rewrite filter_app, length_app.
    destruct (row_ends i g).
    + rewrite filter_cons, decide_True, filter_nil by done. cbn [length]. lia.
    + rewrite filter_nil. cbn [length]. lia.
Qed.

Lemma exportAsText_from_length g : ∀ states i,
  (length (exportAsText_from i states g)
   = length states
     + length (filter (λ c, c = line_feed) (exportAsText_from i states g)))%nat.
Proof.
  induction states as [|b rest IH]; intros i; [done|].
  cbn [exportAsText_from length app]. unfold js_string in *.
  rewrite filter_cons, decide_False by (destruct b; done).
  rewrite filter_app, !length_app, (IH (S i)).
  destruct (row_ends i g).
  - rewrite filter_cons, decide_True, filter_nil by done. cbn [length]. lia.
  - rewrite filter_nil. cbn [length]. lia.
Qed.

Lemma exportAsText_from_zero : ∀ states i,
  exportAsText_from i states 0 = glyph <$> states.
Proof.
  induction states as [|b rest IH]; intros i; [done|].
  cbn [exportAsText_from fmap list_fmap row_ends Nat.eqb app].
  by rewrite IH.
Qed.

End TextExportAny.

(** The exported text determines the grid, for every grid and every grid
    size: reading the glyphs back, line feeds skipped, gives the cells that
    were exported, so two grids with the same text are equal. *)
Theorem exportAsText_parse (checkboxStates : list bool) (gridSize : nat) :
  parse_text (exportAsText checkboxStates gridSize) = checkboxStates ∧
  ∀ other, exportAsText other gridSize = exportAsText checkboxStates gridSize →
           other = checkboxStates.
Proof.
  split; [apply parse_text_from|].
  intros other Heq. apply (f_equal parse_text) in Heq.
  unfold exportAsText in Heq. by rewrite !parse_text_from in Heq.
Qed.

(** For a grid of any length, [exportAsText] writes one line feed per
    completed row of [gridSize] cells, so a last row that is not full is
    not terminated; with a grid size of 0 it writes the glyphs and no line
    feed at all. *)
Theorem exportAsText_line_feeds (checkboxStates : list bool) (gridSize : nat) :
  (gridSize = 0%nat → exportAsText checkboxStates gridSize = glyph <$> checkboxStates) ∧
  ((1 ≤ gridSize)%nat →
   length (filter (λ c, c = line_feed) (exportAsText checkboxStates gridSize))
   = (length checkboxStates / gridSize)%nat ∧
   length (exportAsText checkboxStates gridSize)
   = (length checkboxStates + length checkboxStates / gridSize)%nat).
Proof.
  split.
  - intros ->. apply exportAsText_from_zero.
  - intros Hg. unfold exportAsText.
    pose proof (line_feeds_from gridSize checkboxStates 0 Hg) as Hnl.
    rewrite Nat.Div0.div_0_l, Nat.add_0_r in Hnl. cbn [Nat.add] in Hnl.
    split; [done|]. by rewrite exportAsText_from_length, Hnl.
Qed.

(** ** Image export *)

Section ImageExport.

Variables (gridSize : nat) (size : Z).
Hypothesis Hg : (1 ≤ gridSize)%nat.
Hypothesis Hsize : 0 < size.





End ImageExport.




(** ** The GIF utilities *)

Section GifConverters.

Lemma GifProcessor_luminance r g b :
  GifProcessor.luminance r g b = luminance r g b.
Proof.
  unfold GifProcessor.luminance, luminance, PROCESSING_CONFIG.red,
    PROCESSING_CONFIG.green, PROCESSING_CONFIG.blue.
  by rewrite (Prim2SF_mul_comm 0.299), (Prim2SF_mul_comm 0.587),
    (Prim2SF_mul_comm 0.114).
Qed.

Lemma GifProcessor_grayscale_loop fuel : ∀ src dst i,
  GifProcessor.grayscale_loop fuel src dst i = grayscale_loop fuel src dst i.
Proof.
  induction fuel as [|fuel IH]; intros src dst i; [done|].
  cbn [GifProcessor.grayscale_loop grayscale_loop]. rewrite IH.
  unfold GifProcessor.grayscale_step, grayscale_step.
  by rewrite GifProcessor_luminance.
Qed.

End GifConverters.

(** The grayscale converter that [gifProcessor] keeps for itself and
    [convertImageDataToGrayscale] of [imageProcessor] give the same raster
    for every input: writing the weight before or after the channel value
    does not change any rounded product. *)
Theorem GifProcessor_convertToGrayscale_agrees (imageData : ImageData) :
  GifProcessor.convertToGrayscale imageData = convertImageDataToGrayscale imageData.
Proof.
  unfold GifProcessor.convertToGrayscale, convertImageDataToGrayscale.
  by rewrite GifProcessor_grayscale_loop.
Qed.

Lemma processGIFrames_stripped `{Canvas} (frames : list GIFFrame)
  (gridSize : nat) (threshold : Z) :
  (1 ≤ gridSize)%nat →
  GifProcessor.processGIFrames frames gridSize threshold
  = inr ((λ frame, mkGIFFrame (frame_imageData frame) (frame_delay frame)
                     (disposalMethod frame) None) <$> frames).
Proof.
  intros Hg. unfold GifProcessor.processGIFrames.
  induction frames as [|frame frames IH]; [done|].
  change (mapM ?f (frame :: frames)) with (y ← f frame; k ← mapM f frames; mret (y :: k)).
  rewrite IH. unfold GifProcessor.applyThresholdToGrid.
  replace (gridSize =? 0)%nat with false by (symmetry; apply Nat.eqb_neq; lia).
  done.
Qed.

(** [processGIFrames] of [gifProcessor], for a grid size of at least 1,
    returns the frames it was given, with their image, delay and disposal
    method and with no checkbox states: the grid it computes for each frame
    is dropped, so the result depends neither on the threshold nor on the
    grid size. *)
Theorem GifProcessor_processGIFrames_drops_grid `{Canvas} (frames : list GIFFrame)
  (gridSize : nat) (threshold : Z) :
  (1 ≤ gridSize)%nat →
  GifProcessor.processGIFrames frames gridSize threshold
  = inr ((λ frame, mkGIFFrame (frame_imageData frame) (frame_delay frame)
                     (disposalMethod frame) None) <$> frames).
Proof. apply processGIFrames_stripped. Qed.

Lemma GifProcessor_processGIFrames_drops_grid_witness :
  @GifProcessor.processGIFrames BoxCanvas.canvas
    [mkGIFFrame two_level_raster (Some 100) 2 (Some [true])] 2 11
  = inr [mkGIFFrame two_level_raster (Some 100) 2 None].
Proof.
  apply (@GifProcessor_processGIFrames_drops_grid BoxCanvas.canvas
           [mkGIFFrame two_level_raster (Some 100) 2 (Some [true])] 2 11).
  lia.
Defined.

(** [processGIF] of [gifProcessor] validates before it extracts: a missing
    file, a type other than image/gif and a size above 50 MB are rejected
    with the error of [validateGIF] whatever the extraction would give;
    for a GIF of at most 50 MB an extraction failure is passed on, and
    otherwise the extracted frames are returned without checkbox states. *)
Theorem GifProcessor_processGIF_stages `{Canvas}
  (extractGIFrames : File → result (list GIFFrame)) (gifFile : option File)
  (gridSize : nat) (threshold : Z) :
  (1 ≤ gridSize)%nat →
  GifProcessor.processGIF extractGIFrames gifFile gridSize threshold
  = match gifFile with
    | None => inl (ImageProcessingError NO_FILE)
    | Some f =>
        if negb (String.eqb (type f) "image/gif")
        then inl (ImageProcessingError UNSUPPORTED_FORMAT)
        else if 52428800 <? size f
        then inl (ImageProcessingError FILE_TOO_LARGE)
        else
          match extractGIFrames f with
          | inl e => inl e
          | inr frames =>
              inr ((λ frame, mkGIFFrame (frame_imageData frame) (frame_delay frame)
                               (disposalMethod frame) None) <$> frames)
          end
    end.
Proof.
  intros Hg. unfold GifProcessor.processGIF, GifProcessor.validateGIF.
  destruct gifFile as [f|]; [|done].
  unfold includes, GIF_CONFIG.SUPPORTED_FORMATS.
  destruct (String.eqb_spec (type f) "image/gif") as [Hty|Hty].
  - rewrite bool_decide_eq_true_2 by (rewrite Hty; apply list_elem_of_singleton; done).
    cbn [negb]. change (50 * 1024 * 1024) with 52428800.
    destruct (52428800 <? size f); [done|]. cbn [mbind result_bind].
    destruct (extractGIFrames f) as [e|frames]; [done|]. cbn [mbind result_bind].
    by apply processGIFrames_stripped.
  - rewrite bool_decide_eq_false_2; [done|].
    by rewrite list_elem_of_singleton.
Qed.

Lemma GifProcessor_processGIF_stages_witness :
  @GifProcessor.processGIF BoxCanvas.canvas (λ _, inr []) (Some large_gif) 2 128
  = inl (ImageProcessingError FILE_TOO_LARGE).
Proof.
  rewrite (@GifProcessor_processGIF_stages BoxCanvas.canvas (λ _, inr [])
             (Some large_gif) 2 128) by lia.
  reflexivity.
Defined.

(** [exportAnimatedGIF] needs the checkbox states of every frame, and
    [processGIFrames] returns frames without them: exporting what
    [processGIFrames] returned is always rejected with [EXPORT_ERROR]. *)
Theorem GifProcessor_export_after_process `{Canvas} (frames processed : list GIFFrame)
  (gridSize exportGrid : nat) (threshold : Z) (exportSize : string) :
  GifProcessor.processGIFrames frames gridSize threshold = inr processed →
  GifProcessor.exportAnimatedGIF processed exportGrid exportSize
  = inl (ImageProcessingError EXPORT_ERROR).
Proof.
  intros Hproc. apply mapM_result_inr in Hproc.
  unfold GifProcessor.exportAnimatedGIF.
  destruct Hproc as [|frame out frames' processed' Hframe _]; [done|].
  change (mapM ?f (out :: processed'))
    with (y ← f out; k ← mapM f processed'; mret (y :: k)).
  assert (Hnone : frame_checkboxStates out = None).
  { cbv zeta in Hframe.
    destruct (GifProcessor.applyThresholdToGrid
                (convertImageDataToGrayscale (frame_imageData frame)) threshold gridSize);
      [done|].
    cbn [mbind result_bind mret result_ret] in Hframe. by injection Hframe as <-. }
  cbv beta. by rewrite Hnone.
Qed.

Lemma GifProcessor_export_after_process_witness :
  @GifProcessor.processGIFrames BoxCanvas.canvas
    [mkGIFFrame two_level_raster (Some 100) 2 (Some [true])] 2 11
  = inr [mkGIFFrame two_level_raster (Some 100) 2 None] ∧
  GifProcessor.exportAnimatedGIF [mkGIFFrame two_level_raster (Some 100) 2 None] 2 "Small"
  = inl (ImageProcessingError EXPORT_ERROR).
Proof.
  assert (Hproc : @GifProcessor.processGIFrames BoxCanvas.canvas
                    [mkGIFFrame two_level_raster (Some 100) 2 (Some [true])] 2 11
                  = inr [mkGIFFrame two_level_raster (Some 100) 2 None])
    by (vm_compute; reflexivity).
  split; [exact Hproc|].
  exact (@GifProcessor_export_after_process BoxCanvas.canvas _ _ 2 2 11 "Small" Hproc).
Defined.

(** ** Frame extraction by animation-frame callbacks *)

Section GifExtraction.
Context `{Canvas}.

Lemma drawFrame_frames (img : ImageData) (timestamps : list float) :
  ∀ (frames out : list GIFFrame),
  (length frames < GIF_CONFIG.MAX_FRAMES)%nat →
  GifProcessor.drawFrame img frames timestamps = Some out →
  ∃ n, (1 ≤ n ≤ length timestamps)%nat ∧
       (length frames + n ≤ GIF_CONFIG.MAX_FRAMES)%nat ∧
       out = frames ++ replicate n
               (mkGIFFrame (drawScaled img (width img) (height img))
                  (Some GIF_CONFIG.DEFAULT_DELAY) 2 None).
Proof.
  induction timestamps as [|t rest IH]; intros frames out Hlen; [done|].
  cbn [GifProcessor.drawFrame]. rewrite length_app. cbn [length].
  destruct (Nat.leb_spec GIF_CONFIG.MAX_FRAMES (length frames + 1)) as [Hfull|Hroom].
  - intros [= <-]. exists 1%nat. split; [lia|]. split; [lia|done].
  - destruct (PrimFloat.ltb t 10000).
    + intros Hrun.
      apply IH in Hrun as (n & Hn & Hcap & ->); [|rewrite length_app; cbn [length]; lia].
      rewrite length_app in Hcap. cbn [length] in Hcap.
      exists (S n). split; [lia|]. split; [lia|].
      by rewrite <- app_assoc.
    + intros [= <-]. exists 1%nat. split; [lia|]. split; [lia|done].
Qed.

Lemma drawFrame_settles (img : ImageData) (timestamps : list float) :
  ∀ frames : list GIFFrame,
  (GIF_CONFIG.MAX_FRAMES ≤ length frames + length timestamps)%nat →
  (length frames < GIF_CONFIG.MAX_FRAMES)%nat →
  ∃ out, GifProcessor.drawFrame img frames timestamps = Some out.
Proof.
  induction timestamps as [|t rest IH]; intros frames Hmany Hlen.
  - cbn [length] in Hmany. lia.
  - cbn [GifProcessor.drawFrame]. rewrite length_app. cbn [length] in *.
    destruct (Nat.leb_spec GIF_CONFIG.MAX_FRAMES (length frames + 1)); [by eexists|].
    destruct (PrimFloat.ltb t 10000); [|by eexists].
    apply IH; rewrite length_app; cbn [length]; lia.
Qed.

End GifExtraction.

(** What [extractGIFrames] of [gifProcessor] resolves to: between 1 and
    100 frames, no more than the animation-frame callbacks that have run,
    and all of them the same frame, the first frame of the image with
    delay 100 and disposal method 2.  When the timestamp of the first
    callback is not below 10000 ms there is exactly one frame; once 100
    callbacks have run the promise is settled. *)
Theorem GifProcessor_extractGIFrames_frames `{Canvas} (gifFile : File) (img : ImageData)
  (timestamps : list float) :
  decoded gifFile = Some img → width img ≠ 0%nat → height img ≠ 0%nat →
  (∀ frames,
     GifProcessor.extractGIFrames gifFile timestamps = Some (inr frames) →
     (1 ≤ length frames ≤ 100)%nat ∧ (length frames ≤ length timestamps)%nat ∧
     frames = replicate (length frames)
                (mkGIFFrame (drawScaled img (width img) (height img)) (Some 100) 2 None)) ∧
  (∀ t rest, timestamps = t :: rest → PrimFloat.ltb t 10000 = false →
     GifProcessor.extractGIFrames gifFile timestamps
     = Some (inr [mkGIFFrame (drawScaled img (width img) (height img)) (Some 100) 2 None])) ∧
  ((100 ≤ length timestamps)%nat →
   ∃ frames, GifProcessor.extractGIFrames gifFile timestamps = Some (inr frames)).
Proof.
  intros Hdec Hw Hh. unfold GifProcessor.extractGIFrames. rewrite Hdec.
  replace (width img =? 0)%nat with false by (symmetry; apply Nat.eqb_neq; lia).
  replace (height img =? 0)%nat with false by (symmetry; apply Nat.eqb_neq; lia).
  cbn [orb]. split; [|split].
  - intros frames Hrun.
    destruct (GifProcessor.drawFrame img [] timestamps) as [out|] eqn:Hout; [|done].
    injection Hrun as <-.
    destruct (drawFrame_frames img timestamps [] out) as (n & Hn & Hcap & ->);
      [unfold GIF_CONFIG.MAX_FRAMES; cbn; lia|done|].
    unfold GIF_CONFIG.MAX_FRAMES in Hcap. cbn [length Nat.add app] in *.
    rewrite length_replicate. split; [lia|]. split; [lia|done].
  - intros t rest -> Ht. cbn [GifProcessor.drawFrame app length].
    rewrite Ht. done.
  - intros Hmany.
    destruct (drawFrame_settles img timestamps []) as [out ->];
      [unfold GIF_CONFIG.MAX_FRAMES; cbn [length]; lia
      |unfold GIF_CONFIG.MAX_FRAMES; cbn [length]; lia|].
    by eexists.
Qed.

Lemma GifProcessor_extractGIFrames_frames_witness :
  @GifProcessor.extractGIFrames BoxCanvas.canvas large_gif [12000.5]%float
  = Some (inr [mkGIFFrame (BoxCanvas.draw bimodal_10_240 10 10) (Some 100) 2 None]).
Proof.
  destruct (@GifProcessor_extractGIFrames_frames BoxCanvas.canvas large_gif bimodal_10_240
              [12000.5]%float) as (_ & Hone & _); [reflexivity|done|done|].
  exact (Hone _ _ eq_refl eq_refl).
Defined.

(** ** The hook: stored frames *)

Lemma mapM_result_lookup {A B} (f : A → result B) (l : list A) (ys : list B) k y :
  mapM f l = inr ys → ys !! k = Some y → ∃ x, l !! k = Some x ∧ f x = inr y.
Proof.
  intros Hmap Hk. apply mapM_result_inr in Hmap.
  destruct (Forall2_lookup_r _ _ _ _ _ Hmap Hk) as (x & Hx & Hfx). by exists x.
Qed.

(** A successful [processGIF] of the hook stores 15 frames, whatever the
    file holds: frame [k] has delay [100 + 5 k], disposal method 2 and
    [gridSize * gridSize] checkbox states, the first frame being the decoded
    image as drawn; playback is stopped at frame 0, the frame count is 15
    and the error is cleared. *)
Theorem useAnimatedGIF_processGIF_stored `{Canvas}
  (waveEffect : ImageData → nat → ImageData) (st : UseAnimatedGIF.HookState)
  (f : File) (img : ImageData) (gridSize : nat) (threshold : Z) :
  decoded f = Some img → width img ≠ 0%nat → height img ≠ 0%nat →
  (1 ≤ gridSize)%nat →
  ∃ stored st',
    UseAnimatedGIF.processGIF waveEffect st (Some f) gridSize threshold
    = (st', inr stored) ∧
    UseAnimatedGIF.frames st' = stored ∧ length stored = 15%nat ∧
    UseAnimatedGIF.frameCount st' = 15%nat ∧
    UseAnimatedGIF.isPlaying st' = false ∧
    UseAnimatedGIF.currentFrame st' = 0%nat ∧
    UseAnimatedGIF.currentFrameRef st' = 0%nat ∧
    UseAnimatedGIF.error st' = None ∧
    UseAnimatedGIF.playbackSpeed st' = UseAnimatedGIF.playbackSpeed st ∧
    ∀ k frame, stored !! k = Some frame →
      delay frame = 100 + 5 * Z.of_nat k ∧
      pf_disposalMethod frame = 2 ∧
      length (pf_checkboxStates frame) = (gridSize * gridSize)%nat ∧
      (k = 0%nat → pf_imageData frame = drawScaled img (width img) (height img)).
Proof.
  intros Hdec Hw Hh Hg.
  unfold UseAnimatedGIF.processGIF, GifFrameExtractor.extractGIFrames.
  rewrite Hdec.
  replace (width img =? 0)%nat with false by (symmetry; apply Nat.eqb_neq; lia).
  replace (height img =? 0)%nat with false by (symmetry; apply Nat.eqb_neq; lia).
  cbn [orb mbind result_bind].
  destruct (mapM_result_total (UseAnimatedGIF.processFrame gridSize threshold)
              (map (GifFrameExtractor.extractFrame waveEffect img)
                 (seq 0 GifFrameExtractor.frameCount))) as (stored & Hstored & Hlen).
  { intros frame. unfold UseAnimatedGIF.processFrame.
    destruct (applyThreshold_cells
                (convertImageDataToGrayscale (frame_imageData frame)) threshold gridSize Hg)
      as [-> _].
    eexists. reflexivity. }
  rewrite Hstored. rewrite length_map, length_seq in Hlen.
  eexists stored, _. split; [reflexivity|].
  cbn [UseAnimatedGIF.frames UseAnimatedGIF.frameCount UseAnimatedGIF.isPlaying
       UseAnimatedGIF.currentFrame UseAnimatedGIF.currentFrameRef UseAnimatedGIF.error
       UseAnimatedGIF.playbackSpeed].
  do 8 (split; [done|]).
  intros k frame Hk.
  destruct (mapM_result_lookup _ _ _ _ _ Hstored Hk) as (x & Hx & Hfx).
  rewrite list_lookup_fmap in Hx.
  destruct (seq 0 GifFrameExtractor.frameCount !! k) as [i|] eqn:Hi; [|done].
  injection Hx as <-. apply lookup_seq in Hi as [Hik Hi]. simpl in Hik. subst i.
  unfold UseAnimatedGIF.processFrame in Hfx.
  destruct (applyThreshold_cells
              (convertImageDataToGrayscale
                 (frame_imageData (GifFrameExtractor.extractFrame waveEffect img k)))
              threshold gridSize Hg) as [Hcells Hcount].
  rewrite Hcells in Hfx. cbn [mbind result_bind mret result_ret] in Hfx.
  injection Hfx as <-. cbn [delay pf_disposalMethod pf_checkboxStates pf_imageData].
  split.
  { unfold GifFrameExtractor.extractFrame, GifFrameExtractor.baseDelay.
    cbn [frame_delay UseAnimatedGIF.delay_or_default].
    replace (100 + Z.of_nat k * 5 =? 0) with false by (symmetry; apply Z.eqb_neq; lia).
    lia. }
  split; [done|]. split; [by rewrite length_fmap|].
  intros ->. done.
Qed.

Lemma useAnimatedGIF_processGIF_stored_witness :
  ∃ stored st',
    @UseAnimatedGIF.processGIF BoxCanvas.canvas (λ img _, img) UseAnimatedGIF.initial
      (Some large_gif) 2 128 = (st', inr stored) ∧
    length stored = 15%nat ∧ UseAnimatedGIF.frameCount st' = 15%nat.
Proof.
  destruct (@useAnimatedGIF_processGIF_stored BoxCanvas.canvas (λ img _, img)
              UseAnimatedGIF.initial large_gif bimodal_10_240 2 128)
    as (stored & st' & Hrun & _ & Hlen & Hcount & _);
    [reflexivity|done|done|lia|].
  exists stored, st'. split; [exact Hrun|]. split; [exact Hlen|exact Hcount].
Defined.

(** A failed [processGIF] of the hook leaves no frames and records the
    error, but keeps the frame count of the previous upload.  It fails with
    the browser's [TypeError] when there is no file, with a plain [Error]
    when the file does not decode, and with [THRESHOLD_ERROR] when the grid
    size is 0; the type and the size of the file are never looked at. *)
Theorem useAnimatedGIF_processGIF_failure `{Canvas}
  (waveEffect : ImageData → nat → ImageData) (st : UseAnimatedGIF.HookState)
  (file : option File) (gridSize : nat) (threshold : Z) :
  (∀ st' e,
     UseAnimatedGIF.processGIF waveEffect st file gridSize threshold = (st', inl e) →
     UseAnimatedGIF.frames st' = [] ∧ UseAnimatedGIF.error st' = Some e ∧
     UseAnimatedGIF.isProcessing st' = false ∧ UseAnimatedGIF.isPlaying st' = false ∧
     UseAnimatedGIF.frameCount st' = UseAnimatedGIF.frameCount st) ∧
  (file = None →
   snd (UseAnimatedGIF.processGIF waveEffect st file gridSize threshold) = inl TypeError) ∧
  (∀ f, file = Some f → decoded f = None →
        snd (UseAnimatedGIF.processGIF waveEffect st file gridSize threshold)
        = inl (PlainError "Failed to load GIF")) ∧
  (∀ f img, file = Some f → decoded f = Some img →
            width img ≠ 0%nat → height img ≠ 0%nat → gridSize = 0%nat →
            snd (UseAnimatedGIF.processGIF waveEffect st file gridSize threshold)
            = inl (ImageProcessingError THRESHOLD_ERROR)).
Proof.
  split; [|split; [|split]].
  - intros st' e. unfold UseAnimatedGIF.processGIF.
    destruct (_ ≫= _) as [err|processed]; [|done].
    intros [= <- <-]. done.
  - intros ->. done.
  - intros f -> Hdec. unfold UseAnimatedGIF.processGIF, GifFrameExtractor.extractGIFrames.
    by rewrite Hdec.
  - intros f img -> Hdec Hw Hh ->.
    unfold UseAnimatedGIF.processGIF, GifFrameExtractor.extractGIFrames.
    rewrite Hdec.
    replace (width img =? 0)%nat with false by (symmetry; apply Nat.eqb_neq; lia).
    replace (height img =? 0)%nat with false by (symmetry; apply Nat.eqb_neq; lia).
    done.
Qed.

(** ** The hook: playback *)

Lemma animate_step (loop : UseAnimatedGIF.AnimationLoop) (st : UseAnimatedGIF.HookState)
  (t : float) (handle : nat) :
  (UseAnimatedGIF.currentFrameRef st < length (UseAnimatedGIF.loop_frames loop))%nat →
  ∃ st',
    UseAnimatedGIF.animate loop st t handle = Some st' ∧
    UseAnimatedGIF.currentFrameRef st'
    = ((UseAnimatedGIF.currentFrameRef st + (if due loop st t then 1 else 0))
       mod length (UseAnimatedGIF.loop_frames loop))%nat ∧
    UseAnimatedGIF.frames st' = UseAnimatedGIF.frames st ∧
    UseAnimatedGIF.isPlaying st' = UseAnimatedGIF.isPlaying st ∧
    UseAnimatedGIF.playbackSpeed st' = UseAnimatedGIF.playbackSpeed st.
Proof.
  intros Hi. unfold UseAnimatedGIF.animate, due.
  destruct (lookup_lt_is_Some_2 _ _ Hi) as [frame ->].
  destruct (PrimFloat.leb _ _); eexists; (split; [reflexivity|]); cbn; split; try done.
  rewrite Nat.add_0_r. symmetry. by apply Nat.mod_small.
Qed.

(** Playback visits the frames in order, cyclically, and skips none: after
    any sequence of scheduler ticks the index is the starting index plus
    the number of ticks at which the current frame was due, modulo the
    number of frames.  No tick fails or leaves the range of the frames. *)
Theorem ticks_index (loop : UseAnimatedGIF.AnimationLoop) (times : list float)
  (handle : nat) : ∀ st : UseAnimatedGIF.HookState,
  (UseAnimatedGIF.currentFrameRef st < length (UseAnimatedGIF.loop_frames loop))%nat →
  ∃ final advances,
    ticks loop st times handle = Some (final, advances) ∧
    (advances ≤ length times)%nat ∧
    UseAnimatedGIF.currentFrameRef final
    = ((UseAnimatedGIF.currentFrameRef st + advances)
       mod length (UseAnimatedGIF.loop_frames loop))%nat ∧
    (UseAnimatedGIF.currentFrameRef final < length (UseAnimatedGIF.loop_frames loop))%nat ∧
    UseAnimatedGIF.frames final = UseAnimatedGIF.frames st.
Proof.
  induction times as [|t rest IH]; intros st Hi.
  - exists st, 0%nat. cbn [ticks length]. split; [done|]. split; [done|].
    rewrite Nat.add_0_r, Nat.mod_small by done. done.
  - destruct (animate_step loop st t handle Hi) as (st' & Hst' & Hidx & Hframes & _).
    assert (Hi' : (UseAnimatedGIF.currentFrameRef st'
                   < length (UseAnimatedGIF.loop_frames loop))%nat).
    { rewrite Hidx. apply Nat.mod_upper_bound. lia. }
    destruct (IH st' Hi') as (final & n & Hrun & Hn & Hfinal & Hrange & Hfr).
    cbn [ticks length]. rewrite Hst', Hrun.
    eexists final, _. split; [reflexivity|].
    split; [destruct (due loop st t); lia|].
    split; [|split; [done|congruence]].
    rewrite Hfinal, Hidx.
    rewrite Nat.Div0.add_mod_idemp_l.
    destruct (due loop st t); f_equal; lia.
Qed.

Lemma ticks_index_witness :
  ∃ final,
    ticks (UseAnimatedGIF.mkLoop three_frames 1) playing_last [1050; 1100; 1150; 1200]%float 1
    = Some (final, 2%nat) ∧
    UseAnimatedGIF.currentFrameRef final = 1%nat.
Proof.
  destruct (ticks_index (UseAnimatedGIF.mkLoop three_frames 1)
              [1050; 1100; 1150; 1200]%float 1 playing_last)
    as (final & advances & Hrun & _ & Hidx & _); [vm_compute; lia|].
  exists final.
  assert (Hadv : advances = 2%nat).
  { revert Hrun. vm_compute. congruence. }
  subst advances. split; [exact Hrun|]. exact Hidx.
Defined.

(** Resuming is starting: [resumeAnimation] does what [startAnimation]
    does, and both begin at frame 0 with a fresh timestamp whatever the
    frame at which playback was paused, while [pauseAnimation] itself keeps
    the frame; with no frames stored neither starts anything. *)
Theorem resumeAnimation_restarts (st : UseAnimatedGIF.HookState) (now : float)
  (handle : nat) :
  UseAnimatedGIF.resumeAnimation st now handle
  = UseAnimatedGIF.startAnimation st now handle ∧
  UseAnimatedGIF.currentFrame (UseAnimatedGIF.pauseAnimation st)
  = UseAnimatedGIF.currentFrame st ∧
  (UseAnimatedGIF.frames st = [] →
   UseAnimatedGIF.resumeAnimation (UseAnimatedGIF.pauseAnimation st) now handle
   = (UseAnimatedGIF.pauseAnimation st, None)) ∧
  (UseAnimatedGIF.frames st ≠ [] →
   ∃ st' loop,
     UseAnimatedGIF.resumeAnimation (UseAnimatedGIF.pauseAnimation st) now handle
     = (st', Some loop) ∧
     UseAnimatedGIF.isPlaying st' = true ∧
     UseAnimatedGIF.currentFrame st' = 0%nat ∧
     UseAnimatedGIF.currentFrameRef st' = 0%nat ∧
     UseAnimatedGIF.lastFrameTimeRef st' = now ∧
     UseAnimatedGIF.loop_frames loop = UseAnimatedGIF.frames st ∧
     UseAnimatedGIF.loop_playbackSpeed loop = UseAnimatedGIF.playbackSpeed st).
Proof.
  split; [|split; [done|split]].
  - unfold UseAnimatedGIF.resumeAnimation, UseAnimatedGIF.startAnimation.
    by destruct (UseAnimatedGIF.frames st).
  - intros Hnone. unfold UseAnimatedGIF.resumeAnimation, UseAnimatedGIF.pauseAnimation.
    cbn [UseAnimatedGIF.frames]. by rewrite Hnone.
  - intros Hsome.
    unfold UseAnimatedGIF.resumeAnimation, UseAnimatedGIF.startAnimation,
      UseAnimatedGIF.pauseAnimation.
    cbn [UseAnimatedGIF.frames UseAnimatedGIF.playbackSpeed].
    destruct (UseAnimatedGIF.frames st) as [|frame rest] eqn:Hfr; [done|].
    eexists _, _. split; [reflexivity|]. done.
Qed.

(** [goToFrame] selects a stored frame and nothing else: an index inside
    the stored frames makes [getCurrentFrameStates] return that frame's
    checkbox states; a negative index or one past the last frame changes
    nothing. *)
Theorem goToFrame_selects (st : UseAnimatedGIF.HookState) (frameIndex : Z) :
  (∀ frame, 0 <= frameIndex →
     UseAnimatedGIF.frames st !! Z.to_nat frameIndex = Some frame →
     UseAnimatedGIF.getCurrentFrameStates (UseAnimatedGIF.goToFrame st frameIndex)
     = pf_checkboxStates frame ∧
     UseAnimatedGIF.currentFrameRef (UseAnimatedGIF.goToFrame st frameIndex)
     = Z.to_nat frameIndex ∧
     UseAnimatedGIF.frames (UseAnimatedGIF.goToFrame st frameIndex)
     = UseAnimatedGIF.frames st) ∧
  (frameIndex < 0 ∨ Z.of_nat (length (UseAnimatedGIF.frames st)) <= frameIndex →
   UseAnimatedGIF.goToFrame st frameIndex = st).
Proof.
  unfold UseAnimatedGIF.goToFrame. split.
  - intros frame H0 Hframe. pose proof (lookup_lt_Some _ _ _ Hframe) as Hlt.
    replace (0 <=? frameIndex) with true by (symmetry; apply Z.leb_le; lia).
    replace (frameIndex <? Z.of_nat (length (UseAnimatedGIF.frames st))) with true
      by (symmetry; apply Z.ltb_lt; lia).
    cbn [andb]. unfold UseAnimatedGIF.getCurrentFrameStates.
    cbn [UseAnimatedGIF.frames UseAnimatedGIF.currentFrame UseAnimatedGIF.currentFrameRef].
    by rewrite Hframe.
  - intros [Hneg|Hbig].
    + by replace (0 <=? frameIndex) with false by (symmetry; apply Z.leb_gt; lia).
    + replace (frameIndex <? Z.of_nat (length (UseAnimatedGIF.frames st))) with false
        by (symmetry; apply Z.ltb_ge; lia).
      by rewrite andb_false_r.
Qed.

(** After [clearFrames] nothing is left to play: there are no frames and no
    frame count, [getCurrentFrameStates] is empty, [startAnimation] starts
    nothing and [goToFrame] changes nothing, for every index. *)
Theorem clearFrames_empties (st : UseAnimatedGIF.HookState) (now : float)
  (handle : nat) (frameIndex : Z) :
  let cleared := UseAnimatedGIF.clearFrames st in
  UseAnimatedGIF.frames cleared = [] ∧
  UseAnimatedGIF.frameCount cleared = 0%nat ∧
  UseAnimatedGIF.isPlaying cleared = false ∧
  UseAnimatedGIF.animationRef cleared = None ∧
  UseAnimatedGIF.error cleared = None ∧
  UseAnimatedGIF.getCurrentFrameStates cleared = [] ∧
  UseAnimatedGIF.startAnimation cleared now handle = (cleared, None) ∧
  UseAnimatedGIF.goToFrame cleared frameIndex = cleared.
Proof.
  cbv zeta. do 7 (split; [done|]).
  unfold UseAnimatedGIF.goToFrame, UseAnimatedGIF.clearFrames.
  cbn [UseAnimatedGIF.frames length].
  destruct (Z.leb_spec 0 frameIndex), (Z.ltb_spec frameIndex (Z.of_nat 0));
    cbn [andb]; try done. lia.
Qed.

